(** * QARMA speculative parallel-execution engine: a shallow embedding

    The development embeds the quantum register (kernel/quantum/quantum_register.c),
    the predictive scheduler (kernel/quantum/quantum_scheduler.c), the AI observer
    and the adaptive controller, and settles the properties stated about them.

    Conventions.
    - [uint32_t] and [size_t] (the kernel is a 32-bit build: pointers are cast to
      [uint32_t] throughout) are [Z] with the wrap-around written [u32].
    - [int] is [Z]; signed overflow is undefined in C and is not modelled, except
      where the source relies on it (the ensemble pseudo-random seed), where the
      two's complement wrap [s32] is written out.
    - [float] is IEEE binary32 and [double] binary64, through the Standard
      Library's executable specification [SpecFloat].
    - Memory is a map from addresses to bytes; a pointer is an address, [NULL] is 0.
    - [heap_alloc] lives outside these sources: each call site takes the pointer
      the allocator returned (0 on failure) as an argument.
    - The qubit array and the temporal score array have the slots their byte
      count holds, the product [count * sizeof] being computed in [size_t]
      ([alloc_slots]); a store past the end of an array is out of bounds in C
      and is dropped here. The arrays allocated for the length of an existing
      register (result pointers, scores, votes, predictions, execution order)
      and the learning database are taken to hold what was asked for.
    - A pointer to a register is never NULL here; every entry point guards NULL by
      returning at once, which changes nothing. *)

From Stdlib Require Import ZArith Bool List Lia.
From Stdlib Require Import Floats.SpecFloat.
From stdpp Require Import base list.

Open Scope Z_scope.

(** ** Machine level: words, memory, floats *)

Module Mach.

Definition u32 (z : Z) : Z := z mod 2 ^ 32.

Definition s32 (z : Z) : Z :=
  let w := u32 z in if w <? 2 ^ 31 then w else w - 2 ^ 32.

(** The slots of an array for which [heap_alloc(elem_size * count)] was asked:
    the byte count is computed in [size_t] and wraps around. *)
Definition alloc_slots (elem_size count : Z) : Z := u32 (elem_size * count) / elem_size.

Definition ptr := Z.
Definition NULL : ptr := 0.
Definition is_null (p : ptr) : bool := p =? 0.

Definition mem := Z -> Z.

Definition store_byte (m : mem) (p : ptr) (b : Z) : mem :=
  fun a => if a =? p then b else m a.

Fixpoint load_bytes (m : mem) (p : ptr) (n : nat) : list Z :=
  match n with
  | O => []
  | S k => m p :: load_bytes m (p + 1) k
  end.

Fixpoint store_bytes (m : mem) (p : ptr) (bs : list Z) : mem :=
  match bs with
  | [] => m
  | b :: bs' => store_bytes (store_byte m p b) (p + 1) bs'
  end.

(** [memcpy(dst, src, n)]: the source bytes are read, then written. *)
Definition memcpy (m : mem) (dst src : ptr) (n : Z) : mem :=
  store_bytes m dst (load_bytes m src (Z.to_nat n)).

Definition memset (m : mem) (dst : ptr) (c : Z) (n : Z) : mem :=
  store_bytes m dst (repeat c (Z.to_nat n)).

(** [memcmp(p, q, n)]: 0 when the two ranges agree, otherwise the difference of
    the first pair of bytes that differ. *)
Fixpoint memcmp_nat (m : mem) (p q : ptr) (n : nat) : Z :=
  match n with
  | O => 0
  | S k => if m p =? m q then memcmp_nat m (p + 1) (q + 1) k else m p - m q
  end.

Definition memcmp (m : mem) (p q : ptr) (n : Z) : Z := memcmp_nat m p q (Z.to_nat n).

(** A pointer stored in memory: four bytes, least significant first (x86). *)
Definition ptr_bytes (v : Z) : list Z :=
  [ v mod 256; (v / 256) mod 256; (v / 65536) mod 256; (v / 16777216) mod 256 ].

Definition store_ptr (m : mem) (p : ptr) (v : ptr) : mem := store_bytes m p (ptr_bytes v).

(** IEEE binary32, the C [float]. *)
Module F32.
Definition prec : Z := 24.
Definition emax : Z := 128.
Definition t := spec_float.
Definition of_Z (z : Z) : t := binary_normalize prec emax z 0 false.
Definition add : t -> t -> t := SFadd prec emax.
Definition sub : t -> t -> t := SFsub prec emax.
Definition mul : t -> t -> t := SFmul prec emax.
Definition div : t -> t -> t := SFdiv prec emax.
Definition ltb : t -> t -> bool := SFltb.
Definition leb : t -> t -> bool := SFleb.
Definition eqb : t -> t -> bool := SFeqb.
Definition gtb (x y : t) : bool := SFltb y x.
Definition geb (x y : t) : bool := SFleb y x.
Definition opp : t -> t := SFopp.
(** The literal [n/d] written in decimal in the source, rounded to nearest. *)
Definition lit (n d : Z) : t := div (of_Z n) (of_Z d).
Definition zero : t := of_Z 0.
Definition one : t := of_Z 1.
End F32.

(** IEEE binary64, the C [double]. *)
Module F64.
Definition prec : Z := 53.
Definition emax : Z := 1024.
Definition t := spec_float.
Definition of_Z (z : Z) : t := binary_normalize prec emax z 0 false.
Definition mul : t -> t -> t := SFmul prec emax.
Definition div : t -> t -> t := SFdiv prec emax.
Definition geb (x y : t) : bool := SFleb y x.
Definition lit (n d : Z) : t := div (of_Z n) (of_Z d).
End F64.

End Mach.

(** ** The quantum register: kernel/quantum/quantum_register.c *)

Module Reg.
Import Mach.

Inductive QARMA_QUBIT_STATUS :=
  | QUBIT_STATUS_PENDING
  | QUBIT_STATUS_RUNNING
  | QUBIT_STATUS_COMPLETED
  | QUBIT_STATUS_FAILED
  | QUBIT_STATUS_SKIPPED.

Definition status_eqb (a b : QARMA_QUBIT_STATUS) : bool :=
  match a, b with
  | QUBIT_STATUS_PENDING, QUBIT_STATUS_PENDING
  | QUBIT_STATUS_RUNNING, QUBIT_STATUS_RUNNING
  | QUBIT_STATUS_COMPLETED, QUBIT_STATUS_COMPLETED
  | QUBIT_STATUS_FAILED, QUBIT_STATUS_FAILED
  | QUBIT_STATUS_SKIPPED, QUBIT_STATUS_SKIPPED => true
  | _, _ => false
  end.

Inductive QARMA_COLLAPSE_STRATEGY :=
  | COLLAPSE_FIRST_WINS
  | COLLAPSE_LAST_WINS
  | COLLAPSE_BEST
  | COLLAPSE_VOTE
  | COLLAPSE_COMBINE
  | COLLAPSE_VALIDATE
  | COLLAPSE_CUSTOM
  | COLLAPSE_FUZZY
  | COLLAPSE_PROGRESSIVE
  | COLLAPSE_SPECULATIVE
  | COLLAPSE_MULTIDIM
  | COLLAPSE_TEMPORAL
  | COLLAPSE_ENSEMBLE
  | COLLAPSE_STRATEGY_COUNT.

(** The enumerators as the integers the C enum gives them. *)
Definition strategy_to_Z (s : QARMA_COLLAPSE_STRATEGY) : Z :=
  match s with
  | COLLAPSE_FIRST_WINS => 0
  | COLLAPSE_LAST_WINS => 1
  | COLLAPSE_BEST => 2
  | COLLAPSE_VOTE => 3
  | COLLAPSE_COMBINE => 4
  | COLLAPSE_VALIDATE => 5
  | COLLAPSE_CUSTOM => 6
  | COLLAPSE_FUZZY => 7
  | COLLAPSE_PROGRESSIVE => 8
  | COLLAPSE_SPECULATIVE => 9
  | COLLAPSE_MULTIDIM => 10
  | COLLAPSE_TEMPORAL => 11
  | COLLAPSE_ENSEMBLE => 12
  | COLLAPSE_STRATEGY_COUNT => 13
  end.

Definition all_strategies : list QARMA_COLLAPSE_STRATEGY :=
  [ COLLAPSE_FIRST_WINS; COLLAPSE_LAST_WINS; COLLAPSE_BEST; COLLAPSE_VOTE;
    COLLAPSE_COMBINE; COLLAPSE_VALIDATE; COLLAPSE_CUSTOM; COLLAPSE_FUZZY;
    COLLAPSE_PROGRESSIVE; COLLAPSE_SPECULATIVE; COLLAPSE_MULTIDIM;
    COLLAPSE_TEMPORAL; COLLAPSE_ENSEMBLE; COLLAPSE_STRATEGY_COUNT ].

(** The cast [(QARMA_COLLAPSE_STRATEGY)z] for [z] among the enumerators. *)
Definition strategy_of_Z (z : Z) : QARMA_COLLAPSE_STRATEGY :=
  nth (Z.to_nat z) all_strategies COLLAPSE_STRATEGY_COUNT.

Definition strategy_eqb (a b : QARMA_COLLAPSE_STRATEGY) : bool :=
  strategy_to_Z a =? strategy_to_Z b.

(** Caller-supplied callbacks. A qubit function receives its [data] pointer and
    acts on memory; an evaluator reads a result and returns an [int] score; a
    combiner or custom collapse receives the result array and the output. *)
Definition qubit_fn := ptr -> mem -> mem.
Definition qarma_evaluate_func_t := ptr -> mem -> Z.
Definition qarma_collapse_func_t := list ptr -> Z -> ptr -> mem -> mem.
Definition qarma_combine_func_t := list ptr -> Z -> ptr -> mem -> mem.

Record QARMA_ENSEMBLE_CONFIG := mkEnsemble {
  ens_strategies : list QARMA_COLLAPSE_STRATEGY;   (* strategies[3] *)
  ens_weights : list Z;                            (* weights[3] *)
  ens_num_strategies : Z
}.

Record QARMA_TEMPORAL_HISTORY := mkTemporal {
  th_timestamps : ptr;
  th_quality_history : option (list Z);   (* NULL, or an array of window_size ints *)
  th_history_size : Z;
  th_window_size : Z;
  th_trend_weight : Z
}.

Record QARMA_MULTIDIM_CRITERIA := mkMultidim {
  md_quality_func : option qarma_evaluate_func_t;
  md_speed_func : option qarma_evaluate_func_t;
  md_resource_func : option qarma_evaluate_func_t;
  md_quality_weight : Z;
  md_speed_weight : Z;
  md_resource_weight : Z
}.

Record QARMA_QUBIT := mkQubit {
  qb_enabled : bool;
  qb_status : QARMA_QUBIT_STATUS;
  qb_function : option qubit_fn;
  qb_data : ptr;
  qb_result : ptr;
  qb_result_size : Z;
  qb_start_time : Z;
  qb_end_time : Z;
  qb_assigned_core : Z;
  qb_id : Z;
  qb_userdata : ptr
}.

Definition set_qb_enabled (b : bool) (q : QARMA_QUBIT) : QARMA_QUBIT :=
  mkQubit b (qb_status q) (qb_function q) (qb_data q) (qb_result q) (qb_result_size q)
          (qb_start_time q) (qb_end_time q) (qb_assigned_core q) (qb_id q) (qb_userdata q).
Definition set_qb_status (s : QARMA_QUBIT_STATUS) (q : QARMA_QUBIT) : QARMA_QUBIT :=
  mkQubit (qb_enabled q) s (qb_function q) (qb_data q) (qb_result q) (qb_result_size q)
          (qb_start_time q) (qb_end_time q) (qb_assigned_core q) (qb_id q) (qb_userdata q).
Definition set_qb_function (f : option qubit_fn) (q : QARMA_QUBIT) : QARMA_QUBIT :=
  mkQubit (qb_enabled q) (qb_status q) f (qb_data q) (qb_result q) (qb_result_size q)
          (qb_start_time q) (qb_end_time q) (qb_assigned_core q) (qb_id q) (qb_userdata q).
Definition set_qb_data (d : ptr) (q : QARMA_QUBIT) : QARMA_QUBIT :=
  mkQubit (qb_enabled q) (qb_status q) (qb_function q) d (qb_result q) (qb_result_size q)
          (qb_start_time q) (qb_end_time q) (qb_assigned_core q) (qb_id q) (qb_userdata q).
Definition set_qb_result (p : ptr) (q : QARMA_QUBIT) : QARMA_QUBIT :=
  mkQubit (qb_enabled q) (qb_status q) (qb_function q) (qb_data q) p (qb_result_size q)
          (qb_start_time q) (qb_end_time q) (qb_assigned_core q) (qb_id q) (qb_userdata q).
Definition set_qb_result_size (n : Z) (q : QARMA_QUBIT) : QARMA_QUBIT :=
  mkQubit (qb_enabled q) (qb_status q) (qb_function q) (qb_data q) (qb_result q) n
          (qb_start_time q) (qb_end_time q) (qb_assigned_core q) (qb_id q) (qb_userdata q).
Definition set_qb_start_time (t : Z) (q : QARMA_QUBIT) : QARMA_QUBIT :=
  mkQubit (qb_enabled q) (qb_status q) (qb_function q) (qb_data q) (qb_result q)
          (qb_result_size q) t (qb_end_time q) (qb_assigned_core q) (qb_id q) (qb_userdata q).
Definition set_qb_end_time (t : Z) (q : QARMA_QUBIT) : QARMA_QUBIT :=
  mkQubit (qb_enabled q) (qb_status q) (qb_function q) (qb_data q) (qb_result q)
          (qb_result_size q) (qb_start_time q) t (qb_assigned_core q) (qb_id q) (qb_userdata q).
Definition set_qb_assigned_core (c : Z) (q : QARMA_QUBIT) : QARMA_QUBIT :=
  mkQubit (qb_enabled q) (qb_status q) (qb_function q) (qb_data q) (qb_result q)
          (qb_result_size q) (qb_start_time q) (qb_end_time q) c (qb_id q) (qb_userdata q).
Definition set_qb_id (i : Z) (q : QARMA_QUBIT) : QARMA_QUBIT :=
  mkQubit (qb_enabled q) (qb_status q) (qb_function q) (qb_data q) (qb_result q)
          (qb_result_size q) (qb_start_time q) (qb_end_time q) (qb_assigned_core q) i
          (qb_userdata q).

(** The adaptive controller's state hangs off the register through an opaque
    pointer; its layout is that of quantum_adaptive.h. *)
Inductive quantum_adaptive_policy_t :=
  | ADAPTIVE_POLICY_NONE
  | ADAPTIVE_POLICY_TIMEOUT
  | ADAPTIVE_POLICY_FAILURE_RATE
  | ADAPTIVE_POLICY_QUALITY
  | ADAPTIVE_POLICY_AGGRESSIVE.

Record quantum_adaptive_thresholds_t := mkThresholds {
  timeout_ms : Z;
  failure_threshold : F32.t;
  quality_threshold : F32.t;
  check_interval_ms : Z
}.

Record quantum_adaptive_state_t := mkAdaptive {
  policy : quantum_adaptive_policy_t;
  thresholds : quantum_adaptive_thresholds_t;
  execution_start_time : Z;
  last_check_time : Z;
  switch_count : Z;
  original_strategy : QARMA_COLLAPSE_STRATEGY;
  current_strategy : QARMA_COLLAPSE_STRATEGY;
  has_switched : bool;
  completed_at_last_check : Z;
  failed_at_last_check : Z;
  current_quality : F32.t
}.

Record QARMA_QUANTUM_REGISTER := mkReg {
  reg_qubits : list QARMA_QUBIT;      (* the array of [reg_count] qubits *)
  reg_count : Z;
  reg_capacity : Z;
  reg_strategy : QARMA_COLLAPSE_STRATEGY;
  reg_custom_collapse : option qarma_collapse_func_t;
  reg_evaluate : option qarma_evaluate_func_t;
  reg_combine : option qarma_combine_func_t;
  reg_multidim : option QARMA_MULTIDIM_CRITERIA;
  reg_temporal : option QARMA_TEMPORAL_HISTORY;
  reg_ensemble : option QARMA_ENSEMBLE_CONFIG;
  reg_collapse_output : ptr;
  reg_result_size : Z;
  reg_collapsed : bool;
  reg_completed_count : Z;
  reg_failed_count : Z;
  reg_wait_for_all : bool;
  reg_total_execution_time : Z;
  reg_collapse_time : Z;
  reg_executing : bool;
  reg_lock : Z;
  reg_adaptive_state : option quantum_adaptive_state_t;
  reg_dispatched_count : Z
}.

Definition set_reg_qubits (qs : list QARMA_QUBIT) (r : QARMA_QUANTUM_REGISTER) :=
  mkReg qs (reg_count r) (reg_capacity r) (reg_strategy r) (reg_custom_collapse r)
        (reg_evaluate r) (reg_combine r) (reg_multidim r) (reg_temporal r) (reg_ensemble r)
        (reg_collapse_output r) (reg_result_size r) (reg_collapsed r) (reg_completed_count r)
        (reg_failed_count r) (reg_wait_for_all r) (reg_total_execution_time r)
        (reg_collapse_time r) (reg_executing r) (reg_lock r) (reg_adaptive_state r)
        (reg_dispatched_count r).
Definition set_reg_strategy (s : QARMA_COLLAPSE_STRATEGY) (r : QARMA_QUANTUM_REGISTER) :=
  mkReg (reg_qubits r) (reg_count r) (reg_capacity r) s (reg_custom_collapse r)
        (reg_evaluate r) (reg_combine r) (reg_multidim r) (reg_temporal r) (reg_ensemble r)
        (reg_collapse_output r) (reg_result_size r) (reg_collapsed r) (reg_completed_count r)
        (reg_failed_count r) (reg_wait_for_all r) (reg_total_execution_time r)
        (reg_collapse_time r) (reg_executing r) (reg_lock r) (reg_adaptive_state r)
        (reg_dispatched_count r).
Definition set_reg_custom_collapse (f : option qarma_collapse_func_t)
    (r : QARMA_QUANTUM_REGISTER) :=
  mkReg (reg_qubits r) (reg_count r) (reg_capacity r) (reg_strategy r) f
        (reg_evaluate r) (reg_combine r) (reg_multidim r) (reg_temporal r) (reg_ensemble r)
        (reg_collapse_output r) (reg_result_size r) (reg_collapsed r) (reg_completed_count r)
        (reg_failed_count r) (reg_wait_for_all r) (reg_total_execution_time r)
        (reg_collapse_time r) (reg_executing r) (reg_lock r) (reg_adaptive_state r)
        (reg_dispatched_count r).
Definition set_reg_evaluate (f : option qarma_evaluate_func_t) (r : QARMA_QUANTUM_REGISTER) :=
  mkReg (reg_qubits r) (reg_count r) (reg_capacity r) (reg_strategy r) (reg_custom_collapse r)
        f (reg_combine r) (reg_multidim r) (reg_temporal r) (reg_ensemble r)
        (reg_collapse_output r) (reg_result_size r) (reg_collapsed r) (reg_completed_count r)
        (reg_failed_count r) (reg_wait_for_all r) (reg_total_execution_time r)
        (reg_collapse_time r) (reg_executing r) (reg_lock r) (reg_adaptive_state r)
        (reg_dispatched_count r).
Definition set_reg_combine (f : option qarma_combine_func_t) (r : QARMA_QUANTUM_REGISTER) :=
  mkReg (reg_qubits r) (reg_count r) (reg_capacity r) (reg_strategy r) (reg_custom_collapse r)
        (reg_evaluate r) f (reg_multidim r) (reg_temporal r) (reg_ensemble r)
        (reg_collapse_output r) (reg_result_size r) (reg_collapsed r) (reg_completed_count r)
        (reg_failed_count r) (reg_wait_for_all r) (reg_total_execution_time r)
        (reg_collapse_time r) (reg_executing r) (reg_lock r) (reg_adaptive_state r)
        (reg_dispatched_count r).
Definition set_reg_temporal (t : option QARMA_TEMPORAL_HISTORY) (r : QARMA_QUANTUM_REGISTER) :=
  mkReg (reg_qubits r) (reg_count r) (reg_capacity r) (reg_strategy r) (reg_custom_collapse r)
        (reg_evaluate r) (reg_combine r) (reg_multidim r) t (reg_ensemble r)
        (reg_collapse_output r) (reg_result_size r) (reg_collapsed r) (reg_completed_count r)
        (reg_failed_count r) (reg_wait_for_all r) (reg_total_execution_time r)
        (reg_collapse_time r) (reg_executing r) (reg_lock r) (reg_adaptive_state r)
        (reg_dispatched_count r).
Definition set_reg_collapse_output (p : ptr) (r : QARMA_QUANTUM_REGISTER) :=
  mkReg (reg_qubits r) (reg_count r) (reg_capacity r) (reg_strategy r) (reg_custom_collapse r)
        (reg_evaluate r) (reg_combine r) (reg_multidim r) (reg_temporal r) (reg_ensemble r)
        p (reg_result_size r) (reg_collapsed r) (reg_completed_count r)
        (reg_failed_count r) (reg_wait_for_all r) (reg_total_execution_time r)
        (reg_collapse_time r) (reg_executing r) (reg_lock r) (reg_adaptive_state r)
        (reg_dispatched_count r).
Definition set_reg_result_size (n : Z) (r : QARMA_QUANTUM_REGISTER) :=
  mkReg (reg_qubits r) (reg_count r) (reg_capacity r) (reg_strategy r) (reg_custom_collapse r)
        (reg_evaluate r) (reg_combine r) (reg_multidim r) (reg_temporal r) (reg_ensemble r)
        (reg_collapse_output r) n (reg_collapsed r) (reg_completed_count r)
        (reg_failed_count r) (reg_wait_for_all r) (reg_total_execution_time r)
        (reg_collapse_time r) (reg_executing r) (reg_lock r) (reg_adaptive_state r)
        (reg_dispatched_count r).
Definition set_reg_collapsed (b : bool) (r : QARMA_QUANTUM_REGISTER) :=
  mkReg (reg_qubits r) (reg_count r) (reg_capacity r) (reg_strategy r) (reg_custom_collapse r)
        (reg_evaluate r) (reg_combine r) (reg_multidim r) (reg_temporal r) (reg_ensemble r)
        (reg_collapse_output r) (reg_result_size r) b (reg_completed_count r)
        (reg_failed_count r) (reg_wait_for_all r) (reg_total_execution_time r)
        (reg_collapse_time r) (reg_executing r) (reg_lock r) (reg_adaptive_state r)
        (reg_dispatched_count r).
Definition set_reg_completed_count (n : Z) (r : QARMA_QUANTUM_REGISTER) :=
  mkReg (reg_qubits r) (reg_count r) (reg_capacity r) (reg_strategy r) (reg_custom_collapse r)
        (reg_evaluate r) (reg_combine r) (reg_multidim r) (reg_temporal r) (reg_ensemble r)
        (reg_collapse_output r) (reg_result_size r) (reg_collapsed r) n
        (reg_failed_count r) (reg_wait_for_all r) (reg_total_execution_time r)
        (reg_collapse_time r) (reg_executing r) (reg_lock r) (reg_adaptive_state r)
        (reg_dispatched_count r).
Definition set_reg_failed_count (n : Z) (r : QARMA_QUANTUM_REGISTER) :=
  mkReg (reg_qubits r) (reg_count r) (reg_capacity r) (reg_strategy r) (reg_custom_collapse r)
        (reg_evaluate r) (reg_combine r) (reg_multidim r) (reg_temporal r) (reg_ensemble r)
        (reg_collapse_output r) (reg_result_size r) (reg_collapsed r) (reg_completed_count r)
        n (reg_wait_for_all r) (reg_total_execution_time r)
        (reg_collapse_time r) (reg_executing r) (reg_lock r) (reg_adaptive_state r)
        (reg_dispatched_count r).
Definition set_reg_times (total collapse : Z) (r : QARMA_QUANTUM_REGISTER) :=
  mkReg (reg_qubits r) (reg_count r) (reg_capacity r) (reg_strategy r) (reg_custom_collapse r)
        (reg_evaluate r) (reg_combine r) (reg_multidim r) (reg_temporal r) (reg_ensemble r)
        (reg_collapse_output r) (reg_result_size r) (reg_collapsed r) (reg_completed_count r)
        (reg_failed_count r) (reg_wait_for_all r) total collapse
        (reg_executing r) (reg_lock r) (reg_adaptive_state r) (reg_dispatched_count r).
Definition set_reg_executing (b : bool) (r : QARMA_QUANTUM_REGISTER) :=
  mkReg (reg_qubits r) (reg_count r) (reg_capacity r) (reg_strategy r) (reg_custom_collapse r)
        (reg_evaluate r) (reg_combine r) (reg_multidim r) (reg_temporal r) (reg_ensemble r)
        (reg_collapse_output r) (reg_result_size r) (reg_collapsed r) (reg_completed_count r)
        (reg_failed_count r) (reg_wait_for_all r) (reg_total_execution_time r)
        (reg_collapse_time r) b (reg_lock r) (reg_adaptive_state r)
        (reg_dispatched_count r).
Definition set_reg_adaptive_state (a : option quantum_adaptive_state_t)
    (r : QARMA_QUANTUM_REGISTER) :=
  mkReg (reg_qubits r) (reg_count r) (reg_capacity r) (reg_strategy r) (reg_custom_collapse r)
        (reg_evaluate r) (reg_combine r) (reg_multidim r) (reg_temporal r) (reg_ensemble r)
        (reg_collapse_output r) (reg_result_size r) (reg_collapsed r) (reg_completed_count r)
        (reg_failed_count r) (reg_wait_for_all r) (reg_total_execution_time r)
        (reg_collapse_time r) (reg_executing r) (reg_lock r) a
        (reg_dispatched_count r).

(** The representation invariant of a register: the array has [count] slots,
    and [count] is a non-zero [uint32_t]. *)
Definition reg_wf (r : QARMA_QUANTUM_REGISTER) : Prop :=
  Z.of_nat (length (reg_qubits r)) = reg_count r /\ 0 < reg_count r < 2 ^ 32.

(** *** Register management *)

Definition zero_qubit : QARMA_QUBIT :=
  mkQubit false QUBIT_STATUS_PENDING None NULL NULL 0 0 0 0 0 NULL.

(** [sizeof(QARMA_QUBIT)] in the i386 build the kernel is run as: [bool] padded
    to 4, the status, three pointers and [size_t] of 4 each, two [uint64_t] of
    8 (aligned to 4), then two [uint32_t] and a pointer. *)
Definition SIZEOF_QARMA_QUBIT : Z := 52.

(** [qarma_quantum_register_create]. [reg_mem] and [qubits_mem] are what
    [heap_alloc] returned for the register structure and for the qubit array.
    The array is asked for as [sizeof(QARMA_QUBIT) * qubit_count] bytes, so it
    has [alloc_slots SIZEOF_QARMA_QUBIT qubit_count] slots, which is
    [qubit_count] as long as the product fits [size_t]; [count] and [capacity]
    are set to [qubit_count] either way. *)
Definition qarma_quantum_register_create (qubit_count : Z) (reg_mem qubits_mem : ptr)
    : option QARMA_QUANTUM_REGISTER :=
  if qubit_count =? 0 then None
  else if is_null reg_mem then None
  else if is_null qubits_mem then None
  else
    Some (mkReg (List.map (fun i => set_qb_id (Z.of_nat i) zero_qubit)
                          (seq 0 (Z.to_nat (alloc_slots SIZEOF_QARMA_QUBIT qubit_count))))
                qubit_count qubit_count COLLAPSE_FIRST_WINS None None None None None None
                NULL 0 false 0 0 true 0 0 false 0 None 0).

Definition reset_qubit (q : QARMA_QUBIT) : QARMA_QUBIT :=
  set_qb_assigned_core 0
    (set_qb_end_time 0 (set_qb_start_time 0 (set_qb_status QUBIT_STATUS_PENDING q))).

Definition qarma_quantum_register_reset (r : QARMA_QUANTUM_REGISTER) : QARMA_QUANTUM_REGISTER :=
  let r1 :=
    set_reg_times 0 0
      (set_reg_executing false
        (set_reg_collapsed false
          (set_reg_failed_count 0 (set_reg_completed_count 0 r)))) in
  set_reg_qubits (List.map reset_qubit (reg_qubits r1)) r1.

(** *** Qubit configuration *)

(** The stores [qarma_qubit_init] performs before it looks at [result_size]. *)
Definition init_fields (f : option qubit_fn) (d : ptr) (q : QARMA_QUBIT) : QARMA_QUBIT :=
  set_qb_status QUBIT_STATUS_PENDING
    (set_qb_enabled true (set_qb_data d (set_qb_function f q))).

(** [qubit_allocate_result]: [heap] is what [heap_alloc(size)] returned. The
    pointer is stored before it is tested, so a refusal leaves [result] NULL. *)
Definition qubit_allocate_result (q : QARMA_QUBIT) (size : Z) (heap : ptr) (m : mem)
    : bool * QARMA_QUBIT * mem :=
  if size =? 0 then (false, q, m)
  else
    let q1 := set_qb_result heap q in
    if is_null heap then (false, q1, m)
    else (true, set_qb_result_size size q1, memset m heap 0 size).

Definition fn_absent {A : Type} (f : option A) : bool :=
  match f with None => true | Some _ => false end.

Definition qarma_qubit_init (r : QARMA_QUANTUM_REGISTER) (index : Z)
    (function : option qubit_fn) (data : ptr) (result_size : Z)
    (heap : ptr) (m : mem) : bool * QARMA_QUANTUM_REGISTER * mem :=
  if (index >=? reg_count r) || fn_absent function then (false, r, m)
  else
    let i := Z.to_nat index in
    match reg_qubits r !! i with
    | None => (false, r, m)      (* no such slot: excluded by [index < count] *)
    | Some q =>
        let q1 := init_fields function data q in
        if result_size >? 0 then
          let '(ok, q2, m') := qubit_allocate_result q1 result_size heap m in
          (ok, set_reg_qubits (<[i := q2]> (reg_qubits r)) r, m')
        else (true, set_reg_qubits (<[i := q1]> (reg_qubits r)) r, m)
    end.

Definition qarma_qubit_set_enabled (r : QARMA_QUANTUM_REGISTER) (index : Z) (enabled : bool)
    : QARMA_QUANTUM_REGISTER :=
  if index >=? reg_count r then r
  else
    set_reg_qubits
      (alter (fun q =>
                let q1 := set_qb_enabled enabled q in
                if negb enabled then set_qb_status QUBIT_STATUS_SKIPPED q1 else q1)
             (Z.to_nat index) (reg_qubits r)) r.

Definition qarma_quantum_set_collapse (r : QARMA_QUANTUM_REGISTER)
    (s : QARMA_COLLAPSE_STRATEGY) : QARMA_QUANTUM_REGISTER := set_reg_strategy s r.

(** *** Execution *)

(** The state the dispatch loop threads through the qubits. [ds_writes] is the
    trace of the stores to a qubit's [status] field, in program order, each with
    the index of the qubit it hits; it observes the run and belongs to no C
    structure. *)
Record dispatch_state := mkDispatch {
  ds_mem : mem;
  ds_completed : Z;
  ds_failed : Z;
  ds_dispatched : Z;
  ds_writes : list (nat * QARMA_QUBIT_STATUS)
}.

(** [qubit_execute_wrapper], for the context of qubit [i]. *)
Definition qubit_execute_wrapper (i : nat) (q : QARMA_QUBIT) (st : dispatch_state)
    : QARMA_QUBIT * dispatch_state :=
  match qb_function q with
  | None => (q, st)
  | Some f =>
      let q1 := set_qb_start_time 0 (set_qb_status QUBIT_STATUS_RUNNING q) in
      let m' := f (qb_data q1) (ds_mem st) in
      let q2 := set_qb_status QUBIT_STATUS_COMPLETED (set_qb_end_time 0 q1) in
      (q2, mkDispatch m' (u32 (ds_completed st + 1)) (ds_failed st) (ds_dispatched st)
                      (ds_writes st ++ [(i, QUBIT_STATUS_RUNNING); (i, QUBIT_STATUS_COMPLETED)]))
  end.

(** One turn of the dispatch loop of [qarma_quantum_execute]; [ctx] is what
    [heap_alloc] returned for this qubit's context. *)
Definition dispatch_qubit (ctx : ptr) (i : nat) (q : QARMA_QUBIT) (st : dispatch_state)
    : QARMA_QUBIT * dispatch_state :=
  if negb (qb_enabled q) then
    (set_qb_status QUBIT_STATUS_SKIPPED q,
     mkDispatch (ds_mem st) (ds_completed st) (ds_failed st) (ds_dispatched st)
                (ds_writes st ++ [(i, QUBIT_STATUS_SKIPPED)]))
  else if is_null ctx then
    (set_qb_status QUBIT_STATUS_FAILED q,
     mkDispatch (ds_mem st) (ds_completed st) (u32 (ds_failed st + 1)) (ds_dispatched st)
                (ds_writes st ++ [(i, QUBIT_STATUS_FAILED)]))
  else
    let '(q', st') := qubit_execute_wrapper i q st in
    (q', mkDispatch (ds_mem st') (ds_completed st') (ds_failed st')
                    (u32 (ds_dispatched st' + 1)) (ds_writes st')).

Fixpoint dispatch_loop (ctx_alloc : nat -> ptr) (i : nat) (qs : list QARMA_QUBIT)
    (st : dispatch_state) : list QARMA_QUBIT * dispatch_state :=
  match qs with
  | [] => ([], st)
  | q :: rest =>
      let '(q', st') := dispatch_qubit (ctx_alloc i) i q st in
      let '(rest', st'') := dispatch_loop ctx_alloc (S i) rest st' in
      (q' :: rest', st'')
  end.

(** The status stores one turn of the dispatch loop makes to its qubit. *)
Definition qubit_writes (ctx : ptr) (q : QARMA_QUBIT) : list QARMA_QUBIT_STATUS :=
  if negb (qb_enabled q) then [QUBIT_STATUS_SKIPPED]
  else if is_null ctx then [QUBIT_STATUS_FAILED]
  else match qb_function q with
       | None => []
       | Some _ => [QUBIT_STATUS_RUNNING; QUBIT_STATUS_COMPLETED]
       end.

(** The number of qubits of [qs], the first of which has index [i], that the
    dispatch loop hands to [qubit_execute_wrapper]: enabled, context allocated. *)
Fixpoint handed_over (ctx_alloc : nat -> ptr) (i : nat) (qs : list QARMA_QUBIT) : nat :=
  match qs with
  | [] => O
  | q :: rest =>
      ((if qb_enabled q && negb (is_null (ctx_alloc i)) then 1 else 0)
       + handed_over ctx_alloc (S i) rest)%nat
  end.

Record exec_result := mkExec {
  ex_ret : bool;
  ex_reg : QARMA_QUANTUM_REGISTER;
  ex_mem : mem;
  ex_writes : list (nat * QARMA_QUBIT_STATUS)
}.

(** [qarma_quantum_execute]. The request to the core manager only feeds the log
    and a local that is never read, so it leaves no trace here. [ctx_alloc i] is
    what [heap_alloc] returns for the context of qubit [i]. *)
Definition qarma_quantum_execute (ctx_alloc : nat -> ptr) (r : QARMA_QUANTUM_REGISTER)
    (m : mem) : exec_result :=
  if reg_executing r then mkExec false r m []
  else
    let r1 :=
      set_reg_failed_count 0
        (set_reg_completed_count 0 (set_reg_collapsed false (set_reg_executing true r))) in
    let '(qs, st) := dispatch_loop ctx_alloc 0 (reg_qubits r1) (mkDispatch m 0 0 0 []) in
    let r2 :=
      set_reg_executing false
        (set_reg_failed_count (ds_failed st)
          (set_reg_completed_count (ds_completed st) (set_reg_qubits qs r1))) in
    mkExec (ds_dispatched st >? 0) r2 (ds_mem st) (ds_writes st).

Fixpoint count_enabled (qs : list QARMA_QUBIT) : Z :=
  match qs with
  | [] => 0
  | q :: rest => (if qb_enabled q then 1 else 0) + count_enabled rest
  end.

Definition qarma_quantum_is_complete (r : QARMA_QUANTUM_REGISTER) : bool :=
  let enabled_count := u32 (count_enabled (reg_qubits r)) in
  let finished := u32 (reg_completed_count r + reg_failed_count r) in
  finished >=? enabled_count.

Definition qarma_quantum_execute_sync (ctx_alloc : nat -> ptr) (r : QARMA_QUANTUM_REGISTER)
    (m : mem) : exec_result :=
  let e := qarma_quantum_execute ctx_alloc r m in
  if negb (ex_ret e) then e
  else mkExec (qarma_quantum_is_complete (ex_reg e)) (ex_reg e) (ex_mem e) (ex_writes e).

(** [qarma_quantum_wait]. The loop re-reads the register on every turn;
    [observe k] is the register as the [k]-th read finds it (the counters are
    [volatile]: other cores may have advanced them). [fuel] bounds the number of
    turns the model follows: [None] means the loop is still spinning after
    [fuel] turns. [timeout_ms] is accepted and never read. *)
Fixpoint qarma_quantum_wait (fuel : nat) (observe : nat -> QARMA_QUANTUM_REGISTER)
    (timeout_ms : Z) (k : nat) : option bool :=
  match fuel with
  | O => None
  | S fuel' =>
      if qarma_quantum_is_complete (observe k) then Some true
      else qarma_quantum_wait fuel' observe timeout_ms (S k)
  end.

(** *** Collapse library *)

(** The data pointers of the completed qubits, in array order. *)
Fixpoint gather_results (qs : list QARMA_QUBIT) : list ptr :=
  match qs with
  | [] => []
  | q :: rest =>
      if status_eqb (qb_status q) QUBIT_STATUS_COMPLETED && negb (is_null (qb_data q))
      then qb_data q :: gather_results rest
      else gather_results rest
  end.

Definition result_at (results : list ptr) (i : nat) : ptr := nth i results NULL.

(** The scan "keep the index of the first strictly greater score": started at
    index [i] with the incumbent [(best_idx, best)]. *)
Fixpoint argmax_from (scores : list Z) (i best_idx : nat) (best : Z) : nat :=
  match scores with
  | [] => best_idx
  | s :: rest =>
      if s >? best then argmax_from rest (S i) i s
      else argmax_from rest (S i) best_idx best
  end.

(** The same scan seeded with element 0, as [for (i = 1; ...)] loops do. *)
Definition argmax_first (scores : list Z) : nat :=
  match scores with
  | [] => O
  | s0 :: rest => argmax_from rest 1 0 s0
  end.

Definition sum_Z (l : list Z) : Z := fold_left Z.add l 0.

Definition qarma_collapse_first_wins (results : list ptr) (output : ptr) (m : mem) : mem :=
  match results with
  | [] => m
  | r0 :: _ => if is_null output then m else store_ptr m output r0
  end.

Definition qarma_collapse_last_wins (results : list ptr) (output : ptr) (m : mem) : mem :=
  match results with
  | [] => m
  | _ :: _ =>
      if is_null output then m
      else store_ptr m output (result_at results (length results - 1))
  end.

(** Do all of [results[1..]] agree with [r0] over [size] bytes? The loop stops at
    the first mismatch. *)
Fixpoint validate_all_match (m : mem) (r0 : ptr) (others : list ptr) (size : Z) : bool :=
  match others with
  | [] => true
  | p :: rest =>
      if negb (memcmp m r0 p size =? 0) then false
      else validate_all_match m r0 rest size
  end.

Definition qarma_collapse_validate (results : list ptr) (output : ptr) (size : Z) (m : mem)
    : mem :=
  match results with
  | [] => m
  | r0 :: others =>
      if is_null output || (size =? 0) then m
      else if validate_all_match m r0 others size then memcpy m output r0 size
      else m
  end.

(** The weighted pick of the fuzzy strategy: the first index at which the running
    sum reaches [target], index 0 if none does. *)
Fixpoint fuzzy_pick (scores : list Z) (i : nat) (cumulative target : Z) : nat :=
  match scores with
  | [] => O
  | s :: rest =>
      if cumulative + s >=? target then i
      else fuzzy_pick rest (S i) (cumulative + s) target
  end.

Definition qarma_collapse_fuzzy (results : list ptr) (output : ptr) (size : Z)
    (evaluate : option qarma_evaluate_func_t) (m : mem) : mem :=
  match results, evaluate with
  | [], _ => m
  | r0 :: _, None => if is_null output then m else memcpy m output r0 size
  | r0 :: _, Some ev =>
      if is_null output then m
      else
        let count := Z.of_nat (length results) in
        let scores := List.map (fun p => ev p m) results in
        let total_score := sum_Z scores in
        let best_idx := argmax_from scores 0 0 (-999999) in
        let seed := u32 (u32 (nth 0 scores 0) * 1103515245 + 12345) in
        let rand_val := (seed / 65536) mod 100 in
        let selected_idx :=
          if rand_val <? 70 then best_idx
          else if total_score >? 0 then
            fuzzy_pick scores 0 0 (u32 (rand_val * u32 total_score) / 100)
          else Z.to_nat (rand_val mod count) in
        memcpy m output (result_at results selected_idx) size
  end.

Fixpoint progressive_pass (ev : qarma_evaluate_func_t) (output : ptr) (size : Z)
    (candidates : list ptr) (current_score : Z) (m : mem) : Z * mem :=
  match candidates with
  | [] => (current_score, m)
  | p :: rest =>
      let candidate_score := ev p m in
      if candidate_score >? current_score
      then progressive_pass ev output size rest candidate_score (memcpy m output p size)
      else progressive_pass ev output size rest current_score m
  end.

Definition qarma_collapse_progressive (results : list ptr) (output : ptr) (size : Z)
    (evaluate : option qarma_evaluate_func_t) (m : mem) : mem :=
  match results with
  | [] => m
  | r0 :: others =>
      if is_null output then m
      else
        let m0 := memcpy m output r0 size in
        match evaluate with
        | None => m0
        | Some ev =>
            let '(s1, m1) := progressive_pass ev output size others (ev output m0) m0 in
            let '(s2, m2) := progressive_pass ev output size others s1 m1 in
            let '(_, m3) := progressive_pass ev output size others s2 m2 in
            m3
        end
  end.

(** The validation loop of the speculative strategy; the state is
    (confirmations, contradictions, best alternative score, its index). The test
    [score >= speculative_score * 0.9] is carried out in [double]. *)
Fixpoint speculative_scan (scores : list Z) (i : nat) (speculative_score : Z)
    (st : Z * Z * Z * nat) : Z * Z * Z * nat :=
  match scores with
  | [] => st
  | score :: rest =>
      let '(confirmations, contradictions, best_alt, best_alt_idx) := st in
      let st' :=
        if F64.geb (F64.of_Z score) (F64.mul (F64.of_Z speculative_score) (F64.lit 9 10))
        then (u32 (confirmations + 1), contradictions, best_alt, best_alt_idx)
        else if score >? best_alt
        then (confirmations, u32 (contradictions + 1), score, i)
        else st in
      speculative_scan rest (S i) speculative_score st'
  end.

Definition qarma_collapse_speculative (results : list ptr) (output : ptr) (size : Z)
    (evaluate : option qarma_evaluate_func_t) (m : mem) : mem :=
  match results with
  | [] => m
  | r0 :: others =>
      if is_null output then m
      else
        let m0 := memcpy m output r0 size in
        match evaluate, others with
        | None, _ | _, [] => m0
        | Some ev, _ :: _ =>
            let speculative_score := ev r0 m0 in
            let '(confirmations, contradictions, best_alt, best_alt_idx) :=
              speculative_scan (List.map (fun p => ev p m0) others) 1 speculative_score
                               (0, 0, -999999, O) in
            if (contradictions >? confirmations) && (best_alt >? speculative_score)
            then memcpy m0 output (result_at results best_alt_idx) size
            else m0
        end
  end.

Definition eval_or_zero (f : option qarma_evaluate_func_t) (p : ptr) (m : mem) : Z :=
  match f with Some ev => ev p m | None => 0 end.

Definition multidim_total_weight (c : QARMA_MULTIDIM_CRITERIA) : Z :=
  let w := md_quality_weight c + md_speed_weight c + md_resource_weight c in
  if w =? 0 then 1 else w.

Definition multidim_aggregate (c : QARMA_MULTIDIM_CRITERIA) (p : ptr) (m : mem) : Z :=
  Z.quot (eval_or_zero (md_quality_func c) p m * md_quality_weight c
          + eval_or_zero (md_speed_func c) p m * md_speed_weight c
          + eval_or_zero (md_resource_func c) p m * md_resource_weight c)
         (multidim_total_weight c).

(** [scratch] is what [heap_alloc] returned for the strategy's score array. *)
Definition qarma_collapse_multidim (results : list ptr) (output : ptr) (size : Z)
    (criteria : option QARMA_MULTIDIM_CRITERIA) (scratch : ptr) (m : mem) : mem :=
  match results, criteria with
  | [], _ => m
  | r0 :: _, None => if is_null output then m else memcpy m output r0 size
  | r0 :: _, Some c =>
      if is_null output then m
      else if is_null scratch then memcpy m output r0 size
      else
        let aggregate_scores := List.map (fun p => multidim_aggregate c p m) results in
        memcpy m output (result_at results (argmax_first aggregate_scores)) size
  end.

Definition temporal_blend (trend_weight current historical : Z) : Z :=
  let trend := current - historical in
  Z.quot (current * (100 - trend_weight) + (current + trend) * trend_weight) 100.

(** The temporal scores: blended with the history for the indices below
    [history_size], the current score beyond. *)
Definition temporal_scores_of (h : QARMA_TEMPORAL_HISTORY) (current_scores : list Z)
    : list Z :=
  match th_quality_history h with
  | Some qh =>
      if th_history_size h >? 0 then
        imap (fun i current =>
                if Z.of_nat i <? th_history_size h
                then temporal_blend (th_trend_weight h) current (nth i qh 0)
                else current) current_scores
      else current_scores
  | None => current_scores
  end.

(** The history after the call: [history_size] raised to [count], and the first
    [count] slots of the score array overwritten (the array has [window_size]
    slots; a store past its end is out of bounds in C and is dropped here). *)
Definition temporal_update (h : QARMA_TEMPORAL_HISTORY) (current_scores : list Z)
    : QARMA_TEMPORAL_HISTORY :=
  let count := Z.of_nat (length current_scores) in
  mkTemporal (th_timestamps h)
             (match th_quality_history h with
              | Some qh => Some (imap (fun i old => nth i current_scores old) qh)
              | None => None
              end)
             (if th_history_size h <? count then count else th_history_size h)
             (th_window_size h) (th_trend_weight h).

Definition qarma_collapse_temporal (results : list ptr) (output : ptr) (size : Z)
    (evaluate : option qarma_evaluate_func_t) (history : option QARMA_TEMPORAL_HISTORY)
    (scratch : ptr) (m : mem) : option QARMA_TEMPORAL_HISTORY * mem :=
  match results with
  | [] => (history, m)
  | r0 :: _ =>
      if is_null output then (history, m)
      else
        match history, evaluate with
        | Some h, Some ev =>
            if is_null scratch then (history, memcpy m output r0 size)
            else
              let current_scores := List.map (fun p => ev p m) results in
              let temporal_scores := temporal_scores_of h current_scores in
              let best_idx := argmax_first temporal_scores in
              (Some (temporal_update h current_scores),
               memcpy m output (result_at results best_idx) size)
        | _, _ => (history, memcpy m output r0 size)
        end
  end.

(** The index a sub-strategy of the ensemble would select (its selection rule is
    replayed, not its copy step). *)
Definition ensemble_select (r : QARMA_QUANTUM_REGISTER) (strategy : QARMA_COLLAPSE_STRATEGY)
    (results : list ptr) (m : mem) : nat :=
  let count := Z.of_nat (length results) in
  match strategy with
  | COLLAPSE_FIRST_WINS => O
  | COLLAPSE_LAST_WINS => (length results - 1)%nat
  | COLLAPSE_BEST =>
      match reg_evaluate r with
      | Some ev => argmax_first (List.map (fun p => ev p m) results)
      | None => O
      end
  | COLLAPSE_FUZZY =>
      match reg_evaluate r with
      | Some ev =>
          let scores := List.map (fun p => ev p m) results in
          let best_idx := argmax_first scores in
          let best_score := nth best_idx scores 0 in
          let rand_val := u32 (Z.rem (s32 (s32 (best_score * 1103515245) + 12345)) 100) in
          if rand_val >=? 70 then Z.to_nat (rand_val mod count) else best_idx
      | None => O
      end
  | COLLAPSE_MULTIDIM =>
      match reg_multidim r with
      | Some c => argmax_from (List.map (fun p => multidim_aggregate c p m) results) 0 0 (-999999)
      | None => O
      end
  | COLLAPSE_TEMPORAL =>
      match reg_temporal r, reg_evaluate r with
      | Some h, Some ev =>
          let temporal_scores :=
            imap (fun i current =>
                    match th_quality_history h with
                    | Some qh =>
                        if Z.of_nat i <? th_history_size h
                        then temporal_blend (th_trend_weight h) current (nth i qh 0)
                        else current
                    | None => current
                    end) (List.map (fun p => ev p m) results) in
          argmax_from temporal_scores 0 0 (-999999)
      | _, _ => O
      end
  | _ => O
  end.

(** The voting loop over the first [n] configured sub-strategies, starting at
    slot [s]; [votes] has one counter per result. *)
Fixpoint ensemble_votes (r : QARMA_QUANTUM_REGISTER) (cfg : QARMA_ENSEMBLE_CONFIG)
    (results : list ptr) (m : mem) (n : nat) (s : nat) (votes : list Z) : list Z :=
  match n with
  | O => votes
  | S n' =>
      let strategy := nth s (ens_strategies cfg) COLLAPSE_FIRST_WINS in
      let weight := nth s (ens_weights cfg) 0 in
      let selected_idx := ensemble_select r strategy results m in
      ensemble_votes r cfg results m n' (S s)
                     (alter (fun v => v + weight) selected_idx votes)
  end.

Definition qarma_collapse_ensemble (results : list ptr) (output : ptr) (size : Z)
    (r : QARMA_QUANTUM_REGISTER) (scratch : ptr) (m : mem) : mem :=
  match results, reg_ensemble r with
  | [], _ => m
  | r0 :: _, None => if is_null output then m else memcpy m output r0 size
  | r0 :: _, Some cfg =>
      if is_null output then m
      else if is_null scratch then memcpy m output r0 size
      else
        let votes :=
          ensemble_votes r cfg results m (Z.to_nat (ens_num_strategies cfg)) 0
                         (repeat 0 (length results)) in
        memcpy m output (result_at results (argmax_first votes)) size
  end.

(** What the allocator answers during one [qarma_quantum_collapse]: for the
    array of result pointers, for the output buffer (asked for only when the
    register has none and [result_size > 0]) and for the score arrays of the
    selected strategy. *)
Record collapse_heap := mkCollapseHeap {
  ch_results : ptr;
  ch_output : ptr;
  ch_scratch : ptr
}.

(** The [switch (reg->strategy)] of [qarma_quantum_collapse]. Every case that
    acts tests [result_count > 0] first; the test is made once here. *)
Definition apply_strategy (h : collapse_heap) (results : list ptr)
    (r : QARMA_QUANTUM_REGISTER) (m : mem) : QARMA_QUANTUM_REGISTER * mem :=
  let result_count := Z.of_nat (length results) in
  let output := reg_collapse_output r in
  let size := reg_result_size r in
  if negb (result_count >? 0) then (r, m)
  else
    match reg_strategy r with
    | COLLAPSE_FIRST_WINS => (r, qarma_collapse_first_wins results output m)
    | COLLAPSE_LAST_WINS => (r, qarma_collapse_last_wins results output m)
    | COLLAPSE_BEST =>
        match reg_evaluate r with
        | Some ev =>
            let best_idx := argmax_first (List.map (fun p => ev p m) results) in
            if negb (is_null output) && (size >? 0)
            then (r, memcpy m output (result_at results best_idx) size)
            else (r, m)
        | None => (r, m)
        end
    | COLLAPSE_VOTE => (r, m)
    | COLLAPSE_COMBINE =>
        match reg_combine r with
        | Some combine => (r, combine results result_count output m)
        | None => (r, m)
        end
    | COLLAPSE_VALIDATE =>
        if size >? 0 then (r, qarma_collapse_validate results output size m) else (r, m)
    | COLLAPSE_CUSTOM =>
        match reg_custom_collapse r with
        | Some custom => (r, custom results result_count output m)
        | None => (r, m)
        end
    | COLLAPSE_FUZZY =>
        match reg_evaluate r with
        | Some _ => (r, qarma_collapse_fuzzy results output size (reg_evaluate r) m)
        | None => (r, m)
        end
    | COLLAPSE_PROGRESSIVE =>
        (r, qarma_collapse_progressive results output size (reg_evaluate r) m)
    | COLLAPSE_SPECULATIVE =>
        match reg_evaluate r with
        | Some _ => (r, qarma_collapse_speculative results output size (reg_evaluate r) m)
        | None => (r, m)
        end
    | COLLAPSE_MULTIDIM =>
        match reg_multidim r with
        | Some _ =>
            (r, qarma_collapse_multidim results output size (reg_multidim r) (ch_scratch h) m)
        | None => (r, m)
        end
    | COLLAPSE_TEMPORAL =>
        match reg_temporal r with
        | Some _ =>
            let '(t, m') :=
              qarma_collapse_temporal results output size (reg_evaluate r) (reg_temporal r)
                                      (ch_scratch h) m in
            (set_reg_temporal t r, m')
        | None => (r, m)
        end
    | COLLAPSE_ENSEMBLE =>
        match reg_ensemble r with
        | Some _ => (r, qarma_collapse_ensemble results output size r (ch_scratch h) m)
        | None => (r, m)
        end
    | COLLAPSE_STRATEGY_COUNT => (r, m)
    end.

(** [qarma_quantum_collapse]: the returned pointer, the register and the memory
    after the call. *)
Definition qarma_quantum_collapse (h : collapse_heap) (r : QARMA_QUANTUM_REGISTER) (m : mem)
    : ptr * QARMA_QUANTUM_REGISTER * mem :=
  if reg_collapsed r then (reg_collapse_output r, r, m)
  else if is_null (ch_results h) then (NULL, r, m)
  else
    let results := gather_results (reg_qubits r) in
    if is_null (reg_collapse_output r) && (reg_result_size r >? 0) then
      if is_null (ch_output h) then (NULL, r, m)
      else
        let r1 := set_reg_collapse_output (ch_output h) r in
        let m1 := memset m (ch_output h) 0 (reg_result_size r) in
        let '(r2, m2) := apply_strategy h results r1 m1 in
        (reg_collapse_output r2, set_reg_collapsed true r2, m2)
    else
      let '(r2, m2) := apply_strategy h results r m in
      (reg_collapse_output r2, set_reg_collapsed true r2, m2).

End Reg.

(** ** The predictive scheduler: kernel/quantum/quantum_scheduler.c *)

Module Sched.
Import Mach Reg.

Inductive quantum_schedule_strategy_t :=
  | SCHEDULE_SEQUENTIAL
  | SCHEDULE_RANDOM
  | SCHEDULE_LONGEST_FIRST
  | SCHEDULE_SHORTEST_FIRST
  | SCHEDULE_BALANCED
  | SCHEDULE_AI_PREDICTED.

Record qubit_prediction_t := mkPrediction {
  qubit_index : Z;
  predicted_time_ms : Z;
  confidence : F32.t;
  complexity_score : Z
}.

Record learned_pattern_t := mkPattern {
  data_size : Z;
  avg_time_ms : Z;
  sample_count : Z
}.

(** [g_scheduler]. [predictions] is [None] for a NULL array; [learned_patterns]
    is the table, of which the first [pattern_count] slots are in use. *)
Record quantum_scheduler_t := mkScheduler {
  strategy : quantum_schedule_strategy_t;
  predictions : option (list qubit_prediction_t);
  prediction_count : Z;
  learned_patterns : list learned_pattern_t;
  pattern_count : Z;
  total_scheduled : Z;
  predictions_accurate : Z;
  avg_prediction_error : F32.t
}.

Definition estimate_complexity (size : Z) : Z := u32 (size * 10).

(** The scan of [lookup_learned_time] over the slots in use. *)
Fixpoint lookup_in (patterns : list learned_pattern_t) (size : Z) : Z :=
  match patterns with
  | [] => 0
  | p :: rest => if data_size p =? size then avg_time_ms p else lookup_in rest size
  end.

Definition lookup_learned_time (g : quantum_scheduler_t) (size : Z) : Z :=
  lookup_in (firstn (Z.to_nat (pattern_count g)) (learned_patterns g)) size.


(** The body of the prediction loop for qubit [i]. *)
Definition predict_qubit (g : quantum_scheduler_t) (i : nat) (qubit : QARMA_QUBIT)
    : qubit_prediction_t :=
  let complexity := estimate_complexity (qb_result_size qubit) in
  let learned_time := lookup_learned_time g (qb_result_size qubit) in
  if learned_time >? 0 then
    mkPrediction (Z.of_nat i) learned_time (F32.lit 8 10) complexity
  else
    let t := complexity / 100 in
    mkPrediction (Z.of_nat i) (if t <? 1 then 1 else t) (F32.lit 3 10) complexity.

(** [quantum_scheduler_predict]; [heap] is what [heap_alloc] returned for the
    prediction array. *)
Definition quantum_scheduler_predict (g : quantum_scheduler_t) (r : QARMA_QUANTUM_REGISTER)
    (heap : ptr) : quantum_scheduler_t :=
  if is_null heap then
    mkScheduler (strategy g) None (prediction_count g) (learned_patterns g)
                (pattern_count g) (total_scheduled g) (predictions_accurate g)
                (avg_prediction_error g)
  else
    mkScheduler (strategy g) (Some (imap (predict_qubit g) (reg_qubits r))) (reg_count r)
                (learned_patterns g) (pattern_count g)
                (u32 (total_scheduled g + reg_count r)) (predictions_accurate g)
                (avg_prediction_error g).

(** The first pattern in use recorded for exactly this size, if any. *)
Fixpoint first_match (patterns : list learned_pattern_t) (size : Z)
    : option learned_pattern_t :=
  match patterns with
  | [] => None
  | p :: rest => if data_size p =? size then Some p else first_match rest size
  end.

Definition patterns_in_use (g : quantum_scheduler_t) : list learned_pattern_t :=
  firstn (Z.to_nat (pattern_count g)) (learned_patterns g).

(** The index of the first pattern recorded for this size, from slot [j] on. *)
Fixpoint find_pattern (patterns : list learned_pattern_t) (size : Z) (j : nat) : option nat :=
  match patterns with
  | [] => None
  | p :: rest => if data_size p =? size then Some j else find_pattern rest size (S j)
  end.

(** The state the learning loop threads through the qubits. *)
Record learn_state := mkLearn {
  ls_patterns : list learned_pattern_t;
  ls_pattern_count : Z;
  ls_accurate_count : Z;
  ls_total_error : F32.t
}.

(** The body of the learning loop for a completed qubit with prediction [pred]. *)
Definition learn_qubit (qubit : QARMA_QUBIT) (pred : qubit_prediction_t) (st : learn_state)
    : learn_state :=
  let actual_time := u32 (qb_end_time qubit - qb_start_time qubit) in
  let error := s32 actual_time - s32 (predicted_time_ms pred) in
  let error_pct :=
    if actual_time >? 0 then F32.div (F32.of_Z error) (F32.of_Z actual_time) else F32.zero in
  let error_pct := if F32.ltb error_pct F32.zero then F32.opp error_pct else error_pct in
  let total_error := F32.add (ls_total_error st) error_pct in
  let accurate :=
    if F32.ltb error_pct (F32.lit 2 10) then u32 (ls_accurate_count st + 1)
    else ls_accurate_count st in
  match find_pattern (firstn (Z.to_nat (ls_pattern_count st)) (ls_patterns st))
                     (qb_result_size qubit) 0 with
  | Some j =>
      mkLearn (alter (fun p =>
                        mkPattern (data_size p)
                                  (u32 (u32 (avg_time_ms p * sample_count p) + actual_time)
                                   / u32 (sample_count p + 1))
                                  (u32 (sample_count p + 1)))
                     j (ls_patterns st))
              (ls_pattern_count st) accurate total_error
  | None =>
      if ls_pattern_count st <? 32 then
        mkLearn (<[Z.to_nat (ls_pattern_count st) :=
                     mkPattern (qb_result_size qubit) actual_time 1]> (ls_patterns st))
                (u32 (ls_pattern_count st + 1)) accurate total_error
      else mkLearn (ls_patterns st) (ls_pattern_count st) accurate total_error
  end.

Fixpoint learn_loop (qs : list QARMA_QUBIT) (preds : list qubit_prediction_t) (i : nat)
    (st : learn_state) : learn_state :=
  match qs with
  | [] => st
  | qubit :: rest =>
      if status_eqb (qb_status qubit) QUBIT_STATUS_COMPLETED then
        match preds !! i with
        | Some pred => learn_loop rest preds (S i) (learn_qubit qubit pred st)
        | None => learn_loop rest preds (S i) st    (* no such prediction: not modelled *)
        end
      else learn_loop rest preds (S i) st
  end.

(** [quantum_scheduler_learn] *)
Definition quantum_scheduler_learn (g : quantum_scheduler_t) (r : QARMA_QUANTUM_REGISTER)
    : quantum_scheduler_t :=
  match predictions g with
  | None => g
  | Some preds =>
      let st := learn_loop (reg_qubits r) preds 0
                           (mkLearn (learned_patterns g) (pattern_count g) 0 F32.zero) in
      if reg_count r >? 0 then
        mkScheduler (strategy g) (predictions g) (prediction_count g) (ls_patterns st)
                    (ls_pattern_count st) (total_scheduled g)
                    (u32 (predictions_accurate g + ls_accurate_count st))
                    (F32.add (F32.mul (avg_prediction_error g) (F32.lit 7 10))
                             (F32.mul (F32.div (ls_total_error st) (F32.of_Z (reg_count r)))
                                      (F32.lit 3 10)))
      else
        mkScheduler (strategy g) (predictions g) (prediction_count g) (ls_patterns st)
                    (ls_pattern_count st) (total_scheduled g) (predictions_accurate g)
                    (avg_prediction_error g)
  end.

(** [g_scheduler] as the program starts. *)
Definition g_scheduler : quantum_scheduler_t :=
  mkScheduler SCHEDULE_AI_PREDICTED None 0 (repeat (mkPattern 0 0 0) 32) 0 0 0 F32.zero.

(** [quantum_scheduler_get_prediction] *)
Definition quantum_scheduler_get_prediction (g : quantum_scheduler_t) (index : Z)
    : option qubit_prediction_t :=
  match predictions g with
  | None => None
  | Some ps => if index >=? prediction_count g then None else ps !! Z.to_nat index
  end.

End Sched.

(** ** The AI observer *)

Module Observer.
Import Mach Reg.

Definition INITIAL_DB_CAPACITY : Z := 32.
Definition PROFILE_MATCH_THRESHOLD : F32.t := F32.lit 8 10.

Record quantum_workload_profile_t := mkProfile {
  qubit_count : Z;
  avg_execution_time : Z;
  variance : Z;
  has_evaluation : bool;
  requires_all : bool;
  data_size : Z
}.

Record strategy_metrics_t := mkMetrics {
  total_uses : Z;
  success_count : Z;
  total_time : Z;
  avg_quality : F32.t;
  last_used : Z
}.

Record quantum_learning_entry_t := mkEntry {
  profile : quantum_workload_profile_t;
  metrics : list strategy_metrics_t;      (* metrics[COLLAPSE_STRATEGY_COUNT] *)
  observation_count : Z;
  confidence : F32.t
}.

(** [g_observer]; [learning_db] holds the [db_size] entries in use. *)
Record quantum_ai_observer_t := mkObserver {
  learning_db : list quantum_learning_entry_t;
  db_size : Z;
  db_capacity : Z;
  enabled : bool;
  total_observations : Z
}.

Definition quantum_ai_init : quantum_ai_observer_t := mkObserver [] 0 0 true 0.

(** The representation invariant of the database: [db_size] entries in use. *)
Definition db_wf (g : quantum_ai_observer_t) : Prop :=
  Z.of_nat (length (learning_db g)) = db_size g.

Definition profile_similarity (a b : quantum_workload_profile_t) : F32.t :=
  let qubit_diff :=
    F32.of_Z (if qubit_count a >? qubit_count b
              then u32 (qubit_count a - qubit_count b)
              else u32 (qubit_count b - qubit_count a)) in
  let qubit_sim :=
    if F32.ltb qubit_diff (F32.of_Z 10)
    then F32.sub F32.one (F32.div qubit_diff (F32.of_Z 10))
    else F32.zero in
  let similarity := F32.add F32.zero (F32.mul qubit_sim (F32.lit 3 10)) in
  let weight_sum := F32.add F32.zero (F32.lit 3 10) in
  let '(similarity, weight_sum) :=
    if (avg_execution_time a >? 0) && (avg_execution_time b >? 0) then
      let time_ratio :=
        F32.div (F32.of_Z (avg_execution_time a)) (F32.of_Z (avg_execution_time b)) in
      let time_ratio :=
        if F32.gtb time_ratio F32.one then F32.div F32.one time_ratio else time_ratio in
      (F32.add similarity (F32.mul time_ratio (F32.lit 25 100)),
       F32.add weight_sum (F32.lit 25 100))
    else (similarity, weight_sum) in
  let '(similarity, weight_sum) :=
    if Bool.eqb (has_evaluation a) (has_evaluation b)
    then (F32.add similarity (F32.lit 15 100), F32.add weight_sum (F32.lit 15 100))
    else (similarity, weight_sum) in
  let '(similarity, weight_sum) :=
    if Bool.eqb (requires_all a) (requires_all b)
    then (F32.add similarity (F32.lit 15 100), F32.add weight_sum (F32.lit 15 100))
    else (similarity, weight_sum) in
  let '(similarity, weight_sum) :=
    if (data_size a >? 0) && (data_size b >? 0) then
      let size_ratio := F32.div (F32.of_Z (data_size a)) (F32.of_Z (data_size b)) in
      let size_ratio :=
        if F32.gtb size_ratio F32.one then F32.div F32.one size_ratio else size_ratio in
      (F32.add similarity (F32.mul size_ratio (F32.lit 15 100)),
       F32.add weight_sum (F32.lit 15 100))
    else (similarity, weight_sum) in
  if F32.gtb weight_sum F32.zero then F32.div similarity weight_sum else F32.zero.

(** The scan for the most similar entry: index and similarity of the incumbent. *)
Fixpoint best_match_from (p : quantum_workload_profile_t)
    (db : list quantum_learning_entry_t) (i : nat)
    (best : option nat) (best_similarity : F32.t) : option nat * F32.t :=
  match db with
  | [] => (best, best_similarity)
  | e :: rest =>
      let sim := profile_similarity p (profile e) in
      if F32.gtb sim best_similarity
      then best_match_from p rest (S i) (Some i) sim
      else best_match_from p rest (S i) best best_similarity
  end.

Definition zero_metrics : strategy_metrics_t := mkMetrics 0 0 0 F32.zero 0.

Definition new_entry (p : quantum_workload_profile_t) : quantum_learning_entry_t :=
  mkEntry p (repeat zero_metrics 13) 0 F32.zero.

(** The tail of [find_or_create_entry]: grow the database when it is full
    ([heap] is what [heap_alloc] returns for the new array), then initialise the
    slot at [db_size]. *)
Definition create_entry (g : quantum_ai_observer_t) (p : quantum_workload_profile_t)
    (heap : ptr) : option nat * quantum_ai_observer_t :=
  if db_size g >=? db_capacity g then
    if is_null heap then (None, g)
    else
      (Some (Z.to_nat (db_size g)),
       mkObserver (learning_db g ++ [new_entry p]) (u32 (db_size g + 1))
                  (if db_capacity g =? 0 then INITIAL_DB_CAPACITY
                   else u32 (db_capacity g * 2))
                  (enabled g) (total_observations g))
  else
    (Some (Z.to_nat (db_size g)),
     mkObserver (learning_db g ++ [new_entry p]) (u32 (db_size g + 1)) (db_capacity g)
                (enabled g) (total_observations g)).

(** [find_or_create_entry]: the index of the entry in the database, or [None]
    for NULL. *)
Definition find_or_create_entry (g : quantum_ai_observer_t) (p : quantum_workload_profile_t)
    (heap : ptr) : option nat * quantum_ai_observer_t :=
  let '(best_match, best_similarity) :=
    best_match_from p (learning_db g) 0 None F32.zero in
  match best_match with
  | Some i =>
      if F32.geb best_similarity PROFILE_MATCH_THRESHOLD then (Some i, g)
      else create_entry g p heap
  | None => create_entry g p heap
  end.

(** The duration of a qubit as [quantum_ai_profile_register] reads it: the
    64-bit difference narrowed to [uint32_t]. *)
Definition qubit_duration (q : QARMA_QUBIT) : Z := u32 (qb_end_time q - qb_start_time q).

Fixpoint sum_durations (qs : list QARMA_QUBIT) (total_time completed : Z) : Z * Z :=
  match qs with
  | [] => (total_time, completed)
  | q :: rest =>
      if status_eqb (qb_status q) QUBIT_STATUS_COMPLETED
      then sum_durations rest (u32 (total_time + qubit_duration q)) (u32 (completed + 1))
      else sum_durations rest total_time completed
  end.

Fixpoint sum_variance (qs : list QARMA_QUBIT) (avg variance_sum : Z) : Z :=
  match qs with
  | [] => variance_sum
  | q :: rest =>
      if status_eqb (qb_status q) QUBIT_STATUS_COMPLETED
      then
        let diff := s32 (qubit_duration q) - s32 avg in
        sum_variance rest avg (u32 (variance_sum + diff * diff))
      else sum_variance rest avg variance_sum
  end.

Definition quantum_ai_profile_register (r : QARMA_QUANTUM_REGISTER)
    : quantum_workload_profile_t :=
  let '(total_time, completed) := sum_durations (reg_qubits r) 0 0 in
  let has_eval := negb (fn_absent (reg_evaluate r)) in
  if completed >? 0 then
    let avg := total_time / completed in
    mkProfile (reg_count r) avg (sum_variance (reg_qubits r) avg 0 / completed)
              has_eval (reg_wait_for_all r) 0
  else
    mkProfile (reg_count r) 0 0 has_eval (reg_wait_for_all r) 0.

(** The confidence ramp of [quantum_ai_observe_complete], as a function of the
    observation count just incremented. *)
Definition confidence_of (observation_count : Z) : F32.t :=
  if observation_count >=? 10
  then F32.sub F32.one (F32.div F32.one (F32.of_Z observation_count))
  else F32.div (F32.of_Z observation_count) (F32.of_Z 10).

Definition update_metrics (collapsed : bool) (elapsed_ms : Z) (quality : F32.t)
    (now : Z) (mt : strategy_metrics_t) : strategy_metrics_t :=
  let alpha := F32.lit 3 10 in
  mkMetrics (u32 (total_uses mt + 1))
            (if collapsed then u32 (success_count mt + 1) else success_count mt)
            (u32 (total_time mt + elapsed_ms))
            (F32.add (F32.mul (avg_quality mt) (F32.sub F32.one alpha))
                     (F32.mul quality alpha))
            now.

(** What [quantum_ai_observe_complete] does to the entry it found or created. *)
Definition observe_entry (r : QARMA_QUANTUM_REGISTER) (elapsed_ms : Z) (quality : F32.t)
    (now : Z) (e : quantum_learning_entry_t) : quantum_learning_entry_t :=
  let metrics' :=
    if strategy_to_Z (reg_strategy r) <? strategy_to_Z COLLAPSE_STRATEGY_COUNT
    then alter (update_metrics (reg_collapsed r) elapsed_ms quality now)
               (Z.to_nat (strategy_to_Z (reg_strategy r))) (metrics e)
    else metrics e in
  let n := u32 (observation_count e + 1) in
  mkEntry (profile e) metrics' n (confidence_of n).

(** [quantum_ai_observe_complete]: the observer after the call, and the index
    of the entry the call updated ([None] when it returned before updating). *)
Definition quantum_ai_observe_complete (g : quantum_ai_observer_t)
    (r : QARMA_QUANTUM_REGISTER) (elapsed_ms : Z) (quality : F32.t) (heap : ptr)
    : quantum_ai_observer_t * option nat :=
  if negb (enabled g) then (g, None)
  else
    let p := quantum_ai_profile_register r in
    match find_or_create_entry g p heap with
    | (None, g1) => (g1, None)
    | (Some i, g1) =>
        (mkObserver (alter (observe_entry r elapsed_ms quality (total_observations g1)) i
                           (learning_db g1))
                    (db_size g1) (db_capacity g1) (enabled g1)
                    (u32 (total_observations g1 + 1)),
         Some i)
    end.

Definition strategy_score (mt : strategy_metrics_t) : F32.t :=
  let success_rate := F32.div (F32.of_Z (success_count mt)) (F32.of_Z (total_uses mt)) in
  let avg_time := F32.div (F32.of_Z (total_time mt)) (F32.of_Z (total_uses mt)) in
  F32.div (F32.mul (avg_quality mt) success_rate) (F32.add avg_time F32.one).

(** The scan of [quantum_ai_recommend_strategy] over the metrics of an entry. *)
Fixpoint best_strategy_from (ms : list strategy_metrics_t) (i : Z)
    (best_strategy : QARMA_COLLAPSE_STRATEGY) (best_score : F32.t)
    : QARMA_COLLAPSE_STRATEGY :=
  match ms with
  | [] => best_strategy
  | mt :: rest =>
      if total_uses mt =? 0 then best_strategy_from rest (i + 1) best_strategy best_score
      else if F32.gtb (strategy_score mt) best_score
      then best_strategy_from rest (i + 1) (strategy_of_Z i) (strategy_score mt)
      else best_strategy_from rest (i + 1) best_strategy best_score
  end.

Definition heuristic_strategy (p : quantum_workload_profile_t) : QARMA_COLLAPSE_STRATEGY :=
  if has_evaluation p then COLLAPSE_BEST
  else if requires_all p then COLLAPSE_COMBINE
  else if variance p <? 100 then COLLAPSE_FIRST_WINS
  else COLLAPSE_VALIDATE.

Definition quantum_ai_recommend_strategy (g : quantum_ai_observer_t)
    (p : quantum_workload_profile_t) : QARMA_COLLAPSE_STRATEGY :=
  if negb (enabled g) then COLLAPSE_FIRST_WINS
  else
    let '(best_match, best_similarity) :=
      best_match_from p (learning_db g) 0 None F32.zero in
    match best_match with
    | None => heuristic_strategy p
    | Some i =>
        match learning_db g !! i with
        | None => heuristic_strategy p
        | Some e =>
            if F32.ltb best_similarity PROFILE_MATCH_THRESHOLD
               || F32.ltb (confidence e) (F32.lit 5 10)
            then heuristic_strategy p
            else best_strategy_from (firstn 13 (metrics e)) 0 COLLAPSE_FIRST_WINS F32.zero
        end
    end.

End Observer.

(** ** The adaptive controller *)

Module Adaptive.
Import Mach Reg Observer.

Definition DEFAULT_THRESHOLDS : quantum_adaptive_thresholds_t :=
  mkThresholds 5000 (F32.lit 3 10) (F32.lit 5 10) 100.

(** [quantum_adaptive_init]; [heap] is what [heap_alloc] returns when the
    register has no adaptive state yet. *)
Definition quantum_adaptive_init (r : QARMA_QUANTUM_REGISTER)
    (pol : quantum_adaptive_policy_t) (heap : ptr) : QARMA_QUANTUM_REGISTER :=
  if fn_absent (reg_adaptive_state r) && is_null heap then r
  else
    set_reg_adaptive_state
      (Some (mkAdaptive pol DEFAULT_THRESHOLDS 0 0 0 (reg_strategy r) (reg_strategy r)
                        false 0 0 F32.one)) r.

Definition quantum_adaptive_set_thresholds (r : QARMA_QUANTUM_REGISTER)
    (th : quantum_adaptive_thresholds_t) : QARMA_QUANTUM_REGISTER :=
  match reg_adaptive_state r with
  | None => r
  | Some st =>
      set_reg_adaptive_state
        (Some (mkAdaptive (policy st) th (execution_start_time st) (last_check_time st)
                          (switch_count st) (original_strategy st) (current_strategy st)
                          (has_switched st) (completed_at_last_check st)
                          (failed_at_last_check st) (current_quality st))) r
  end.

Definition quantum_adaptive_reset (r : QARMA_QUANTUM_REGISTER) : QARMA_QUANTUM_REGISTER :=
  match reg_adaptive_state r with
  | None => r
  | Some st =>
      set_reg_strategy (original_strategy st)
        (set_reg_adaptive_state
           (Some (mkAdaptive (policy st) (thresholds st) 0 0 0 (original_strategy st)
                             (original_strategy st) false 0 0 F32.one)) r)
  end.

Definition choose_alternative_strategy (g : quantum_ai_observer_t)
    (r : QARMA_QUANTUM_REGISTER) (st : quantum_adaptive_state_t) : QARMA_COLLAPSE_STRATEGY :=
  let recommended := quantum_ai_recommend_strategy g (quantum_ai_profile_register r) in
  if strategy_eqb recommended (current_strategy st)
  then strategy_of_Z ((strategy_to_Z (current_strategy st) + 1)
                      mod (strategy_to_Z COLLAPSE_STRATEGY_COUNT - 1))
  else recommended.

(** The simulated clock of [quantum_adaptive_check]. *)
Definition current_time_of (st : quantum_adaptive_state_t) : Z :=
  u32 (execution_start_time st + 100).

(** Has a check interval elapsed since the last check? *)
Definition check_due (st : quantum_adaptive_state_t) : bool :=
  negb (u32 (current_time_of st - last_check_time st) <? check_interval_ms (thresholds st)).

(** The policy conditions: the value [should_switch] holds after the [switch]. *)
Definition policy_fires (r : QARMA_QUANTUM_REGISTER) (st : quantum_adaptive_state_t) : bool :=
  let total_completed := reg_completed_count r in
  let total_failed := reg_failed_count r in
  let total_qubits := reg_count r in
  let elapsed := u32 (current_time_of st - execution_start_time st) in
  let completion_rate := F32.div (F32.of_Z total_completed) (F32.of_Z total_qubits) in
  let failure_rate :=
    if u32 (total_completed + total_failed) >? 0
    then F32.div (F32.of_Z total_failed) (F32.of_Z (u32 (total_completed + total_failed)))
    else F32.zero in
  match policy st with
  | ADAPTIVE_POLICY_NONE => false
  | ADAPTIVE_POLICY_TIMEOUT =>
      (elapsed >? timeout_ms (thresholds st)) && F32.ltb completion_rate (F32.lit 5 10)
  | ADAPTIVE_POLICY_FAILURE_RATE =>
      F32.gtb failure_rate (failure_threshold (thresholds st))
  | ADAPTIVE_POLICY_QUALITY =>
      F32.ltb (current_quality st) (quality_threshold (thresholds st))
  | ADAPTIVE_POLICY_AGGRESSIVE =>
      if F32.gtb (F32.of_Z elapsed)
                 (F32.mul (F32.of_Z (timeout_ms (thresholds st))) (F32.lit 5 10))
         && F32.ltb completion_rate (F32.lit 3 10)
      then true
      else F32.gtb failure_rate
                   (F32.mul (failure_threshold (thresholds st)) (F32.lit 7 10))
  end.

Definition policy_is_none (pol : quantum_adaptive_policy_t) : bool :=
  match pol with ADAPTIVE_POLICY_NONE => true | _ => false end.

(** The part of [quantum_adaptive_check] past the early returns: the time of
    the check is recorded, the policy conditions are evaluated, and the switch
    is performed if they hold and no switch was made yet. *)
Definition check_policy (g : quantum_ai_observer_t) (r : QARMA_QUANTUM_REGISTER)
    (st : quantum_adaptive_state_t) : bool * QARMA_QUANTUM_REGISTER :=
  let st1 :=
    mkAdaptive (policy st) (thresholds st) (execution_start_time st)
               (current_time_of st) (switch_count st) (original_strategy st)
               (current_strategy st) (has_switched st)
               (completed_at_last_check st) (failed_at_last_check st)
               (current_quality st) in
  if policy_fires r st1 && negb (has_switched st1) then
    let new_strategy := choose_alternative_strategy g r st1 in
    (true,
     set_reg_adaptive_state
       (Some (mkAdaptive (policy st1) (thresholds st1)
                         (execution_start_time st1) (last_check_time st1)
                         (u32 (switch_count st1 + 1)) (original_strategy st1)
                         new_strategy true
                         (completed_at_last_check st1)
                         (failed_at_last_check st1) (current_quality st1)))
       (set_reg_strategy new_strategy r))
  else
    (false,
     set_reg_adaptive_state
       (Some (mkAdaptive (policy st1) (thresholds st1)
                         (execution_start_time st1) (last_check_time st1)
                         (switch_count st1) (original_strategy st1)
                         (current_strategy st1) (has_switched st1)
                         (reg_completed_count r) (reg_failed_count r)
                         (current_quality st1))) r).

(** [quantum_adaptive_check], with the AI observer [g] it consults. *)
Definition quantum_adaptive_check (g : quantum_ai_observer_t) (r : QARMA_QUANTUM_REGISTER)
    : bool * QARMA_QUANTUM_REGISTER :=
  match reg_adaptive_state r with
  | None => (false, r)
  | Some st =>
      if negb (reg_executing r) then (false, r)
      else if policy_is_none (policy st) then (false, r)
      else if negb (check_due st) then (false, r)
      else check_policy g r st
  end.

(** What a running execution changes between two checks: the counters and
    the qubits. *)
Record progress := mkProgress {
  pg_completed : Z;
  pg_failed : Z;
  pg_qubits : list QARMA_QUBIT
}.

Definition at_progress (pg : progress) (r : QARMA_QUANTUM_REGISTER) : QARMA_QUANTUM_REGISTER :=
  set_reg_qubits (pg_qubits pg)
    (set_reg_failed_count (pg_failed pg) (set_reg_completed_count (pg_completed pg) r)).

(** One execution as the controller sees it: a check at each of the given
    points of progress. The register after the last check, and what each check
    returned. *)
Fixpoint run_checks (g : quantum_ai_observer_t) (points : list progress)
    (r : QARMA_QUANTUM_REGISTER) : QARMA_QUANTUM_REGISTER * list bool :=
  match points with
  | [] => (r, [])
  | pg :: rest =>
      let '(b, r1) := quantum_adaptive_check g (at_progress pg r) in
      let '(r2, bs) := run_checks g rest r1 in
      (r2, b :: bs)
  end.

(** The check gets as far as the policy conditions: the register is executing,
    has an adaptive state with a policy, and a check interval has elapsed. *)
Definition check_decides (r : QARMA_QUANTUM_REGISTER) : bool :=
  match reg_adaptive_state r with
  | Some st =>
      reg_executing r && negb (policy_is_none (policy st)) && check_due st
  | None => false
  end.

(** The trigger condition of the policy holds at this check. *)
Definition trigger_fires (r : QARMA_QUANTUM_REGISTER) : bool :=
  match reg_adaptive_state r with
  | Some st => policy_fires r st
  | None => false
  end.

(** The trigger condition holds at every check of the run that decides... *)
Fixpoint fires_at_every_check (g : quantum_ai_observer_t) (points : list progress)
    (r : QARMA_QUANTUM_REGISTER) : bool :=
  match points with
  | [] => true
  | pg :: rest =>
      implb (check_decides (at_progress pg r)) (trigger_fires (at_progress pg r))
      && fires_at_every_check g rest (snd (quantum_adaptive_check g (at_progress pg r)))
  end.

(** ... and some check of the run does decide. *)
Fixpoint some_check_decides (g : quantum_ai_observer_t) (points : list progress)
    (r : QARMA_QUANTUM_REGISTER) : bool :=
  match points with
  | [] => false
  | pg :: rest =>
      check_decides (at_progress pg r)
      || some_check_decides g rest (snd (quantum_adaptive_check g (at_progress pg r)))
  end.

Definition count_true (bs : list bool) : Z :=
  Z.of_nat (length (List.filter (fun b => b) bs)).

(** The adaptive state as [quantum_adaptive_init] and [quantum_adaptive_reset]
    leave it: no switch recorded. *)
Definition no_switch_yet (r : QARMA_QUANTUM_REGISTER) : Prop :=
  exists st, reg_adaptive_state r = Some st /\ has_switched st = false /\ switch_count st = 0.

(** The invariant of the adaptive state: the switch counter is 1 once a switch
    has been made and 0 before. *)
Definition switched_once (st : quantum_adaptive_state_t) : Prop :=
  (has_switched st = false /\ switch_count st = 0) \/
  (has_switched st = true /\ switch_count st = 1).

End Adaptive.

(** ** Sequences of public register operations *)

Module Api.
Import Mach Reg.

(** A call of the public interface, with what the allocator answers during it. *)
Inductive op :=
  | OpInit (index : Z) (function : option qubit_fn) (data : ptr) (result_size : Z) (heap : ptr)
  | OpSetEnabled (index : Z) (enabled : bool)
  | OpExecute (ctx_alloc : nat -> ptr)
  | OpCollapse (h : collapse_heap).

Definition machine : Type := QARMA_QUANTUM_REGISTER * mem.

(** The state after the call, and the status stores logged inside it (only
    [qarma_quantum_execute] stores more than once to one qubit). *)
Definition step (o : op) (s : machine) : machine * list (nat * QARMA_QUBIT_STATUS) :=
  let '(r, m) := s in
  match o with
  | OpInit index function data result_size heap =>
      let '(_, r', m') := qarma_qubit_init r index function data result_size heap m in
      ((r', m'), [])
  | OpSetEnabled index enabled => ((qarma_qubit_set_enabled r index enabled, m), [])
  | OpExecute ctx_alloc =>
      let e := qarma_quantum_execute ctx_alloc r m in
      ((ex_reg e, ex_mem e), ex_writes e)
  | OpCollapse h =>
      let '(_, r', m') := qarma_quantum_collapse h r m in
      ((r', m'), [])
  end.

Fixpoint run (ops : list op) (s : machine) : machine :=
  match ops with
  | [] => s
  | o :: rest => run rest (fst (step o s))
  end.

Definition statuses (s : machine) : list QARMA_QUBIT_STATUS :=
  List.map qb_status (reg_qubits (fst s)).

Definition writes_to (i : nat) (w : list (nat * QARMA_QUBIT_STATUS))
    : list QARMA_QUBIT_STATUS :=
  List.map snd (List.filter (fun x => Nat.eqb (fst x) i) w).

(** The statuses qubit [i] goes through during the call: the one it had before,
    every store to it inside the call, and the one it has after. *)
Definition qubit_path (o : op) (s : machine) (i : nat) : list QARMA_QUBIT_STATUS :=
  let '(s', w) := step o s in
  nth i (statuses s) QUBIT_STATUS_PENDING
    :: writes_to i w ++ [nth i (statuses s') QUBIT_STATUS_PENDING].

(** One step of the lifecycle Pending -> Running -> Completed,
    Pending -> Failed, Pending -> Skipped: the status stays as it is, or takes
    one of these four arrows. Nothing else counts as forward: not
    Pending -> Completed, not Running -> Failed, and no arrow leaves
    Completed, Failed or Skipped. *)
Definition status_forward (a b : QARMA_QUBIT_STATUS) : bool :=
  match a, b with
  | QUBIT_STATUS_PENDING,
    (QUBIT_STATUS_PENDING | QUBIT_STATUS_RUNNING | QUBIT_STATUS_FAILED
     | QUBIT_STATUS_SKIPPED) => true
  | QUBIT_STATUS_RUNNING, (QUBIT_STATUS_RUNNING | QUBIT_STATUS_COMPLETED) => true
  | QUBIT_STATUS_COMPLETED, QUBIT_STATUS_COMPLETED => true
  | QUBIT_STATUS_FAILED, QUBIT_STATUS_FAILED => true
  | QUBIT_STATUS_SKIPPED, QUBIT_STATUS_SKIPPED => true
  | _, _ => false
  end.

Fixpoint forward_path (p : list QARMA_QUBIT_STATUS) : bool :=
  match p with
  | a :: (b :: _) as rest => status_forward a b && forward_path rest
  | _ => true
  end.

(** During the call every qubit follows the lifecycle step by step. *)
Definition step_forward (o : op) (s : machine) : bool :=
  forallb (fun i => forward_path (qubit_path o s i)) (seq 0 (length (reg_qubits (fst s)))).

(** During the whole sequence every qubit follows the lifecycle step by step. *)
Fixpoint run_forward (ops : list op) (s : machine) : bool :=
  match ops with
  | [] => true
  | o :: rest => step_forward o s && run_forward rest (fst (step o s))
  end.

Definition status_is (r : QARMA_QUANTUM_REGISTER) (index : Z)
    (allowed : QARMA_QUBIT_STATUS -> bool) : bool :=
  match reg_qubits r !! Z.to_nat index with
  | Some q => allowed (qb_status q)
  | None => true
  end.

Definition pending_or_skipped (s : QARMA_QUBIT_STATUS) : bool :=
  status_eqb s QUBIT_STATUS_PENDING || status_eqb s QUBIT_STATUS_SKIPPED.

(** The calls that respect the lifecycle: [qarma_qubit_init] on a qubit still
    Pending, [qarma_qubit_set_enabled(false)] on a qubit Pending or Skipped,
    [qarma_quantum_execute] while every enabled qubit is Pending and every
    disabled one Pending or Skipped. *)
Definition op_in_order (o : op) (s : machine) : bool :=
  let r := fst s in
  match o with
  | OpInit index _ _ _ _ => status_is r index (fun st => status_eqb st QUBIT_STATUS_PENDING)
  | OpSetEnabled index false => status_is r index pending_or_skipped
  | OpSetEnabled _ true => true
  | OpExecute _ =>
      forallb (fun q => if qb_enabled q then status_eqb (qb_status q) QUBIT_STATUS_PENDING
                        else pending_or_skipped (qb_status q)) (reg_qubits r)
  | OpCollapse _ => true
  end.

Fixpoint run_in_order (ops : list op) (s : machine) : bool :=
  match ops with
  | [] => true
  | o :: rest => op_in_order o s && run_in_order rest (fst (step o s))
  end.

End Api.

(** ** Concrete registers and memories used to exercise the model *)

Module Samples.
Import Mach Reg Api.

Definition mem0 : mem := fun _ => 0.

(** A qubit function that stores 42 in the first byte of its data. *)
Definition store42 : qubit_fn := fun d m => store_byte m d 42.

Definition always (p : ptr) : nat -> ptr := fun _ => p.

(** A register of [n] qubits as [qarma_quantum_register_create] returns it. *)
Definition fresh (n : Z) : QARMA_QUANTUM_REGISTER :=
  match qarma_quantum_register_create n 4096 8192 with
  | Some r => r
  | None => mkReg [] 0 0 COLLAPSE_FIRST_WINS None None None None None None
                  NULL 0 false 0 0 true 0 0 false 0 None 0
  end.

(** One qubit, initialised with [store42] on the data at address 256, not yet
    executed. *)
Definition one_pending : QARMA_QUANTUM_REGISTER :=
  snd (fst (qarma_qubit_init (fresh 1) 0 (Some store42) 256 0 NULL mem0)).

(** One call of each kind, in lifecycle order, on a register of two qubits:
    qubit 0 is initialised, qubit 1 disabled, then the register is executed
    and collapsed. *)
Definition lifecycle_ops : list op :=
  [ OpInit 0 (Some store42) 256 0 NULL; OpSetEnabled 1 false;
    OpExecute (always 4096); OpCollapse (mkCollapseHeap 4096 8192 12288) ].

(** Qubit 0 of a one-qubit register is initialised and executed ... *)
Definition init_then_execute : list op :=
  [ OpInit 0 (Some store42) 256 0 NULL; OpExecute (always 4096) ].

(** ... and then initialised again, disabled, or executed again. *)
Definition then_init_again : list op :=
  init_then_execute ++ [ OpInit 0 (Some store42) 256 0 NULL ].
Definition then_disable : list op := init_then_execute ++ [ OpSetEnabled 0 false ].
Definition then_execute_again : list op := init_then_execute ++ [ OpExecute (always 4096) ].

(** Two qubits, the first initialised with [store42], the second left disabled. *)
Definition one_of_two : QARMA_QUANTUM_REGISTER :=
  snd (fst (qarma_qubit_init (fresh 2) 0 (Some store42) 256 0 NULL mem0)).

(** One qubit whose initialisation asked for a 4-byte result buffer that the
    allocator refused. *)
Definition one_refused : QARMA_QUANTUM_REGISTER :=
  snd (fst (qarma_qubit_init (fresh 1) 0 (Some store42) 256 4 NULL mem0)).

(** Three 4-byte results at 256, 272 and 288: all equal to 30, and with the
    last one corrupted to 31. *)
Definition mem_agree : mem :=
  store_bytes (store_bytes (store_bytes mem0 256 [30; 0; 0; 0]) 272 [30; 0; 0; 0])
              288 [30; 0; 0; 0].
Definition mem_differ : mem := store_byte mem_agree 288 31.

(** [one_pending] with a 4-byte collapse result, executed; and the answers of
    an allocator that never refuses. *)
Definition executed_one : exec_result :=
  qarma_quantum_execute (always 4096) (set_reg_result_size 4 one_pending) mem0.
Definition heap_ok : collapse_heap := mkCollapseHeap 4096 8192 12288.
Definition heap_refuses : collapse_heap := mkCollapseHeap NULL NULL NULL.

(** One qubit initialised with a 4-byte result buffer at 12288, then executed;
    and the scheduler after it has predicted that register, seen it run, and
    learnt from the run. *)
Definition one_with_buffer : QARMA_QUANTUM_REGISTER :=
  snd (fst (qarma_qubit_init (fresh 1) 0 (Some store42) 256 4 12288 mem0)).
Definition one_with_buffer_run : QARMA_QUANTUM_REGISTER :=
  ex_reg (qarma_quantum_execute (always 4096) one_with_buffer mem0).
Definition scheduler_after_learning : Sched.quantum_scheduler_t :=
  Sched.quantum_scheduler_learn
    (Sched.quantum_scheduler_predict Sched.g_scheduler one_with_buffer 16384)
    one_with_buffer_run.

(** A scheduler that has learnt that size 4 takes 7 ms. *)
Definition scheduler_knows_4 : Sched.quantum_scheduler_t :=
  Sched.mkScheduler Sched.SCHEDULE_AI_PREDICTED None 0
                    (Sched.mkPattern 4 7 1 :: repeat (Sched.mkPattern 0 0 0) 31)
                    1 0 0 F32.zero.

(** The AI observer after [n] observations of the same executed register, each
    with elapsed time 1 ms and quality 1.0, as the examples report them. *)
Definition observed (n : nat) : Observer.quantum_ai_observer_t :=
  Nat.iter n
    (fun g => fst (Observer.quantum_ai_observe_complete g one_with_buffer_run 1 F32.one 20480))
    Observer.quantum_ai_init.

(** Eight qubits under the failure-rate policy, executing; and the progress of
    a run in which three of every four finished qubits fail. *)
Definition adaptive_reg : QARMA_QUANTUM_REGISTER :=
  set_reg_executing true
    (Adaptive.quantum_adaptive_init (fresh 8) ADAPTIVE_POLICY_FAILURE_RATE 24576).
(** The same with a zero check interval: every check is due. *)
Definition adaptive_reg_eager : QARMA_QUANTUM_REGISTER :=
  Adaptive.quantum_adaptive_set_thresholds adaptive_reg
    (mkThresholds 5000 (F32.lit 3 10) (F32.lit 5 10) 0).
Definition failing_run : list Adaptive.progress :=
  [ Adaptive.mkProgress 1 3 (reg_qubits (fresh 8));
    Adaptive.mkProgress 1 5 (reg_qubits (fresh 8));
    Adaptive.mkProgress 2 6 (reg_qubits (fresh 8)) ].

End Samples.

(** ** The rest of the register interface *)

Module RegConfig.
Import Mach Reg.

(** The store to [reg->ensemble]. *)
Definition set_reg_ensemble (c : option QARMA_ENSEMBLE_CONFIG) (r : QARMA_QUANTUM_REGISTER) :=
  mkReg (reg_qubits r) (reg_count r) (reg_capacity r) (reg_strategy r) (reg_custom_collapse r)
        (reg_evaluate r) (reg_combine r) (reg_multidim r) (reg_temporal r) c
        (reg_collapse_output r) (reg_result_size r) (reg_collapsed r) (reg_completed_count r)
        (reg_failed_count r) (reg_wait_for_all r) (reg_total_execution_time r)
        (reg_collapse_time r) (reg_executing r) (reg_lock r) (reg_adaptive_state r)
        (reg_dispatched_count r).

(** The qubits of [qs], the first of which has index [i], that an execute
    counts as completed or failed: enabled, and either refused a context or
    run by the wrapper, which returns at once on a qubit without function. *)
Fixpoint count_finished (ctx_alloc : nat -> ptr) (i : nat) (qs : list QARMA_QUBIT) : Z :=
  match qs with
  | [] => 0
  | q :: rest =>
      (if qb_enabled q && (is_null (ctx_alloc i) || negb (fn_absent (qb_function q)))
       then 1 else 0)
      + count_finished ctx_alloc (S i) rest
  end.

(** [qarma_quantum_get_qubit_result] *)
Definition qarma_quantum_get_qubit_result (r : QARMA_QUANTUM_REGISTER) (index : Z) : ptr :=
  if index >=? reg_count r then NULL
  else
    match reg_qubits r !! Z.to_nat index with
    | Some qubit =>
        if negb (status_eqb (qb_status qubit) QUBIT_STATUS_COMPLETED) then NULL
        else qb_result qubit
    | None => NULL
    end.

(** [qarma_quantum_set_temporal]; the three pointers are what [heap_alloc]
    returns for the history structure, the score array and the timestamp array,
    each asked for only when it is missing. The score array is asked for, and
    zeroed, as [window_size * sizeof(int)] bytes, with [sizeof(int) = 4]. *)
Definition qarma_quantum_set_temporal (r : QARMA_QUANTUM_REGISTER)
    (window_size trend_weight : Z) (heap_struct heap_scores heap_stamps : ptr)
    : QARMA_QUANTUM_REGISTER :=
  let existing :=
    match reg_temporal r with
    | Some h => Some h
    | None => if is_null heap_struct then None else Some (mkTemporal NULL None 0 0 0)
    end in
  match existing with
  | None => r
  | Some h =>
      let scores :=
        match th_quality_history h with
        | Some qh => Some qh
        | None =>
            if (window_size >? 0) && negb (is_null heap_scores)
            then Some (repeat 0 (Z.to_nat (alloc_slots 4 window_size)))
            else None
        end in
      let stamps :=
        if is_null (th_timestamps h) && (window_size >? 0) then heap_stamps
        else th_timestamps h in
      set_reg_temporal
        (Some (mkTemporal stamps scores (th_history_size h) window_size trend_weight)) r
  end.

(** The slots of [qarma_quantum_set_ensemble]: a pair is recorded when the
    strategy is an enumerator below [COLLAPSE_STRATEGY_COUNT] and the weight is
    positive. *)
Definition ensemble_slot (strategy : QARMA_COLLAPSE_STRATEGY) (weight : Z)
    (cfg : QARMA_ENSEMBLE_CONFIG) : QARMA_ENSEMBLE_CONFIG :=
  if (strategy_to_Z strategy <? strategy_to_Z COLLAPSE_STRATEGY_COUNT) && (weight >? 0) then
    mkEnsemble (<[Z.to_nat (ens_num_strategies cfg) := strategy]> (ens_strategies cfg))
               (<[Z.to_nat (ens_num_strategies cfg) := weight]> (ens_weights cfg))
               (u32 (ens_num_strategies cfg + 1))
  else cfg.

(** [qarma_quantum_set_ensemble]; [heap] is what [heap_alloc] returns when the
    register has no ensemble configuration yet. *)
Definition qarma_quantum_set_ensemble (r : QARMA_QUANTUM_REGISTER)
    (strategy1 : QARMA_COLLAPSE_STRATEGY) (weight1 : Z)
    (strategy2 : QARMA_COLLAPSE_STRATEGY) (weight2 : Z)
    (strategy3 : QARMA_COLLAPSE_STRATEGY) (weight3 : Z) (heap : ptr)
    : QARMA_QUANTUM_REGISTER :=
  let existing :=
    match reg_ensemble r with
    | Some cfg => Some cfg
    | None =>
        if is_null heap then None
        else Some (mkEnsemble (repeat COLLAPSE_FIRST_WINS 3) (repeat 0 3) 0)
    end in
  match existing with
  | None => r
  | Some cfg =>
      let cfg0 := mkEnsemble (ens_strategies cfg) (ens_weights cfg) 0 in
      set_reg_ensemble
        (Some (ensemble_slot strategy3 weight3
                 (ensemble_slot strategy2 weight2
                    (ensemble_slot strategy1 weight1 cfg0)))) r
  end.

(** [qarma_quantum_stats_t] *)
Record qarma_quantum_stats_t := mkStats {
  total_qubits : Z;
  enabled_qubits : Z;
  completed_qubits : Z;
  failed_qubits : Z;
  total_execution_time : Z;
  collapse_time : Z;
  avg_qubit_time : Z
}.

(** [qarma_quantum_get_stats]: the structure it fills in. *)
Definition qarma_quantum_get_stats (r : QARMA_QUANTUM_REGISTER) : qarma_quantum_stats_t :=
  let time_hi := u32 (reg_total_execution_time r / 2 ^ 32) in
  let time_lo := u32 (reg_total_execution_time r) in
  mkStats (reg_count r) (u32 (count_enabled (reg_qubits r)))
          (reg_completed_count r) (reg_failed_count r)
          (reg_total_execution_time r) (reg_collapse_time r)
          (if reg_completed_count r >? 0 then
             if time_hi =? 0 then time_lo / reg_completed_count r else 4294967295
           else 0).

End RegConfig.

(** ** Vocabulary for the selection rules of the collapse library *)

Module Select.
Import Mach Reg.

(** [b] is the index of a maximal element of [scores], and the first such. *)
Definition first_max (scores : list Z) (b : nat) : Prop :=
  exists v, scores !! b = Some v /\
    (forall j x, scores !! j = Some x -> x <= v) /\
    (forall j x, (j < b)%nat -> scores !! j = Some x -> x < v).

(** The scores an evaluator gives the results, as a collapse reads them. *)
Definition scores_of (ev : qarma_evaluate_func_t) (results : list ptr) (m : mem) : list Z :=
  List.map (fun p => ev p m) results.

(** The pseudo-random draw of [qarma_collapse_fuzzy], seeded by the first score. *)
Definition fuzzy_draw (first_score : Z) : Z :=
  (u32 (u32 first_score * 1103515245 + 12345) / 65536) mod 100.

(** The pairs [qarma_quantum_set_ensemble] records, in order. *)
Definition valid_pairs (pairs : list (QARMA_COLLAPSE_STRATEGY * Z))
    : list (QARMA_COLLAPSE_STRATEGY * Z) :=
  List.filter (fun p => (strategy_to_Z (fst p) <? strategy_to_Z COLLAPSE_STRATEGY_COUNT)
                        && (snd p >? 0)) pairs.

End Select.

(** ** Sample inputs for the selection rules *)

Module SelectSamples.
Import Mach Reg RegConfig Samples.

(** Three results at 256, 272 and 288 whose first bytes are 10, 30 and 30, and
    an evaluator that scores a result by its first byte. *)
Definition three_results : list ptr := [256; 272; 288].
Definition mem_scores : mem :=
  store_byte (store_byte (store_byte mem0 256 10) 272 30) 288 30.
Definition first_byte : qarma_evaluate_func_t := fun p m => m p.

(** A register set up for the Best strategy with a 4-byte output buffer at 512. *)
Definition best_reg : QARMA_QUANTUM_REGISTER :=
  set_reg_result_size 4
    (set_reg_collapse_output 512
       (set_reg_evaluate (Some first_byte) (set_reg_strategy COLLAPSE_BEST (fresh 3)))).

(** Quality is the first byte, weighted 2; speed and resource are not scored. *)
Definition quality_only : QARMA_MULTIDIM_CRITERIA :=
  mkMultidim (Some first_byte) None None 2 0 0.

(** A history of four slots in which nothing is recorded yet. *)
Definition empty_history : QARMA_TEMPORAL_HISTORY :=
  mkTemporal 20480 (Some [0; 0; 0; 0]) 0 4 50.

(** A register whose ensemble holds the single strategy Best with weight 5. *)
Definition ensemble_of_best : QARMA_ENSEMBLE_CONFIG :=
  mkEnsemble [COLLAPSE_BEST; COLLAPSE_FIRST_WINS; COLLAPSE_FIRST_WINS] [5; 0; 0] 1.
Definition ensemble_reg : QARMA_QUANTUM_REGISTER :=
  set_reg_ensemble (Some ensemble_of_best) best_reg.

End SelectSamples.

(** ** The execution order of the scheduler (quantum_scheduler.c) *)

Module SchedOrder.
Import Mach Reg Sched.

(** What [quantum_scheduler_get_order] hands back: NULL with [*order_size = 0];
    NULL with [*order_size] already set to the qubit count, when [heap_alloc]
    refused the array; the array with its size; or nothing defined, when the
    sort read past the end of the order array or of the prediction array. *)
Inductive order_result :=
  | NoOrder
  | OrderRefused (order_size : Z)
  | Order (order_size : Z) (order : list Z)
  | OutOfBounds.

(** [g_scheduler.predictions[idx].predicted_time_ms] *)
Definition time_of (preds : list qubit_prediction_t) (idx : Z) : option Z :=
  match preds !! Z.to_nat idx with
  | Some p => Some (predicted_time_ms p)
  | None => None
  end.

(** The body of the inner loop at [j]: [order[j]] and [order[j + 1]] are
    exchanged when [swap] holds of their predicted times. *)
Definition compare_swap (swap : Z -> Z -> bool) (preds : list qubit_prediction_t)
    (order : list Z) (j : nat) : option (list Z) :=
  match order !! j, order !! S j with
  | Some idx1, Some idx2 =>
      match time_of preds idx1, time_of preds idx2 with
      | Some t1, Some t2 =>
          Some (if swap t1 t2 then <[S j := idx1]> (<[j := idx2]> order) else order)
      | _, _ => None
      end
  | _, _ => None
  end.

(** [n] more iterations of the inner loop, from [j] on. *)
Fixpoint sort_inner (swap : Z -> Z -> bool) (preds : list qubit_prediction_t)
    (n : nat) (j : nat) (order : list Z) : option (list Z) :=
  match n with
  | O => Some order
  | S n' =>
      match compare_swap swap preds order j with
      | Some order' => sort_inner swap preds n' (S j) order'
      | None => None
      end
  end.

(** [n] more iterations of the outer loop, from [i] on; the inner bound
    [count - i - 1] is computed in [uint32_t]. *)
Fixpoint sort_outer (swap : Z -> Z -> bool) (preds : list qubit_prediction_t)
    (count : Z) (n : nat) (i : nat) (order : list Z) : option (list Z) :=
  match n with
  | O => Some order
  | S n' =>
      match sort_inner swap preds (Z.to_nat (u32 (count - Z.of_nat i - 1))) 0 order with
      | Some order' => sort_outer swap preds count n' (S i) order'
      | None => None
      end
  end.

(** The bubble sort of the order array; the outer bound [count - 1] is computed
    in [uint32_t] as well. *)
Definition bubble_sort (swap : Z -> Z -> bool) (preds : list qubit_prediction_t)
    (count : Z) (order : list Z) : option (list Z) :=
  sort_outer swap preds count (Z.to_nat (u32 (count - 1))) 0 order.

(** The indices [0 .. count - 1] the array is filled with. *)
Definition identity_order (count : Z) : list Z :=
  List.map Z.of_nat (seq 0 (Z.to_nat count)).

Definition sorted_result (count : Z) (sorted : option (list Z)) : order_result :=
  match sorted with
  | Some order => Order count order
  | None => OutOfBounds
  end.

(** [quantum_scheduler_get_order]; [heap] is what [heap_alloc] returns for the
    order array. *)
Definition quantum_scheduler_get_order (g : quantum_scheduler_t)
    (r : QARMA_QUANTUM_REGISTER) (heap : ptr) : order_result :=
  match predictions g with
  | None => NoOrder
  | Some preds =>
      if is_null heap then OrderRefused (reg_count r)
      else
        let order := identity_order (reg_count r) in
        match strategy g with
        | SCHEDULE_LONGEST_FIRST | SCHEDULE_AI_PREDICTED =>
            sorted_result (reg_count r) (bubble_sort Z.ltb preds (reg_count r) order)
        | SCHEDULE_SHORTEST_FIRST =>
            sorted_result (reg_count r) (bubble_sort Z.gtb preds (reg_count r) order)
        | _ => Order (reg_count r) order
        end
  end.

(** The predicted time of the qubit at a position of an order, 0 where there
    is none. *)
Definition time_at (preds : list qubit_prediction_t) (order : list Z) (p : nat) : Z :=
  match order !! p with
  | Some idx => match time_of preds idx with Some t => t | None => 0 end
  | None => 0
  end.

(** Every entry of an order indexes the prediction array. *)
Definition valid_order (preds : list qubit_prediction_t) (order : list Z) : Prop :=
  Forall (fun idx => 0 <= idx /\ (Z.to_nat idx < length preds)%nat) order.

(** After [i] passes of the sort the last [i] entries are settled: the sort
    would exchange none of them with an entry before it. *)
Definition settled (swap : Z -> Z -> bool) (preds : list qubit_prediction_t)
    (order : list Z) (i : nat) : Prop :=
  forall p q, (p < q)%nat -> (q < length order)%nat -> (length order - i <= q)%nat ->
    swap (time_at preds order p) (time_at preds order q) = false.

End SchedOrder.

(** ** Sample inputs for the scheduler *)

Module SchedSamples.
Import Mach Reg Sched SchedOrder Samples.

(** Three qubits with result buffers of 100, 400 and 200 bytes. *)
Definition three_sized : QARMA_QUANTUM_REGISTER :=
  let r0 := fresh 3 in
  let r1 := snd (fst (qarma_qubit_init r0 0 (Some store42) 256 100 12288 mem0)) in
  let r2 := snd (fst (qarma_qubit_init r1 1 (Some store42) 272 400 16384 mem0)) in
  snd (fst (qarma_qubit_init r2 2 (Some store42) 288 200 20480 mem0)).

(** The scheduler after it has predicted [three_sized]. *)
Definition scheduler_predicted : quantum_scheduler_t :=
  quantum_scheduler_predict g_scheduler three_sized 24576.

(** The learning state of [scheduler_knows_4], and a completed qubit with a
    4-byte result that ran from 100 ms to 109 ms. *)
Definition knows_4_state : learn_state :=
  mkLearn (learned_patterns scheduler_knows_4) (pattern_count scheduler_knows_4) 0 F32.zero.
Definition ran_9_ms : QARMA_QUBIT :=
  mkQubit true QUBIT_STATUS_COMPLETED (Some store42) 256 12288 4 100 109 0 0 NULL.
Definition predicted_7_ms : qubit_prediction_t := mkPrediction 0 7 (F32.lit 8 10) 40.

End SchedSamples.

(** ** Runs of the adaptive controller *)

Module AdaptiveRun.
Import Mach Reg Observer Adaptive.

(** How many checks of a run get as far as the policy conditions. *)
Fixpoint count_deciding (g : quantum_ai_observer_t) (points : list progress)
    (r : QARMA_QUANTUM_REGISTER) : nat :=
  match points with
  | [] => O
  | pg :: rest =>
      ((if check_decides (at_progress pg r) then 1 else 0)
       + count_deciding g rest (snd (quantum_adaptive_check g (at_progress pg r))))%nat
  end.

(** [quantum_ai_reset_learning] of the observer the controller consults. *)
Definition quantum_ai_reset_learning (g : quantum_ai_observer_t) : quantum_ai_observer_t :=
  mkObserver [] 0 0 (enabled g) 0.

End AdaptiveRun.

(** ** The message bus between qubits (quantum_cross_learning.c) *)

Module CrossLearning.
Import Mach.

Definition MAX_CROSS_MESSAGES : Z := 64.

Inductive cross_message_type_t :=
  | MSG_PARTIAL_RESULT
  | MSG_BEST_FOUND
  | MSG_HINT
  | MSG_CONVERGENCE
  | MSG_ABORT_BRANCH.

Record cross_message_t := mkMessage {
  msg_type : cross_message_type_t;
  sender_id : Z;
  timestamp : Z;
  msg_data_size : Z;
  msg_data : ptr;
  relevance_score : Z
}.

(** [g_best_solution] *)
Record best_solution_t := mkBest {
  has_solution : bool;
  best_qubit_id : Z;
  quality_score : Z;
  best_data : ptr;
  best_data_size : Z
}.

(** The globals of the file: the queue array with its three indices, the
    [enabled] flag of [g_config], the two counters of [g_stats] the file
    writes, and [g_best_solution]. *)
Record bus := mkBus {
  g_message_queue : list cross_message_t;    (* MAX_CROSS_MESSAGES slots *)
  g_queue_head : Z;
  g_queue_tail : Z;
  g_queue_count : Z;
  config_enabled : bool;
  messages_sent : Z;
  messages_received : Z;
  g_best_solution : best_solution_t
}.

Definition zero_message : cross_message_t := mkMessage MSG_PARTIAL_RESULT 0 0 0 NULL 0.

(** The globals as the program starts (the statics are zeroed, [g_config] is
    initialised to enabled). *)
Definition bus_at_start : bus :=
  mkBus (repeat zero_message 64) 0 0 0 true 0 0 (mkBest false 0 0 NULL 0).

(** [enqueue_message] *)
Definition enqueue_message (b : bus) (msg : cross_message_t) : bool * bus :=
  if g_queue_count b >=? MAX_CROSS_MESSAGES then (false, b)
  else
    (true,
     mkBus (<[Z.to_nat (g_queue_tail b) := msg]> (g_message_queue b))
           (g_queue_head b)
           (u32 (g_queue_tail b + 1) mod MAX_CROSS_MESSAGES)
           (u32 (g_queue_count b + 1))
           (config_enabled b) (messages_sent b) (messages_received b)
           (g_best_solution b)).

(** The removal loop of [dequeue_message]: [n] more slots are moved down by
    one, from offset [j] on. *)
Fixpoint shift_down (queue : list cross_message_t) (head : Z) (j : Z) (n : nat)
    : list cross_message_t :=
  match n with
  | O => queue
  | S n' =>
      let src_idx := u32 (head + j + 1) mod MAX_CROSS_MESSAGES in
      let dst_idx := u32 (head + j) mod MAX_CROSS_MESSAGES in
      shift_down (<[Z.to_nat dst_idx := nth (Z.to_nat src_idx) queue zero_message]> queue)
                 head (j + 1) n'
  end.

(** The search loop of [dequeue_message]: [n] more slots are inspected, the
    next one at offset [i], which is slot [idx]. *)
Fixpoint dequeue_from (b : bus) (qubit_id : Z) (i : Z) (idx : Z) (n : nat)
    : option cross_message_t * bus :=
  match n with
  | O => (None, b)
  | S n' =>
      let msg := nth (Z.to_nat idx) (g_message_queue b) zero_message in
      if negb (sender_id msg =? qubit_id) then
        (Some msg,
         mkBus (shift_down (g_message_queue b) (g_queue_head b) i
                           (Z.to_nat (u32 (g_queue_count b - 1) - i)))
               (g_queue_head b) (g_queue_tail b) (u32 (g_queue_count b - 1))
               (config_enabled b) (messages_sent b) (messages_received b)
               (g_best_solution b))
      else dequeue_from b qubit_id (i + 1) (u32 (idx + 1) mod MAX_CROSS_MESSAGES) n'
  end.

(** [dequeue_message]: the message copied to [out_msg], if any. *)
Definition dequeue_message (b : bus) (qubit_id : Z) : option cross_message_t * bus :=
  if g_queue_count b =? 0 then (None, b)
  else dequeue_from b qubit_id 0 (g_queue_head b) (Z.to_nat (g_queue_count b)).

(** [cross_learning_send_message]; [heap] is what [heap_alloc] returns for the
    copy of the payload. The target id is not used by the function. *)
Definition cross_learning_send_message (b : bus) (sender : Z)
    (type : cross_message_type_t) (data : ptr) (data_size : Z) (target_id : Z)
    (heap : ptr) (m : mem) : bool * bus * mem :=
  if negb (config_enabled b) then (false, b, m)
  else if is_null heap && (data_size >? 0) then (false, b, m)
  else
    let m1 := if data_size >? 0 then memcpy m heap data data_size else m in
    let msg := mkMessage type sender 0 data_size heap 75 in
    match enqueue_message b msg with
    | (true, b1) =>
        (true,
         mkBus (g_message_queue b1) (g_queue_head b1) (g_queue_tail b1) (g_queue_count b1)
               (config_enabled b1) (u32 (messages_sent b1 + 1)) (messages_received b1)
               (g_best_solution b1),
         m1)
    | (false, b1) => (false, b1, m1)
    end.

(** [cross_learning_receive_message] *)
Definition cross_learning_receive_message (b : bus) (qubit_id : Z)
    : option cross_message_t * bus :=
  if negb (config_enabled b) then (None, b)
  else
    match dequeue_message b qubit_id with
    | (Some msg, b1) =>
        (Some msg,
         mkBus (g_message_queue b1) (g_queue_head b1) (g_queue_tail b1) (g_queue_count b1)
               (config_enabled b1) (messages_sent b1) (u32 (messages_received b1 + 1))
               (g_best_solution b1))
    | (None, b1) => (None, b1)
    end.

Definition set_best (s : best_solution_t) (b : bus) : bus :=
  mkBus (g_message_queue b) (g_queue_head b) (g_queue_tail b) (g_queue_count b)
        (config_enabled b) (messages_sent b) (messages_received b) s.

(** [cross_learning_broadcast_best]; [heap_best] is what [heap_alloc] returns
    for the copy kept as the global best, [heap_msg] for the message payload. *)
Definition cross_learning_broadcast_best (b : bus) (sender : Z) (solution_data : ptr)
    (solution_size : Z) (quality : Z) (heap_best heap_msg : ptr) (m : mem)
    : bus * mem :=
  let old := g_best_solution b in
  let '(b1, m1) :=
    if negb (has_solution old) || (quality >? quality_score old) then
      if is_null heap_best then
        (set_best (mkBest (has_solution old) (best_qubit_id old) (quality_score old)
                          NULL (best_data_size old)) b, m)
      else
        (set_best (mkBest true sender quality heap_best solution_size) b,
         memcpy m heap_best solution_data solution_size)
    else (b, m) in
  let '(_, b2, m2) :=
    cross_learning_send_message b1 sender MSG_BEST_FOUND solution_data solution_size
                                (-1) heap_msg m1 in
  (b2, m2).

(** [cross_learning_check_convergence]: the id written to [*best_qubit_id]. *)
Definition cross_learning_check_convergence (b : bus) : option Z :=
  if has_solution (g_best_solution b) then Some (best_qubit_id (g_best_solution b))
  else None.

(** The messages the queue counts as pending, in the order a receiver scans
    them: [g_queue_count] slots from [g_queue_head] on. *)
Definition pending (b : bus) : list cross_message_t :=
  List.map (fun i => nth (Z.to_nat ((g_queue_head b + Z.of_nat i) mod MAX_CROSS_MESSAGES))
                         (g_message_queue b) zero_message)
           (seq 0 (Z.to_nat (g_queue_count b))).

(** No message has been taken since the queue was last empty at start: the
    tail is where the pending messages end. *)
Definition untouched (b : bus) : Prop :=
  length (g_message_queue b) = 64%nat /\
  g_queue_head b = 0 /\ 0 <= g_queue_count b <= 64 /\
  g_queue_tail b = g_queue_count b mod 64.

(** The first pending message a receiver may take, with its position; a
    qubit does not receive its own messages. *)
Fixpoint first_for (qubit_id : Z) (msgs : list cross_message_t) (i : nat)
    : option (nat * cross_message_t) :=
  match msgs with
  | [] => None
  | msg :: rest =>
      if negb (sender_id msg =? qubit_id) then Some (i, msg)
      else first_for qubit_id rest (S i)
  end.

(** One call of [cross_learning_broadcast_best] with the answers of the
    allocator, and a series of such calls. *)
Record broadcast := mkBroadcast {
  bc_sender : Z;
  bc_data : ptr;
  bc_size : Z;
  bc_quality : Z;
  bc_heap_best : ptr;
  bc_heap_msg : ptr
}.

Definition broadcast_step (st : bus * mem) (bc : broadcast) : bus * mem :=
  cross_learning_broadcast_best (fst st) (bc_sender bc) (bc_data bc) (bc_size bc)
                                (bc_quality bc) (bc_heap_best bc) (bc_heap_msg bc) (snd st).

Definition run_broadcasts (bcs : list broadcast) (b : bus) (m : mem) : bus * mem :=
  fold_left broadcast_step bcs (b, m).

End CrossLearning.

(** ** Sample inputs for the controller, the observer and the bus *)

Module RunSamples.
Import Mach Reg Observer Adaptive AdaptiveRun CrossLearning Samples.

(** The adaptive state of [adaptive_reg_eager] and of [adaptive_reg], and the
    first point of [failing_run] on the eager register. *)
Definition eager_state : quantum_adaptive_state_t :=
  mkAdaptive ADAPTIVE_POLICY_FAILURE_RATE (mkThresholds 5000 (F32.lit 3 10) (F32.lit 5 10) 0)
             0 0 0 COLLAPSE_FIRST_WINS COLLAPSE_FIRST_WINS false 0 0 F32.one.
Definition default_state : quantum_adaptive_state_t :=
  mkAdaptive ADAPTIVE_POLICY_FAILURE_RATE DEFAULT_THRESHOLDS
             0 0 0 COLLAPSE_FIRST_WINS COLLAPSE_FIRST_WINS false 0 0 F32.one.
Definition first_failing_check : QARMA_QUANTUM_REGISTER :=
  at_progress (mkProgress 1 3 (reg_qubits (fresh 8))) adaptive_reg_eager.

(** [one_of_two] with its second qubit enabled but never initialised: it has
    no function. *)
Definition enabled_without_init : QARMA_QUANTUM_REGISTER :=
  qarma_qubit_set_enabled one_of_two 1 true.

(** Two messages on the bus at start: from qubit 1, then from qubit 2. *)
Definition two_pending : bus :=
  let '(_, b1, m1) :=
    cross_learning_send_message bus_at_start 1 MSG_HINT 256 4 (-1) 12288 mem_agree in
  let '(_, b2, _) :=
    cross_learning_send_message b1 2 MSG_PARTIAL_RESULT 272 4 (-1) 16384 m1 in
  b2.

(** Three broadcasts with quality 40, 90 and 90, from qubits 3, 5 and 7. *)
Definition three_broadcasts : list broadcast :=
  [ mkBroadcast 3 256 4 40 12288 16384; mkBroadcast 5 272 4 90 20480 24576;
    mkBroadcast 7 288 4 90 28672 32768 ].

End RunSamples.

(** * Properties *)

Section Waiting.
Import Mach Reg Samples.

Lemma wait_never_reports_timeout fuel observe timeout k :
  qarma_quantum_wait fuel observe timeout k <> Some false.
Proof.
  revert k. induction fuel as [|fuel IH]; intros k; simpl; [discriminate|].
  destruct (qarma_quantum_is_complete (observe k)); [discriminate|apply IH].
Qed.

Lemma wait_ignores_timeout fuel observe t1 t2 k :
  qarma_quantum_wait fuel observe t1 k = qarma_quantum_wait fuel observe t2 k.
Proof.
  revert k. induction fuel as [|fuel IH]; intros k; simpl; [reflexivity|].
  destruct (qarma_quantum_is_complete (observe k)); [reflexivity|apply IH].
Qed.

Lemma wait_spins_while_incomplete fuel observe timeout k :
  (forall j, qarma_quantum_is_complete (observe j) = false) ->
  qarma_quantum_wait fuel observe timeout k = None.
Proof.
  intros Hinc. revert k. induction fuel as [|fuel IH]; intros k; simpl; [reflexivity|].
  rewrite Hinc. apply IH.
Qed.

(** C1. On a register whose only enabled qubit never finishes (it was
    initialised and never executed), [qarma_quantum_wait] is still polling after
    any number of turns, whatever [timeout_ms] is: it never returns, and in
    particular never returns failure. *)
Theorem qarma_quantum_wait_never_times_out :
  forall (fuel : nat) (timeout : Z),
    qarma_quantum_is_complete one_pending = false /\
    qarma_quantum_wait fuel (fun _ => one_pending) timeout 0 = None.
Proof.
  intros fuel timeout. split; [reflexivity|].
  apply wait_spins_while_incomplete. intros _. reflexivity.
Qed.

End Waiting.

Section Dispatch.
Import Mach Reg Samples.

Lemma wrapper_keeps_dispatched i q st :
  ds_dispatched (snd (qubit_execute_wrapper i q st)) = ds_dispatched st.
Proof. unfold qubit_execute_wrapper. destruct (qb_function q); reflexivity. Qed.

Lemma u32_small z : 0 <= z < 2 ^ 32 -> u32 z = z.
Proof. intros H. unfold u32. apply Z.mod_small. exact H. Qed.

Lemma dispatch_loop_dispatched ctx_alloc qs : forall i st,
  0 <= ds_dispatched st ->
  ds_dispatched st + Z.of_nat (length qs) < 2 ^ 32 ->
  ds_dispatched (snd (dispatch_loop ctx_alloc i qs st))
  = ds_dispatched st + Z.of_nat (handed_over ctx_alloc i qs).
Proof.
  induction qs as [|q rest IH]; intros i st H0 Hlt; simpl.
  - lia.
  - destruct (dispatch_qubit (ctx_alloc i) i q st) as [q' st'] eqn:Eq.
    destruct (dispatch_loop ctx_alloc (S i) rest st') as [rest' st''] eqn:El.
    simpl. simpl length in Hlt.
    assert (Hst' : ds_dispatched st'
                   = ds_dispatched st
                     + (if qb_enabled q && negb (is_null (ctx_alloc i)) then 1 else 0)).
    { unfold dispatch_qubit in Eq.
      destruct (qb_enabled q); simpl in Eq.
      - destruct (is_null (ctx_alloc i)); simpl in Eq.
        + inversion Eq; subst; simpl. lia.
        + pose proof (wrapper_keeps_dispatched i q st) as Hw.
          destruct (qubit_execute_wrapper i q st) as [q1 st1].
          inversion Eq; subst; simpl in *. rewrite Hw. apply u32_small. lia.
      - inversion Eq; subst; simpl. lia. }
    specialize (IH (S i) st'). rewrite El in IH. simpl in IH.
    rewrite IH.
    + rewrite Hst'. destruct (qb_enabled q && negb (is_null (ctx_alloc i))); lia.
    + rewrite Hst'. destruct (qb_enabled q && negb (is_null (ctx_alloc i))); lia.
    + rewrite Hst'. destruct (qb_enabled q && negb (is_null (ctx_alloc i))); lia.
Qed.

Lemma handed_over_pos ctx_alloc qs : forall i,
  (0 < handed_over ctx_alloc i qs)%nat <->
  exists j q, qs !! j = Some q /\ qb_enabled q = true /\ is_null (ctx_alloc (i + j)%nat) = false.
Proof.
  induction qs as [|q rest IH]; intros i; simpl.
  - split; [lia|]. intros (j & q & H & _). rewrite lookup_nil in H. discriminate.
  - split.
    + intros Hpos.
      destruct (qb_enabled q && negb (is_null (ctx_alloc i))) eqn:E.
      * apply andb_true_iff in E as [E1 E2]. apply negb_true_iff in E2.
        exists O, q. rewrite Nat.add_0_r. auto.
      * simpl in Hpos. apply IH in Hpos as (j & q0 & H1 & H2 & H3).
        exists (S j), q0. rewrite Nat.add_succ_r. auto.
    + intros (j & q0 & H1 & H2 & H3). destruct j as [|j].
      * simpl in H1. inversion H1; subst. rewrite Nat.add_0_r in H3.
        rewrite H2, H3. simpl. lia.
      * simpl in H1. rewrite Nat.add_succ_r in H3.
        assert (0 < handed_over ctx_alloc (S i) rest)%nat by (apply IH; eauto).
        lia.
Qed.

Lemma dispatch_loop_all_disabled ctx_alloc qs : forall i st,
  Forall (fun q => qb_enabled q = false) qs ->
  let '(qs', st') := dispatch_loop ctx_alloc i qs st in
  qs' = List.map (set_qb_status QUBIT_STATUS_SKIPPED) qs /\
  ds_mem st' = ds_mem st /\ ds_completed st' = ds_completed st /\
  ds_failed st' = ds_failed st /\ ds_dispatched st' = ds_dispatched st.
Proof.
  induction qs as [|q rest IH]; intros i st Hall; simpl.
  - auto.
  - inversion Hall as [|? ? Hq Hrest]; subst.
    unfold dispatch_qubit. rewrite Hq. simpl.
    match goal with |- context [dispatch_loop ctx_alloc (S i) rest ?s] =>
      specialize (IH (S i) s Hrest); destruct (dispatch_loop ctx_alloc (S i) rest s) end.
    simpl in IH. destruct IH as (-> & ? & ? & ? & ?). auto.
Qed.

(** C10. [qarma_quantum_execute] on a register already executing returns false
    at once and changes nothing; otherwise it returns true exactly when some
    qubit was handed to the execution wrapper (it is enabled and its context
    was allocated); and on a register whose qubits are all disabled it returns
    false, marks every qubit Skipped and leaves both counters at zero. *)
Theorem qarma_quantum_execute_success_iff_dispatched :
  forall (ctx_alloc : nat -> ptr) (r : QARMA_QUANTUM_REGISTER) (m : mem),
    reg_wf r ->
    let e := qarma_quantum_execute ctx_alloc r m in
    (reg_executing r = true -> ex_ret e = false /\ ex_reg e = r /\ ex_mem e = m) /\
    (reg_executing r = false ->
       (ex_ret e = true <->
        exists i q, reg_qubits r !! i = Some q /\ qb_enabled q = true /\
                    is_null (ctx_alloc i) = false) /\
       (Forall (fun q => qb_enabled q = false) (reg_qubits r) ->
        ex_ret e = false /\
        Forall (fun q => qb_status q = QUBIT_STATUS_SKIPPED /\ qb_enabled q = false)
               (reg_qubits (ex_reg e)) /\
        length (reg_qubits (ex_reg e)) = length (reg_qubits r) /\
        reg_completed_count (ex_reg e) = 0 /\ reg_failed_count (ex_reg e) = 0 /\
        ex_mem e = m)).
Proof.
  intros ctx_alloc r m [Hlen Hcount] e. subst e. unfold qarma_quantum_execute.
  split; intros Hex; rewrite Hex.
  - auto.
  - simpl.
    pose proof (dispatch_loop_dispatched ctx_alloc (reg_qubits r) 0
                  (mkDispatch m 0 0 0 [])) as Hd.
    pose proof (dispatch_loop_all_disabled ctx_alloc (reg_qubits r) 0
                  (mkDispatch m 0 0 0 [])) as Ha.
    destruct (dispatch_loop ctx_alloc 0 (reg_qubits r) (mkDispatch m 0 0 0 []))
      as [qs st] eqn:El.
    simpl in *. split.
    + rewrite Hd by lia.
      rewrite <- (handed_over_pos ctx_alloc (reg_qubits r) 0).
      rewrite Z.gtb_ltb, Z.ltb_lt. lia.
    + intros Hall. destruct (Ha Hall) as (-> & Hm & Hc & Hf & Hdz).
      rewrite Hdz, Hc, Hf, Hm. repeat split; try reflexivity.
      * apply List.Forall_forall. intros q Hin. apply in_map_iff in Hin as (q0 & <- & Hin0).
        split; [reflexivity|]. simpl.
        rewrite List.Forall_forall in Hall. apply Hall. exact Hin0.
      * apply length_map.
Qed.

Lemma fresh_wf : reg_wf (fresh 2).
Proof. split; [reflexivity | split; reflexivity]. Defined.

Lemma one_of_two_wf : reg_wf one_of_two.
Proof. split; [reflexivity | split; reflexivity]. Defined.

Lemma qarma_quantum_execute_success_iff_dispatched_witness :
  reg_wf (fresh 2) /\
  ex_ret (qarma_quantum_execute (always 4096) (fresh 2) mem0) = false /\
  reg_wf one_of_two /\
  ex_ret (qarma_quantum_execute (always 4096) one_of_two mem0) = true /\
  ex_ret (qarma_quantum_execute (always 4096) (set_reg_executing true one_of_two) mem0)
  = false.
Proof.
  split; [exact fresh_wf|]. split.
  { destruct (qarma_quantum_execute_success_iff_dispatched (always 4096) (fresh 2) mem0
                fresh_wf) as [_ H].
    destruct (H eq_refl) as [_ Hall]. apply Hall.
    repeat constructor. }
  split; [exact one_of_two_wf|]. split.
  { destruct (qarma_quantum_execute_success_iff_dispatched (always 4096) one_of_two mem0
                one_of_two_wf) as [_ H].
    destruct (H eq_refl) as [Hiff _]. apply Hiff.
    exists O. eexists. split; [reflexivity|]. split; reflexivity. }
  { assert (Hwf : reg_wf (set_reg_executing true one_of_two)) by exact one_of_two_wf.
    destruct (qarma_quantum_execute_success_iff_dispatched (always 4096)
                (set_reg_executing true one_of_two) mem0 Hwf) as [H _].
    apply H. reflexivity. }
Defined.

End Dispatch.

Section Lifecycle.
Import Mach Reg Api Samples.

Lemma status_forward_refl a : status_forward a a = true.
Proof. destruct a; reflexivity. Qed.

Lemma writes_to_app j a b : writes_to j (a ++ b) = writes_to j a ++ writes_to j b.
Proof. unfold writes_to. rewrite List.filter_app, List.map_app. reflexivity. Qed.

Lemma writes_to_tagged j i l :
  writes_to j (List.map (fun st => (i, st)) l) = if Nat.eqb i j then l else [].
Proof.
  unfold writes_to. induction l as [|x l IH]; simpl.
  - destruct (Nat.eqb i j); reflexivity.
  - destruct (Nat.eqb i j) eqn:E; simpl; rewrite IH; reflexivity.
Qed.

Lemma dispatch_qubit_spec ctx i q st :
  ds_writes (snd (dispatch_qubit ctx i q st))
  = ds_writes st ++ List.map (fun s => (i, s)) (qubit_writes ctx q) /\
  qb_status (fst (dispatch_qubit ctx i q st)) = List.last (qubit_writes ctx q) (qb_status q).
Proof.
  unfold dispatch_qubit, qubit_writes, qubit_execute_wrapper.
  destruct (qb_enabled q); simpl.
  - destruct (is_null ctx); simpl; [auto|].
    destruct (qb_function q); simpl; [auto|].
    rewrite app_nil_r. auto.
  - auto.
Qed.

Lemma dispatch_loop_writes ctx_alloc qs : forall i0 st j,
  writes_to j (ds_writes (snd (dispatch_loop ctx_alloc i0 qs st)))
  = writes_to j (ds_writes st)
    ++ (if (i0 <=? j)%nat
        then match qs !! (j - i0)%nat with
             | Some q => qubit_writes (ctx_alloc j) q
             | None => []
             end
        else []).
Proof.
  induction qs as [|q rest IH]; intros i0 st j.
  - cbn [dispatch_loop snd]. rewrite lookup_nil.
    destruct (i0 <=? j)%nat; rewrite app_nil_r; reflexivity.
  - cbn [dispatch_loop].
    pose proof (dispatch_qubit_spec (ctx_alloc i0) i0 q st) as [Hw _].
    destruct (dispatch_qubit (ctx_alloc i0) i0 q st) as [q' st'].
    specialize (IH (S i0) st' j).
    destruct (dispatch_loop ctx_alloc (S i0) rest st') as [rest' st''].
    cbn [fst snd] in *. rewrite IH, Hw, writes_to_app, writes_to_tagged, <- app_assoc.
    f_equal.
    destruct (Nat.eqb i0 j) eqn:E.
    + apply Nat.eqb_eq in E. subst j.
      replace (S i0 <=? i0)%nat with false by (symmetry; apply Nat.leb_gt; lia).
      rewrite Nat.leb_refl, Nat.sub_diag. cbn. apply app_nil_r.
    + apply Nat.eqb_neq in E. cbn [app].
      destruct (i0 <=? j)%nat eqn:L.
      * apply Nat.leb_le in L.
        replace (S i0 <=? j)%nat with true by (symmetry; apply Nat.leb_le; lia).
        replace (j - i0)%nat with (S (j - S i0)) by lia. reflexivity.
      * apply Nat.leb_gt in L.
        replace (S i0 <=? j)%nat with false by (symmetry; apply Nat.leb_gt; lia).
        reflexivity.
Qed.

Lemma dispatch_loop_statuses ctx_alloc qs : forall i0 st k d,
  nth k (List.map qb_status (fst (dispatch_loop ctx_alloc i0 qs st))) d
  = match qs !! k with
    | Some q => List.last (qubit_writes (ctx_alloc (i0 + k)%nat) q) (qb_status q)
    | None => d
    end.
Proof.
  induction qs as [|q rest IH]; intros i0 st k d; simpl.
  - destruct k; reflexivity.
  - pose proof (dispatch_qubit_spec (ctx_alloc i0) i0 q st) as [_ Hs].
    destruct (dispatch_qubit (ctx_alloc i0) i0 q st) as [q' st'].
    specialize (IH (S i0) st').
    destruct (dispatch_loop ctx_alloc (S i0) rest st') as [rest' st''].
    simpl in *. destruct k as [|k]; simpl.
    + rewrite Nat.add_0_r. exact Hs.
    + rewrite IH. rewrite Nat.add_succ_r. reflexivity.
Qed.

Lemma nth_statuses (qs : list QARMA_QUBIT) k d :
  nth k (List.map qb_status qs) d
  = match qs !! k with Some q => qb_status q | None => d end.
Proof.
  revert k. induction qs as [|q rest IH]; intros [|k]; simpl; try reflexivity. apply IH.
Qed.

Lemma nth_statuses_alter (f : QARMA_QUBIT -> QARMA_QUBIT) qs i k d :
  nth k (List.map qb_status (alter f i qs)) d
  = match qs !! k with
    | Some q => if Nat.eqb i k then qb_status (f q) else qb_status q
    | None => d
    end.
Proof.
  rewrite nth_statuses. destruct (Nat.eqb i k) eqn:E.
  - apply Nat.eqb_eq in E. subst k. rewrite list_lookup_alter_eq.
    destruct (qs !! i); reflexivity.
  - apply Nat.eqb_neq in E. rewrite list_lookup_alter_ne by exact E.
    destruct (qs !! k); reflexivity.
Qed.

Lemma apply_strategy_qubits h results r m :
  reg_qubits (fst (apply_strategy h results r m)) = reg_qubits r.
Proof.
  unfold apply_strategy.
  destruct (negb (Z.of_nat (length results) >? 0)); [reflexivity|].
  destruct (reg_strategy r); simpl; try reflexivity;
    repeat match goal with
           | |- context [match ?x with _ => _ end] => destruct x; simpl; try reflexivity
           end.
Qed.

Lemma collapse_qubits h r m :
  reg_qubits (snd (fst (qarma_quantum_collapse h r m))) = reg_qubits r.
Proof.
  unfold qarma_quantum_collapse.
  destruct (reg_collapsed r); [reflexivity|].
  destruct (is_null (ch_results h)); [reflexivity|].
  destruct (is_null (reg_collapse_output r) && (reg_result_size r >? 0)).
  - destruct (is_null (ch_output h)); [reflexivity|].
    match goal with |- context [apply_strategy ?a ?b ?c ?d] =>
      pose proof (apply_strategy_qubits a b c d) as H;
      destruct (apply_strategy a b c d) end.
    simpl in *. exact H.
  - pose proof (apply_strategy_qubits h (gather_results (reg_qubits r)) r m) as H.
    destruct (apply_strategy h (gather_results (reg_qubits r)) r m).
    simpl in *. exact H.
Qed.

Lemma status_eqb_eq a b : status_eqb a b = true <-> a = b.
Proof. destruct a, b; simpl; split; intros H; try reflexivity; discriminate. Qed.

Lemma status_forward_same a b : a = b -> status_forward a b = true.
Proof. intros ->. apply status_forward_refl. Qed.

Lemma status_forward_spec a b :
  status_forward a b = true <->
  a = b \/
  (a = QUBIT_STATUS_PENDING /\ b = QUBIT_STATUS_RUNNING) \/
  (a = QUBIT_STATUS_RUNNING /\ b = QUBIT_STATUS_COMPLETED) \/
  (a = QUBIT_STATUS_PENDING /\ b = QUBIT_STATUS_FAILED) \/
  (a = QUBIT_STATUS_PENDING /\ b = QUBIT_STATUS_SKIPPED).
Proof.
  split.
  - destruct a, b; cbn; intros H; try discriminate H;
      first [ left; reflexivity
            | right; left; split; reflexivity
            | right; right; left; split; reflexivity
            | right; right; right; left; split; reflexivity
            | right; right; right; right; split; reflexivity ].
  - intros [-> | [[-> ->] | [[-> ->] | [[-> ->] | [-> ->]]]]];
      [apply status_forward_refl | reflexivity | reflexivity | reflexivity | reflexivity].
Qed.

Lemma init_statuses r index f d size heap m i :
  status_is r index (fun st => status_eqb st QUBIT_STATUS_PENDING) = true ->
  let r' := snd (fst (qarma_qubit_init r index f d size heap m)) in
  nth i (statuses (r, m)) QUBIT_STATUS_PENDING
  = nth i (List.map qb_status (reg_qubits r')) QUBIT_STATUS_PENDING.
Proof.
  unfold status_is, statuses, qarma_qubit_init. cbn [fst].
  intros Hg.
  destruct ((index >=? reg_count r) || fn_absent f); [reflexivity|].
  destruct (reg_qubits r !! Z.to_nat index) as [q|] eqn:Eq; [|reflexivity].
  apply status_eqb_eq in Hg.
  assert (Hcase : forall q2, qb_status q2 = QUBIT_STATUS_PENDING ->
            nth i (List.map qb_status (reg_qubits r)) QUBIT_STATUS_PENDING
            = nth i (List.map qb_status (<[Z.to_nat index := q2]> (reg_qubits r)))
                  QUBIT_STATUS_PENDING).
  { intros q2 H2. rewrite !nth_statuses.
    destruct (Nat.eq_dec (Z.to_nat index) i) as [<-|Hne].
    - rewrite Eq, list_lookup_insert_eq by (eapply lookup_lt_Some; exact Eq). congruence.
    - rewrite list_lookup_insert_ne by exact Hne. reflexivity. }
  destruct (size >? 0).
  - unfold qubit_allocate_result.
    destruct (size =? 0); [apply Hcase; reflexivity|].
    destruct (is_null heap); apply Hcase; reflexivity.
  - apply Hcase. reflexivity.
Qed.

Lemma set_enabled_statuses r index b i :
  op_in_order (OpSetEnabled index b) (r, Samples.mem0) = true ->
  status_forward (nth i (List.map qb_status (reg_qubits r)) QUBIT_STATUS_PENDING)
                 (nth i (List.map qb_status (reg_qubits (qarma_qubit_set_enabled r index b)))
                      QUBIT_STATUS_PENDING) = true.
Proof.
  unfold op_in_order, qarma_qubit_set_enabled, status_is. cbn [fst].
  intros Hg.
  destruct (index >=? reg_count r); [apply status_forward_refl|].
  cbn [reg_qubits set_reg_qubits]. rewrite nth_statuses_alter, nth_statuses.
  destruct (reg_qubits r !! i) as [q|] eqn:Eq; [|reflexivity].
  destruct (Nat.eqb (Z.to_nat index) i) eqn:E; [|apply status_forward_refl].
  apply Nat.eqb_eq in E. subst i. rewrite Eq in Hg.
  destruct b; cbn.
  - apply status_forward_refl.
  - unfold pending_or_skipped in Hg. destruct (qb_status q); try discriminate; reflexivity.
Qed.

Lemma execute_path ctx q :
  (if qb_enabled q then status_eqb (qb_status q) QUBIT_STATUS_PENDING
   else pending_or_skipped (qb_status q)) = true ->
  forward_path (qb_status q :: qubit_writes ctx q
                ++ [List.last (qubit_writes ctx q) (qb_status q)]) = true.
Proof.
  unfold qubit_writes, pending_or_skipped.
  destruct (qb_enabled q); simpl.
  - intros H. apply status_eqb_eq in H. rewrite H.
    destruct (is_null ctx); [reflexivity|]. destruct (qb_function q); reflexivity.
  - destruct (qb_status q); simpl; intros H; try discriminate; reflexivity.
Qed.

Lemma step_in_order_forward o s :
  op_in_order o s = true -> step_forward o s = true.
Proof.
  destruct s as [r m]. intros Hg. unfold step_forward. cbn [fst].
  apply forallb_forall. intros i Hi. apply in_seq in Hi.
  unfold qubit_path.
  destruct o as [index f d size heap | index b | ctx_alloc | h]; cbn [step].
  - pose proof (init_statuses r index f d size heap m i Hg) as H.
    destruct (qarma_qubit_init r index f d size heap m) as [[ok r'] m'].
    cbn [fst snd writes_to List.filter List.map app forward_path statuses] in *.
    rewrite andb_true_r. apply status_forward_same. exact H.
  - cbn [fst snd writes_to List.filter List.map app forward_path statuses].
    rewrite andb_true_r. apply set_enabled_statuses with (b := b).
    destruct b; exact Hg.
  - unfold qarma_quantum_execute.
    destruct (reg_executing r).
    + cbn. rewrite status_forward_refl. reflexivity.
    + pose proof (dispatch_loop_writes ctx_alloc (reg_qubits r) 0
                    (mkDispatch m 0 0 0 []) i) as Hw.
      pose proof (dispatch_loop_statuses ctx_alloc (reg_qubits r) 0
                    (mkDispatch m 0 0 0 []) i QUBIT_STATUS_PENDING) as Hs.
      cbn [reg_qubits set_reg_failed_count set_reg_completed_count set_reg_collapsed
           set_reg_executing].
      destruct (dispatch_loop ctx_alloc 0 (reg_qubits r) (mkDispatch m 0 0 0 []))
        as [qs st].
      cbn [fst snd ex_reg ex_mem ex_writes statuses reg_qubits set_reg_qubits
           set_reg_failed_count set_reg_completed_count set_reg_executing] in *.
      unfold statuses. cbn [fst reg_qubits set_reg_qubits set_reg_failed_count
                            set_reg_completed_count set_reg_executing].
      rewrite Hw, Hs. cbn [ds_writes writes_to List.filter List.map app].
      rewrite Nat.sub_0_r. cbn [Nat.leb Nat.add].
      rewrite nth_statuses.
      destruct (reg_qubits r !! i) as [q|] eqn:Eq.
      * apply execute_path. cbn [op_in_order fst] in Hg.
        rewrite forallb_forall in Hg. apply Hg.
        apply list_elem_of_In. eapply list_elem_of_lookup_2. exact Eq.
      * cbn. reflexivity.
  - pose proof (collapse_qubits h r m) as H.
    destruct (qarma_quantum_collapse h r m) as [[ret r'] m'].
    unfold statuses.
    cbn [fst snd writes_to List.filter List.map app forward_path] in *.
    rewrite H, status_forward_refl. reflexivity.
Qed.

Lemma collapse_keeps_statuses h s :
  statuses (fst (step (OpCollapse h) s)) = statuses s /\ snd (step (OpCollapse h) s) = [].
Proof.
  destruct s as [r m]. cbn [step].
  pose proof (collapse_qubits h r m) as H.
  destruct (qarma_quantum_collapse h r m) as [[ret r'] m'].
  unfold statuses. cbn [fst snd] in *. rewrite H. split; reflexivity.
Qed.

Lemma enable_keeps_statuses index s :
  statuses (fst (step (OpSetEnabled index true) s)) = statuses s /\
  snd (step (OpSetEnabled index true) s) = [].
Proof.
  destruct s as [r m]. cbn [step fst snd]. split; [|reflexivity].
  unfold statuses, qarma_qubit_set_enabled. cbn [fst negb].
  destruct (index >=? reg_count r); [reflexivity|].
  cbn [reg_qubits set_reg_qubits].
  apply list_eq. intros k. rewrite !list_lookup_fmap.
  destruct (Nat.eq_dec (Z.to_nat index) k) as [<-|Hne].
  - rewrite list_lookup_alter_eq. destruct (reg_qubits r !! Z.to_nat index); reflexivity.
  - rewrite list_lookup_alter_ne by exact Hne. reflexivity.
Qed.

(** C7, as amended. In a sequence of public operations without reset in which
    [qarma_qubit_init] is applied only to qubits still Pending,
    [qarma_qubit_set_enabled(false)] only to qubits Pending or Skipped, and
    [qarma_quantum_execute] only while every enabled qubit is Pending and every
    disabled one Pending or Skipped, every store to a qubit's status either
    leaves it as it is or takes one arrow of Pending -> Running -> Completed,
    Pending -> Failed, Pending -> Skipped, and these are the only moves counted
    as forward; [qarma_quantum_collapse] and [qarma_qubit_set_enabled(true)]
    store no status and leave every status as it was, in order or not. *)
Theorem status_only_moves_forward_in_order :
  (forall (ops : list op) (s : machine),
     run_in_order ops s = true -> run_forward ops s = true) /\
  (forall a b : QARMA_QUBIT_STATUS,
     status_forward a b = true <->
     a = b \/
     (a = QUBIT_STATUS_PENDING /\ b = QUBIT_STATUS_RUNNING) \/
     (a = QUBIT_STATUS_RUNNING /\ b = QUBIT_STATUS_COMPLETED) \/
     (a = QUBIT_STATUS_PENDING /\ b = QUBIT_STATUS_FAILED) \/
     (a = QUBIT_STATUS_PENDING /\ b = QUBIT_STATUS_SKIPPED)) /\
  (forall (h : collapse_heap) (s : machine),
     statuses (fst (step (OpCollapse h) s)) = statuses s /\
     snd (step (OpCollapse h) s) = []) /\
  (forall (index : Z) (s : machine),
     statuses (fst (step (OpSetEnabled index true) s)) = statuses s /\
     snd (step (OpSetEnabled index true) s) = []).
Proof.
  split; [|split; [exact status_forward_spec|split;
                   [exact collapse_keeps_statuses | exact enable_keeps_statuses]]].
  induction ops as [|o rest IH]; intros s H; [reflexivity|].
  cbn [run_in_order run_forward] in *.
  apply andb_true_iff in H as [Ho Hrest].
  rewrite (step_in_order_forward o s Ho). apply IH. exact Hrest.
Qed.

Lemma status_only_moves_forward_in_order_witness :
  run_in_order lifecycle_ops (fresh 2, mem0) = true /\
  run_forward lifecycle_ops (fresh 2, mem0) = true.
Proof.
  split; [vm_compute; reflexivity|].
  apply (proj1 status_only_moves_forward_in_order lifecycle_ops (fresh 2, mem0)).
  vm_compute. reflexivity.
Defined.

(** C7 as stated fails: after a qubit has completed, [qarma_qubit_init] puts it
    back to Pending, [qarma_qubit_set_enabled(false)] moves it to Skipped, and a
    second [qarma_quantum_execute] takes it through Running again. *)
Lemma status_regresses_after_completion :
  statuses (run init_then_execute (fresh 1, mem0)) = [QUBIT_STATUS_COMPLETED] /\
  statuses (run then_init_again (fresh 1, mem0)) = [QUBIT_STATUS_PENDING] /\
  run_forward then_init_again (fresh 1, mem0) = false /\
  statuses (run then_disable (fresh 1, mem0)) = [QUBIT_STATUS_SKIPPED] /\
  run_forward then_disable (fresh 1, mem0) = false /\
  run_forward then_execute_again (fresh 1, mem0) = false.
Proof. repeat split; vm_compute; reflexivity. Qed.

End Lifecycle.

Section Configuration.
Import Mach Reg Samples.

Lemma set_reg_qubits_same r : set_reg_qubits (reg_qubits r) r = r.
Proof. destruct r; reflexivity. Qed.

(** C6, as amended. When [qarma_qubit_init] returns false because the index is
    out of range or the function is absent, the register and the memory are
    unchanged. When it returns false otherwise, the result-buffer allocation
    was refused: the memory and the other qubits are unchanged, but the
    targeted qubit has already been configured; it holds the new function and
    data, is enabled, is Pending, and has no result buffer. *)
Theorem qarma_qubit_init_failure :
  forall (r : QARMA_QUANTUM_REGISTER) (index : Z) (f : option qubit_fn) (d : ptr)
         (size : Z) (heap : ptr) (m : mem) (r' : QARMA_QUANTUM_REGISTER) (m' : mem),
    qarma_qubit_init r index f d size heap m = (false, r', m') ->
    m' = m /\
    ((index >=? reg_count r) || fn_absent f = true -> r' = r) /\
    ((index >=? reg_count r) || fn_absent f = false ->
     forall q, reg_qubits r !! Z.to_nat index = Some q ->
       size > 0 /\ heap = NULL /\
       r' = set_reg_qubits
              (<[Z.to_nat index := set_qb_result NULL (init_fields f d q)]> (reg_qubits r)) r /\
       exists q', reg_qubits r' !! Z.to_nat index = Some q' /\
                  qb_enabled q' = true /\ qb_function q' = f /\ qb_data q' = d /\
                  qb_status q' = QUBIT_STATUS_PENDING /\ qb_result q' = NULL).
Proof.
  intros r index f d size heap m r' m'. unfold qarma_qubit_init.
  destruct ((index >=? reg_count r) || fn_absent f) eqn:G.
  - intros H. inversion H; subst.
    split; [reflexivity|]. split; [reflexivity|]. discriminate.
  - destruct (reg_qubits r !! Z.to_nat index) as [q0|] eqn:Eq.
    + destruct (size >? 0) eqn:Hs.
      * unfold qubit_allocate_result.
        replace (size =? 0) with false by (symmetry; apply Z.eqb_neq; lia).
        destruct (is_null heap) eqn:Hn; intros H; inversion H; subst.
        unfold is_null in Hn. apply Z.eqb_eq in Hn. subst heap.
        split; [reflexivity|]. split; [discriminate|].
        intros _ q Hq. inversion Hq; subst q0.
        split; [lia|]. split; [reflexivity|]. split; [reflexivity|].
        eexists. split.
        { cbn [reg_qubits set_reg_qubits]. apply list_lookup_insert_eq.
          eapply lookup_lt_Some. exact Eq. }
        repeat split.
      * intros H. inversion H.
    + intros H. inversion H; subst.
      split; [reflexivity|]. split; [discriminate|]. intros _ q Hq. discriminate.
Qed.

Lemma qarma_qubit_init_failure_witness :
  qarma_qubit_init (fresh 1) 0 (Some store42) 256 4 NULL mem0
  = (false, one_refused, mem0) /\
  exists q', reg_qubits one_refused !! Z.to_nat 0 = Some q' /\ qb_enabled q' = true.
Proof.
  assert (E : qarma_qubit_init (fresh 1) 0 (Some store42) 256 4 NULL mem0
              = (false, one_refused, mem0)) by reflexivity.
  split; [exact E|].
  destruct (qarma_qubit_init_failure _ _ _ _ _ _ _ _ _ E) as (_ & _ & H).
  destruct (H eq_refl zero_qubit eq_refl) as (_ & _ & _ & q' & Hq & Hen & _).
  exists q'. split; [exact Hq | exact Hen].
Defined.

(** C6 as stated fails: on a register of one qubit, fresh from
    [qarma_quantum_register_create], an initialisation whose result-buffer
    allocation is refused returns false, and yet leaves the qubit enabled, with
    the function and the data installed. *)
Lemma failed_init_leaves_qubit_enabled :
  fst (fst (qarma_qubit_init (fresh 1) 0 (Some store42) 256 4 NULL mem0)) = false /\
  List.map (fun q => (qb_enabled q, qb_data q, fn_absent (qb_function q)))
           (reg_qubits (fresh 1)) = [(false, 0, true)] /\
  List.map (fun q => (qb_enabled q, qb_data q, fn_absent (qb_function q)))
           (reg_qubits (snd (fst (qarma_qubit_init (fresh 1) 0 (Some store42) 256 4 NULL
                                                   mem0))))
  = [(true, 256, false)].
Proof. repeat split. Qed.

End Configuration.

Section Memory.
Import Mach.

Lemma store_bytes_outside bs : forall m p a,
  a < p \/ p + Z.of_nat (length bs) <= a -> store_bytes m p bs a = m a.
Proof.
  induction bs as [|b bs IH]; intros m p a H; simpl; [reflexivity|].
  rewrite IH by (simpl length in H; lia).
  unfold store_byte. destruct (a =? p) eqn:E; [|reflexivity].
  apply Z.eqb_eq in E. simpl length in H. lia.
Qed.

Lemma load_store_bytes bs : forall m p,
  load_bytes (store_bytes m p bs) p (length bs) = bs.
Proof.
  induction bs as [|b bs IH]; intros m p; simpl; [reflexivity|].
  f_equal.
  - rewrite store_bytes_outside by lia. unfold store_byte. rewrite Z.eqb_refl. reflexivity.
  - apply IH.
Qed.

Lemma length_load_bytes n : forall m p, length (load_bytes m p n) = n.
Proof. induction n as [|n IH]; intros m p; simpl; [reflexivity|]. rewrite IH. reflexivity. Qed.

Lemma load_memcpy m dst src n :
  load_bytes (memcpy m dst src n) dst (Z.to_nat n) = load_bytes m src (Z.to_nat n).
Proof.
  unfold memcpy.
  rewrite <- (length_load_bytes (Z.to_nat n) m src) at 2.
  apply load_store_bytes.
Qed.

Lemma memcmp_nat_zero n : forall m p q,
  memcmp_nat m p q n = 0 <-> load_bytes m p n = load_bytes m q n.
Proof.
  induction n as [|n IH]; intros m p q; simpl.
  - split; reflexivity.
  - destruct (m p =? m q) eqn:E.
    + apply Z.eqb_eq in E. rewrite IH. split.
      * intros H. rewrite E, H. reflexivity.
      * intros H. inversion H. reflexivity.
    + apply Z.eqb_neq in E. split.
      * intros H. lia.
      * intros H. inversion H. contradiction.
Qed.

Lemma load_store_ptr m p v : load_bytes (store_ptr m p v) p 4 = ptr_bytes v.
Proof. unfold store_ptr. apply (load_store_bytes (ptr_bytes v)). Qed.

End Memory.

Section Validate.
Import Mach Reg Samples.

(** Byte-for-byte equality of two results over [size] bytes. *)
Lemma validate_all_match_spec m r0 others size :
  validate_all_match m r0 others size = true <->
  Forall (fun p => load_bytes m p (Z.to_nat size) = load_bytes m r0 (Z.to_nat size)) others.
Proof.
  induction others as [|p rest IH]; simpl.
  - split; [constructor | reflexivity].
  - destruct (memcmp m r0 p size =? 0) eqn:E; simpl.
    + apply Z.eqb_eq in E. unfold memcmp in E. apply memcmp_nat_zero in E.
      rewrite IH. split.
      * intros H. constructor; [symmetry; exact E | exact H].
      * intros H. inversion H; assumption.
    + apply Z.eqb_neq in E. split; [discriminate|].
      intros H. inversion H as [|? ? Hp _]; subst. exfalso. apply E.
      unfold memcmp. apply memcmp_nat_zero. symmetry. exact Hp.
Qed.

(** C4. With a non-empty result list, [size > 0] and an output buffer,
    [qarma_collapse_validate] copies [results[0]] into the output buffer when
    every result equals [results[0]] byte for byte over [size] bytes, and
    otherwise returns with the whole memory, the output buffer included,
    exactly as it was. *)
Theorem qarma_collapse_validate_copies_iff_all_match :
  forall (r0 : ptr) (others : list ptr) (output : ptr) (size : Z) (m : mem),
    output <> NULL -> 0 < size ->
    let m' := qarma_collapse_validate (r0 :: others) output size m in
    let same p := load_bytes m p (Z.to_nat size) = load_bytes m r0 (Z.to_nat size) in
    (Forall same others ->
       m' = memcpy m output r0 size /\
       load_bytes m' output (Z.to_nat size) = load_bytes m r0 (Z.to_nat size)) /\
    (~ Forall same others -> m' = m).
Proof.
  intros r0 others output size m Hout Hsize m' same. subst m'.
  unfold qarma_collapse_validate.
  replace (is_null output) with false
    by (symmetry; apply Z.eqb_neq; exact Hout).
  replace (size =? 0) with false by (symmetry; apply Z.eqb_neq; lia).
  cbn [orb].
  pose proof (validate_all_match_spec m r0 others size) as Hspec.
  destruct (validate_all_match m r0 others size).
  - split.
    + intros _. split; [reflexivity | apply load_memcpy].
    + intros Hn. exfalso. apply Hn. apply Hspec. reflexivity.
  - split.
    + intros Hall. apply Hspec in Hall. discriminate.
    + intros _. reflexivity.
Qed.

Lemma qarma_collapse_validate_copies_iff_all_match_witness :
  load_bytes (qarma_collapse_validate [256; 272; 288] 512 4 mem_agree) 512 4
  = [30; 0; 0; 0] /\
  qarma_collapse_validate [256; 272; 288] 512 4 mem_differ = mem_differ.
Proof.
  split.
  - destruct (qarma_collapse_validate_copies_iff_all_match 256 [272; 288] 512 4 mem_agree)
      as [H _]; [discriminate | lia |].
    destruct H as [_ H]; [repeat constructor|].
    etransitivity; [exact H | reflexivity].
  - destruct (qarma_collapse_validate_copies_iff_all_match 256 [272; 288] 512 4 mem_differ)
      as [_ H]; [discriminate | lia |].
    apply H. intros Hall.
    inversion Hall as [|? ? _ Hrest]; subst.
    inversion Hrest as [|? ? Hbad _]; subst.
    discriminate Hbad.
Defined.
End Validate.

Section Collapse.
Import Mach Reg Samples.

Lemma is_null_false p : is_null p = false <-> p <> NULL.
Proof. unfold is_null, NULL. apply Z.eqb_neq. Qed.

(** C3. When the allocator refuses nothing during the first
    [qarma_quantum_collapse], that call leaves [collapsed] true and returns the
    register's output buffer; a second call, with no reset in between and
    whatever the allocator would answer, returns the same pointer and leaves
    the register, [collapsed] included, and the whole memory as the first call
    left them. *)
Theorem qarma_quantum_collapse_idempotent :
  forall (h1 h2 : collapse_heap) (r : QARMA_QUANTUM_REGISTER) (m : mem),
    ch_results h1 <> NULL -> ch_output h1 <> NULL ->
    let '(ret1, r1, m1) := qarma_quantum_collapse h1 r m in
    reg_collapsed r1 = true /\ ret1 = reg_collapse_output r1 /\
    qarma_quantum_collapse h2 r1 m1 = (ret1, r1, m1).
Proof.
  intros h1 h2 r m Hres Hout.
  apply is_null_false in Hres. apply is_null_false in Hout.
  unfold qarma_quantum_collapse at 1. rewrite Hres, Hout.
  destruct (reg_collapsed r) eqn:Hc.
  - split; [exact Hc|]. split; [reflexivity|].
    unfold qarma_quantum_collapse. rewrite Hc. reflexivity.
  - destruct (is_null (reg_collapse_output r) && (reg_result_size r >? 0)).
    + destruct (apply_strategy h1 (gather_results (reg_qubits r))
                  (set_reg_collapse_output (ch_output h1) r)
                  (memset m (ch_output h1) 0 (reg_result_size r))) as [r2 m2].
      split; [reflexivity|]. split; [reflexivity|]. reflexivity.
    + destruct (apply_strategy h1 (gather_results (reg_qubits r)) r m) as [r2 m2].
      split; [reflexivity|]. split; [reflexivity|]. reflexivity.
Qed.

Lemma qarma_quantum_collapse_idempotent_witness :
  let '(ret1, r1, m1) := qarma_quantum_collapse heap_ok (ex_reg executed_one)
                                                (ex_mem executed_one) in
  ret1 = 8192 /\ reg_collapsed r1 = true /\
  qarma_quantum_collapse heap_refuses r1 m1 = (ret1, r1, m1).
Proof.
  pose proof (qarma_quantum_collapse_idempotent heap_ok heap_refuses
                (ex_reg executed_one) (ex_mem executed_one)) as H.
  destruct (qarma_quantum_collapse heap_ok (ex_reg executed_one) (ex_mem executed_one))
    as [[ret1 r1] m1] eqn:E.
  destruct H as (Hc & Hret & Hsame); [discriminate | discriminate |].
  split; [|split; [exact Hc | exact Hsame]].
  vm_compute in E. inversion E. reflexivity.
Defined.

(** C5, as amended. With the FirstWins strategy and a non-empty gathered
    result list, a collapse that returns an output buffer has stored in its
    first four bytes the address of [results[0]], least significant byte
    first; the bytes [results[0]] points to are not copied. *)
Theorem first_wins_stores_the_pointer :
  forall (h : collapse_heap) (r : QARMA_QUANTUM_REGISTER) (m : mem) (r0 : ptr)
         (rest : list ptr),
    reg_collapsed r = false ->
    reg_strategy r = COLLAPSE_FIRST_WINS ->
    gather_results (reg_qubits r) = r0 :: rest ->
    let '(ret, r', m') := qarma_quantum_collapse h r m in
    ret <> NULL ->
    ret = reg_collapse_output r' /\
    m' = store_ptr (if is_null (reg_collapse_output r)
                    then memset m ret 0 (reg_result_size r) else m) ret r0 /\
    load_bytes m' ret 4 = ptr_bytes r0.
Proof.
  intros h r m r0 rest Hc Hs Hg. unfold qarma_quantum_collapse. rewrite Hc, Hg.
  destruct (is_null (ch_results h)); [intros H; contradiction H; reflexivity|].
  destruct (is_null (reg_collapse_output r)) eqn:Hn; cbn [andb].
  - destruct (reg_result_size r >? 0).
    + destruct (is_null (ch_output h)) eqn:Ho; [intros H; contradiction H; reflexivity|].
      unfold apply_strategy. cbn [length negb]. 
      replace (Z.of_nat (S (length rest)) >? 0) with true
        by (symmetry; apply Z.gtb_lt; lia).
      cbn [negb reg_strategy set_reg_collapse_output]. rewrite Hs.
      cbn [qarma_collapse_first_wins reg_collapse_output set_reg_collapsed
           set_reg_collapse_output reg_result_size].
      rewrite Ho.
      intros _. split; [reflexivity|]. split; [reflexivity|]. apply load_store_ptr.
    + unfold apply_strategy. cbn [length negb].
      replace (Z.of_nat (S (length rest)) >? 0) with true
        by (symmetry; apply Z.gtb_lt; lia).
      cbn [negb]. rewrite Hs.
      cbn [qarma_collapse_first_wins reg_collapse_output set_reg_collapsed]. rewrite Hn.
      intros H. exfalso. apply H. unfold is_null in Hn. apply Z.eqb_eq in Hn. exact Hn.
  - unfold apply_strategy. cbn [length negb].
    replace (Z.of_nat (S (length rest)) >? 0) with true
      by (symmetry; apply Z.gtb_lt; lia).
    cbn [negb]. rewrite Hs.
    cbn [qarma_collapse_first_wins reg_collapse_output set_reg_collapsed]. rewrite Hn.
    intros _. split; [reflexivity|]. split; [reflexivity|]. apply load_store_ptr.
Qed.

Lemma first_wins_stores_the_pointer_witness :
  let '(ret, r', m') := qarma_quantum_collapse heap_ok (ex_reg executed_one)
                                               (ex_mem executed_one) in
  ret = 8192 /\ load_bytes m' ret 4 = ptr_bytes 256.
Proof.
  pose proof (first_wins_stores_the_pointer heap_ok (ex_reg executed_one)
                (ex_mem executed_one) 256 [] eq_refl eq_refl eq_refl) as H.
  destruct (qarma_quantum_collapse heap_ok (ex_reg executed_one) (ex_mem executed_one))
    as [[ret r'] m'] eqn:E.
  assert (Hret : ret = 8192) by (vm_compute in E; inversion E; reflexivity).
  split; [exact Hret|].
  apply H. rewrite Hret. discriminate.
Defined.

(** C5 as stated fails: the single completed qubit's data, at address 256, is
    the bytes 42 0 0 0; after a FirstWins collapse into a 4-byte output buffer
    the buffer holds 0 1 0 0, the address 256, and not those bytes. *)
Lemma first_wins_does_not_copy_the_data :
  let '(ret, r', m') := qarma_quantum_collapse heap_ok (ex_reg executed_one)
                                               (ex_mem executed_one) in
  reg_strategy (ex_reg executed_one) = COLLAPSE_FIRST_WINS /\
  gather_results (reg_qubits (ex_reg executed_one)) = [256] /\
  load_bytes m' 256 4 = [42; 0; 0; 0] /\
  load_bytes m' ret 4 = [0; 1; 0; 0] /\
  load_bytes m' ret 4 <> load_bytes m' 256 4.
Proof. vm_compute. repeat split. discriminate. Qed.

End Collapse.

Section Scheduler.
Import Mach Reg Samples Sched.

Lemma lookup_in_first_match patterns size :
  lookup_in patterns size
  = match first_match patterns size with Some p => avg_time_ms p | None => 0 end.
Proof.
  induction patterns as [|p rest IH]; simpl; [reflexivity|].
  destruct (data_size p =? size); [reflexivity | exact IH].
Qed.

Lemma first_match_none patterns size :
  first_match patterns size = None <-> Forall (fun p => data_size p <> size) patterns.
Proof.
  induction patterns as [|p rest IH]; simpl.
  - split; [constructor | reflexivity].
  - destruct (data_size p =? size) eqn:E.
    + apply Z.eqb_eq in E. split; [discriminate|].
      intros H. inversion H; subst. contradiction.
    + apply Z.eqb_neq in E. rewrite IH. split.
      * intros H. constructor; assumption.
      * intros H. inversion H; assumption.
Qed.

(** C9, as amended. After [quantum_scheduler_predict] (its array allocated),
    every qubit has a prediction whose [complexity_score] is
    [result_size * 10]. When no pattern in use records exactly its
    [result_size], or the first that does has a zero average, the predicted
    time is [complexity_score / 100], raised to 1 if that is 0, with confidence
    0.3. When the first pattern recording its [result_size] has a non-zero
    average, the predicted time is that average, with confidence 0.8. *)
Theorem quantum_scheduler_predict_times :
  forall (g : quantum_scheduler_t) (r : QARMA_QUANTUM_REGISTER) (heap : ptr)
         (i : nat) (q : QARMA_QUBIT),
    heap <> NULL ->
    reg_qubits r !! i = Some q ->
    exists ps p,
      predictions (quantum_scheduler_predict g r heap) = Some ps /\
      ps !! i = Some p /\
      qubit_index p = Z.of_nat i /\
      complexity_score p = u32 (qb_result_size q * 10) /\
      match first_match (patterns_in_use g) (qb_result_size q) with
      | Some pat =>
          if avg_time_ms pat >? 0
          then predicted_time_ms p = avg_time_ms pat /\ confidence p = F32.lit 8 10
          else predicted_time_ms p = Z.max 1 (u32 (qb_result_size q * 10) / 100) /\
               confidence p = F32.lit 3 10
      | None =>
          predicted_time_ms p = Z.max 1 (u32 (qb_result_size q * 10) / 100) /\
          confidence p = F32.lit 3 10
      end.
Proof.
  intros g r heap i q Hheap Hq.
  unfold quantum_scheduler_predict.
  replace (is_null heap) with false by (symmetry; apply Z.eqb_neq; exact Hheap).
  eexists. exists (predict_qubit g i q). cbn [predictions].
  split; [reflexivity|].
  split; [rewrite list_lookup_imap, Hq; reflexivity|].
  unfold predict_qubit, lookup_learned_time, estimate_complexity.
  rewrite lookup_in_first_match. fold (patterns_in_use g).
  assert (Hmax : forall t, (if t <? 1 then 1 else t) = Z.max 1 t).
  { intros t. destruct (t <? 1) eqn:E; [apply Z.ltb_lt in E | apply Z.ltb_ge in E]; lia. }
  destruct (first_match (patterns_in_use g) (qb_result_size q)) as [pat|].
  - destruct (avg_time_ms pat >? 0); cbn; rewrite ?Hmax; repeat split.
  - cbn. rewrite Hmax. repeat split.
Qed.

Lemma quantum_scheduler_predict_times_witness :
  exists p,
    Sched.predictions (quantum_scheduler_predict scheduler_knows_4 one_with_buffer 16384)
    = Some [p] /\
    predicted_time_ms p = 7 /\ confidence p = F32.lit 8 10 /\ complexity_score p = 40.
Proof.
  destruct (quantum_scheduler_predict_times scheduler_knows_4 one_with_buffer 16384 O
              (set_qb_result_size 4 (set_qb_result 12288
                 (init_fields (Some store42) 256 (set_qb_id 0 zero_qubit)))))
    as (ps & p & Hps & Hp & _ & Hc & Hm); [discriminate | reflexivity |].
  exists p. cbn in Hm. destruct Hm as [Ht Hf].
  assert (E : Some ps = Some [predict_qubit scheduler_knows_4 0
                                (set_qb_result_size 4 (set_qb_result 12288
                                   (init_fields (Some store42) 256 (set_qb_id 0 zero_qubit))))])
    by (rewrite <- Hps; reflexivity).
  inversion E; subst ps. cbn in Hp. inversion Hp; subst p.
  repeat split.
Defined.

(** C9 as stated fails. With no learned pattern at all, as the scheduler
    starts, a qubit of [result_size] 4 is predicted 1 ms, not 4 * 10 = 40 ms
    (40 is its complexity score). And once the scheduler has learnt from a run
    of that register, whose measured duration is 0, the table holds a pattern
    for size 4 and the prediction is still the heuristic 1 ms at confidence
    0.3, not the pattern's average at 0.8. *)
Lemma heuristic_prediction_is_not_ten_times_size :
  List.map qb_result_size (reg_qubits one_with_buffer) = [4] /\
  patterns_in_use g_scheduler = [] /\
  List.map (fun p => (predicted_time_ms p, complexity_score p))
      (default [] (predictions (quantum_scheduler_predict g_scheduler one_with_buffer 16384)))
  = [(1, 40)] /\
  List.map (fun p => predicted_time_ms p =? 4 * 10)
      (default [] (predictions (quantum_scheduler_predict g_scheduler one_with_buffer 16384)))
  = [false] /\
  patterns_in_use scheduler_after_learning = [mkPattern 4 0 1] /\
  List.map (fun p => (predicted_time_ms p, F32.eqb (confidence p) (F32.lit 3 10)))
      (default [] (predictions
                     (quantum_scheduler_predict scheduler_after_learning one_with_buffer
                                                16384)))
  = [(1, true)].
Proof. vm_compute. repeat split. Qed.

End Scheduler.

Section Learning.
Import Mach Reg Samples Observer.

Lemma best_match_from_bound p db : forall i best bs j s,
  best_match_from p db i best bs = (Some j, s) ->
  best = Some j \/ (i <= j < i + length db)%nat.
Proof.
  induction db as [|e rest IH]; intros i best bs j s H; simpl in H.
  - inversion H. left. reflexivity.
  - destruct (F32.gtb (profile_similarity p (profile e)) bs).
    + apply IH in H as [H | H]; [inversion H; subst|]; right; simpl; lia.
    + apply IH in H as [H | H]; [left; exact H | right; simpl; lia].
Qed.

Lemma create_entry_lookup g p heap i g1 :
  db_wf g ->
  create_entry g p heap = (Some i, g1) ->
  learning_db g !! i = None /\ learning_db g1 !! i = Some (new_entry p).
Proof.
  unfold db_wf, create_entry. intros Hwf H.
  assert (Hi : Z.to_nat (db_size g) = length (learning_db g)) by lia.
  destruct (db_size g >=? db_capacity g).
  - destruct (is_null heap); [discriminate|].
    inversion H; subst. cbn [learning_db]. rewrite Hi. split.
    + apply lookup_ge_None. lia.
    + rewrite lookup_app_r by lia. rewrite Nat.sub_diag. reflexivity.
  - inversion H; subst. cbn [learning_db]. rewrite Hi. split.
    + apply lookup_ge_None. lia.
    + rewrite lookup_app_r by lia. rewrite Nat.sub_diag. reflexivity.
Qed.

Lemma find_or_create_lookup g p heap i g1 :
  db_wf g ->
  find_or_create_entry g p heap = (Some i, g1) ->
  exists e, learning_db g1 !! i = Some e /\
            observation_count e
            = match learning_db g !! i with
              | Some e0 => observation_count e0
              | None => 0
              end.
Proof.
  intros Hwf. unfold find_or_create_entry.
  destruct (best_match_from p (learning_db g) 0 None F32.zero) as [[j|] bs] eqn:Eb.
  - destruct (F32.geb bs PROFILE_MATCH_THRESHOLD).
    + intros H. inversion H; subst.
      apply best_match_from_bound in Eb as [Eb | Eb]; [discriminate|].
      destruct (lookup_lt_is_Some_2 (learning_db g1) i) as [e He]; [lia|].
      exists e. rewrite He. split; reflexivity.
    + intros H. destruct (create_entry_lookup g p heap i g1 Hwf H) as [Hn Hs].
      exists (new_entry p). rewrite Hn. split; [exact Hs | reflexivity].
  - intros H. destruct (create_entry_lookup g p heap i g1 Hwf H) as [Hn Hs].
    exists (new_entry p). rewrite Hn. split; [exact Hs | reflexivity].
Qed.

(** C2, as amended. After a [quantum_ai_observe_complete] that updates an
    entry, the entry's observation count [n] is one more than before (1 for an
    entry just created) and its confidence is [n / 10] while [n < 10] and
    [1 - 1/n] from [n = 10] on, in single precision; after the 10th observation
    it is 0.9. *)
Theorem observe_complete_confidence_ramp :
  forall (g : quantum_ai_observer_t) (r : QARMA_QUANTUM_REGISTER) (elapsed_ms : Z)
         (quality : F32.t) (heap : ptr) (g' : quantum_ai_observer_t) (i : nat),
    db_wf g ->
    quantum_ai_observe_complete g r elapsed_ms quality heap = (g', Some i) ->
    exists e',
      learning_db g' !! i = Some e' /\
      observation_count e'
      = u32 (match learning_db g !! i with
             | Some e => observation_count e
             | None => 0
             end + 1) /\
      confidence e'
      = (if observation_count e' >=? 10
         then F32.sub F32.one (F32.div F32.one (F32.of_Z (observation_count e')))
         else F32.div (F32.of_Z (observation_count e')) (F32.of_Z 10)) /\
      (observation_count e' = 10 -> confidence e' = F32.lit 9 10).
Proof.
  intros g r elapsed_ms quality heap g' i Hwf. unfold quantum_ai_observe_complete.
  destruct (enabled g); cbn [negb]; [|discriminate].
  destruct (find_or_create_entry g (quantum_ai_profile_register r) heap)
    as [[j|] g1] eqn:Ef; [|discriminate].
  intros H. inversion H; subst. clear H.
  destruct (find_or_create_lookup _ _ _ _ _ Hwf Ef) as (e & He & Hcount).
  exists (observe_entry r elapsed_ms quality (total_observations g1) e).
  cbn [learning_db]. split.
  { rewrite list_lookup_alter_eq, He. reflexivity. }
  cbn [observe_entry observation_count confidence]. rewrite Hcount.
  split; [reflexivity|]. split; [reflexivity|].
  intros ->. reflexivity.
Qed.

Lemma observed_wf : db_wf (observed 9).
Proof. reflexivity. Defined.

Lemma observe_complete_confidence_ramp_witness :
  exists e',
    learning_db (observed 10) !! O = Some e' /\
    observation_count e' = 10 /\ confidence e' = F32.lit 9 10.
Proof.
  destruct (observe_complete_confidence_ramp (observed 9) one_with_buffer_run 1 F32.one
              20480 (observed 10) O observed_wf)
    as (e' & He & Hn & _ & H10).
  { vm_compute. reflexivity. }
  assert (Hten : observation_count e' = 10) by (rewrite Hn; vm_compute; reflexivity).
  exists e'. split; [exact He|]. split; [exact Hten | exact (H10 Hten)].
Defined.

(** C2 as stated fails: after the 10th observation of the same workload
    profile the entry's confidence is 0.9, the value [1 - 1/10] rounds to, and
    not [min(1, 10/10)] = 1.0; it is still below 1.0 after the 11th. *)
Lemma confidence_after_ten_observations_is_not_one :
  List.map (fun e => (observation_count e,
                      F32.eqb (confidence e) (F32.lit 9 10),
                      F32.eqb (confidence e) F32.one))
           (learning_db (observed 10))
  = [(10, true, false)] /\
  List.map (fun e => (observation_count e, F32.ltb (confidence e) F32.one))
           (learning_db (observed 11))
  = [(11, true)].
Proof. vm_compute. split; reflexivity. Qed.

End Learning.

Section SingleSwitch.
Import Mach Reg Samples Observer Adaptive.

Lemma check_policy_step g r st :
  switched_once st ->
  exists st',
    reg_adaptive_state (snd (check_policy g r st)) = Some st' /\
    switched_once st' /\
    switch_count st' = switch_count st + (if fst (check_policy g r st) then 1 else 0) /\
    (has_switched st = true -> has_switched st' = true) /\
    (policy_fires r st = true -> has_switched st' = true).
Proof.
  intros Hinv. unfold check_policy. cbv zeta.
  change (policy_fires r
            (mkAdaptive (policy st) (thresholds st) (execution_start_time st)
               (current_time_of st) (switch_count st) (original_strategy st)
               (current_strategy st) (has_switched st) (completed_at_last_check st)
               (failed_at_last_check st) (current_quality st)))
    with (policy_fires r st).
  cbn [has_switched switch_count].
  destruct (policy_fires r st) eqn:Hf; cbn [andb].
  - destruct Hinv as [[Hh Hc] | [Hh Hc]]; rewrite Hh; cbn [negb].
    + eexists. cbn [fst snd reg_adaptive_state set_reg_adaptive_state].
      split; [reflexivity|]. cbn [has_switched switch_count]. rewrite Hc.
      split; [right; split; reflexivity|].
      split; [reflexivity|]. split; reflexivity.
    + eexists. cbn [fst snd reg_adaptive_state set_reg_adaptive_state].
      split; [reflexivity|]. cbn [has_switched switch_count].
      split; [right; split; first [assumption | reflexivity]|].
      split; [lia|]. split; intros _; reflexivity.
  - eexists. cbn [fst snd reg_adaptive_state set_reg_adaptive_state].
    split; [reflexivity|]. cbn [has_switched switch_count].
    split; [exact Hinv|]. split; [lia|]. split; [intros H; exact H | discriminate].
Qed.

Lemma check_step g r st :
  reg_adaptive_state r = Some st ->
  switched_once st ->
  exists st',
    reg_adaptive_state (snd (quantum_adaptive_check g r)) = Some st' /\
    switched_once st' /\
    switch_count st'
    = switch_count st + (if fst (quantum_adaptive_check g r) then 1 else 0) /\
    (has_switched st = true -> has_switched st' = true) /\
    (check_decides r = true -> trigger_fires r = true -> has_switched st' = true).
Proof.
  intros Hst Hinv. unfold quantum_adaptive_check, check_decides, trigger_fires.
  rewrite Hst.
  assert (Hskip : forall b : bool, b = false ->
             exists st',
               reg_adaptive_state (snd (false, r)) = Some st' /\ switched_once st' /\
               switch_count st' = switch_count st + (if fst (false, r) then 1 else 0) /\
               (has_switched st = true -> has_switched st' = true) /\
               (b = true -> policy_fires r st = true -> has_switched st' = true)).
  { intros b ->. exists st. cbn [fst snd].
    split; [exact Hst|]. split; [exact Hinv|]. split; [lia|].
    split; [intros H; exact H | discriminate]. }
  destruct (reg_executing r); cbn [negb andb]; [|apply Hskip; reflexivity].
  destruct (policy_is_none (policy st)); cbn [negb andb]; [apply Hskip; reflexivity|].
  destruct (check_due st); cbn [negb]; [|apply Hskip; reflexivity].
  destruct (check_policy_step g r st Hinv) as (st' & H1 & H2 & H3 & H4 & H5).
  exists st'. repeat split; try assumption. intros _. exact H5.
Qed.

Lemma at_progress_state pg r : reg_adaptive_state (at_progress pg r) = reg_adaptive_state r.
Proof. reflexivity. Qed.

Lemma count_true_cons b bs : count_true (b :: bs) = (if b then 1 else 0) + count_true bs.
Proof. unfold count_true. destruct b; cbn [List.filter length]; lia. Qed.

Lemma count_true_nonneg bs : 0 <= count_true bs.
Proof. unfold count_true. lia. Qed.

Lemma run_checks_invariant g points : forall r st,
  reg_adaptive_state r = Some st ->
  switched_once st ->
  exists st',
    reg_adaptive_state (fst (run_checks g points r)) = Some st' /\
    switched_once st' /\
    switch_count st' = switch_count st + count_true (snd (run_checks g points r)) /\
    (has_switched st = true -> has_switched st' = true) /\
    (fires_at_every_check g points r = true -> some_check_decides g points r = true ->
     has_switched st' = true).
Proof.
  induction points as [|pg rest IH]; intros r st Hst Hinv.
  - exists st. cbn. split; [exact Hst|]. split; [exact Hinv|].
    split; [unfold count_true; cbn; lia|]. split; [intros H; exact H | discriminate].
  - cbn [run_checks fires_at_every_check some_check_decides].
    destruct (check_step g (at_progress pg r) st (eq_trans (at_progress_state pg r) Hst) Hinv)
      as (st1 & H1 & Hinv1 & Hc1 & Hs1 & Hf1).
    destruct (quantum_adaptive_check g (at_progress pg r)) as [b r1] eqn:Ec.
    cbn [fst snd] in *.
    destruct (IH r1 st1 H1 Hinv1) as (st' & H2 & Hinv2 & Hc2 & Hs2 & Hf2).
    destruct (run_checks g rest r1) as [r2 bs] eqn:Er.
    cbn [fst snd] in *.
    exists st'. split; [exact H2|]. split; [exact Hinv2|].
    split; [rewrite count_true_cons; lia|].
    split; [intros H; apply Hs2, Hs1, H|].
    intros Hall Hsome. apply andb_true_iff in Hall as [Himp Hall].
    destruct (check_decides (at_progress pg r)) eqn:Hd; cbn [implb orb] in *.
    + apply Hs2. apply Hf1; [reflexivity | exact Himp].
    + apply Hf2; assumption.
Qed.

Lemma init_no_switch_yet r pol heap :
  heap <> NULL -> no_switch_yet (quantum_adaptive_init r pol heap).
Proof.
  intros Hh. unfold quantum_adaptive_init.
  replace (is_null heap) with false by (symmetry; apply Z.eqb_neq; exact Hh).
  rewrite andb_false_r. eexists. cbn. repeat split.
Qed.

Lemma reset_no_switch_yet r st :
  reg_adaptive_state r = Some st -> no_switch_yet (quantum_adaptive_reset r).
Proof.
  intros Hst. unfold quantum_adaptive_reset. rewrite Hst. eexists. cbn. repeat split.
Qed.

(** C8. [quantum_adaptive_init] and [quantum_adaptive_reset] leave the adaptive
    state with no switch recorded. From such a state, over the checks of one
    execution, at most one check switches the strategy and [switch_count] ends
    equal to the number of checks that switched; and when the trigger condition
    holds at every check that gets to evaluate it, and at least one does, then
    [switch_count] ends at exactly 1. *)
Theorem quantum_adaptive_switches_at_most_once :
  (forall r pol heap, heap <> NULL -> no_switch_yet (quantum_adaptive_init r pol heap)) /\
  (forall r st, reg_adaptive_state r = Some st -> no_switch_yet (quantum_adaptive_reset r)) /\
  (forall (g : quantum_ai_observer_t) (points : list progress) (r : QARMA_QUANTUM_REGISTER),
     no_switch_yet r ->
     exists st',
       reg_adaptive_state (fst (run_checks g points r)) = Some st' /\
       count_true (snd (run_checks g points r)) <= 1 /\
       switch_count st' = count_true (snd (run_checks g points r)) /\
       (fires_at_every_check g points r = true -> some_check_decides g points r = true ->
        switch_count st' = 1)).
Proof.
  split; [exact init_no_switch_yet|]. split; [exact reset_no_switch_yet|].
  intros g points r (st & Hst & Hh & Hc).
  destruct (run_checks_invariant g points r st Hst (or_introl (conj Hh Hc)))
    as (st' & H1 & Hinv & Hcount & _ & Hf).
  exists st'. split; [exact H1|].
  pose proof (count_true_nonneg (snd (run_checks g points r))) as Hnn.
  assert (Hle : switch_count st' <= 1) by (destruct Hinv as [[_ E] | [_ E]]; lia).
  split; [lia|]. split; [lia|].
  intros Hall Hsome. specialize (Hf Hall Hsome).
  destruct Hinv as [[E _] | [_ E]]; [congruence | exact E].
Qed.

Lemma quantum_adaptive_switches_at_most_once_witness :
  no_switch_yet adaptive_reg_eager /\
  fires_at_every_check quantum_ai_init failing_run adaptive_reg_eager = true /\
  some_check_decides quantum_ai_init failing_run adaptive_reg_eager = true /\
  snd (run_checks quantum_ai_init failing_run adaptive_reg_eager) = [true; false; false] /\
  exists st', reg_adaptive_state (fst (run_checks quantum_ai_init failing_run
                                                   adaptive_reg_eager)) = Some st' /\
              switch_count st' = 1.
Proof.
  assert (Hn : no_switch_yet adaptive_reg_eager).
  { eexists. split; [reflexivity|]. split; reflexivity. }
  assert (Hall : fires_at_every_check quantum_ai_init failing_run adaptive_reg_eager = true)
    by (vm_compute; reflexivity).
  assert (Hsome : some_check_decides quantum_ai_init failing_run adaptive_reg_eager = true)
    by (vm_compute; reflexivity).
  split; [exact Hn|]. split; [exact Hall|]. split; [exact Hsome|].
  split; [vm_compute; reflexivity|].
  destruct quantum_adaptive_switches_at_most_once as (_ & _ & H).
  destruct (H quantum_ai_init failing_run adaptive_reg_eager Hn) as (st' & Hst & _ & _ & Hone).
  exists st'. split; [exact Hst | exact (Hone Hall Hsome)].
Defined.

End SingleSwitch.

Section RegisterLifecycle.
Import Mach Reg Api Samples.


Lemma alloc_slots_fits e n :
  0 < e -> 0 <= n -> e * n < 2 ^ 32 -> alloc_slots e n = n.
Proof.
  intros He Hn Hfit. unfold alloc_slots, u32.
  rewrite Z.mod_small by nia. rewrite Z.mul_comm. apply Z.div_mul. lia.
Qed.

Lemma alloc_slots_wraps e n :
  0 < e -> 2 ^ 32 <= e * n -> 0 <= alloc_slots e n < n.
Proof.
  intros He Hw. unfold alloc_slots, u32.
  pose proof (Z.mod_pos_bound (e * n) (2 ^ 32) ltac:(lia)) as Hb.
  split; [apply Z.div_pos; lia|].
  apply Z.div_lt_upper_bound; [exact He | lia].
Qed.



(** The count at which the byte count of the qubit array first exceeds
    [size_t]: the register then has 4 bytes of qubit array, no slot. *)
Example register_create_wraps_at_82595525 :
  SIZEOF_QARMA_QUBIT * 82595525 = 2 ^ 32 + 4 /\
  match qarma_quantum_register_create 82595525 4096 8192 with
  | Some r => reg_count r = 82595525 /\ reg_qubits r = []
  | None => False
  end.
Proof. split; [reflexivity|]. vm_compute. split; reflexivity. Qed.

Lemma reset_lookup (r : QARMA_QUANTUM_REGISTER) i :
  reg_qubits (qarma_quantum_register_reset r) !! i = reset_qubit <$> (reg_qubits r !! i).
Proof. unfold qarma_quantum_register_reset. cbn [reg_qubits set_reg_qubits set_reg_times
  set_reg_executing set_reg_collapsed set_reg_failed_count set_reg_completed_count].
  apply list_lookup_fmap. Qed.

(** X2. [qarma_quantum_register_reset] zeroes the counters and clears
    [collapsed] and [executing]; every qubit is Pending again and keeps its
    enabled flag, function, data, result buffer and id; the strategy and the
    output buffer are kept. So whatever the register went through, after a
    reset [qarma_quantum_execute] is applied in lifecycle order, and a collapse
    is computed anew instead of being served from the cache. *)
Theorem register_reset_keeps_configuration :
  forall (r : QARMA_QUANTUM_REGISTER) (m : mem) (ctx_alloc : nat -> ptr),
    let r' := qarma_quantum_register_reset r in
    reg_completed_count r' = 0 /\ reg_failed_count r' = 0 /\
    reg_collapsed r' = false /\ reg_executing r' = false /\
    reg_strategy r' = reg_strategy r /\ reg_collapse_output r' = reg_collapse_output r /\
    length (reg_qubits r') = length (reg_qubits r) /\
    (forall i q, reg_qubits r !! i = Some q ->
       exists q', reg_qubits r' !! i = Some q' /\
         qb_status q' = QUBIT_STATUS_PENDING /\ qb_enabled q' = qb_enabled q /\
         qb_function q' = qb_function q /\ qb_data q' = qb_data q /\
         qb_result q' = qb_result q /\ qb_result_size q' = qb_result_size q /\
         qb_id q' = qb_id q) /\
    op_in_order (OpExecute ctx_alloc) (r', m) = true.
Proof.
  intros r m ctx_alloc r'. subst r'.
  repeat (split; [reflexivity|]).
  split; [unfold qarma_quantum_register_reset; cbn; apply length_map|].
  split.
  - intros i q Hq. exists (reset_qubit q). rewrite reset_lookup, Hq.
    repeat split.
  - cbn [op_in_order fst]. apply forallb_forall. intros q Hin.
    unfold qarma_quantum_register_reset in Hin. cbn in Hin.
    apply in_map_iff in Hin as (q0 & <- & _). cbn. destruct (qb_enabled q0); reflexivity.
Qed.

End RegisterLifecycle.

Section ExecutionOutcome.
Import Mach Reg Api Samples.

Lemma dispatch_qubit_fields ctx i q st :
  let q' := fst (dispatch_qubit ctx i q st) in
  qb_enabled q' = qb_enabled q /\ qb_function q' = qb_function q /\
  qb_data q' = qb_data q /\ qb_result q' = qb_result q /\
  qb_result_size q' = qb_result_size q /\ qb_id q' = qb_id q.
Proof.
  unfold dispatch_qubit, qubit_execute_wrapper.
  destruct (qb_enabled q) eqn:E; cbn [negb].
  - destruct (is_null ctx); [cbn; rewrite E; repeat split|].
    destruct (qb_function q) eqn:F; cbn; rewrite ?E, ?F; repeat split.
  - cbn. rewrite E. repeat split.
Qed.

Lemma dispatch_qubit_counters ctx i q st :
  qb_enabled q = true -> qb_function q <> None ->
  0 <= ds_completed st -> 0 <= ds_failed st ->
  ds_completed st + 1 < 2 ^ 32 -> ds_failed st + 1 < 2 ^ 32 ->
  let st' := snd (dispatch_qubit ctx i q st) in
  ds_completed st' + ds_failed st' = ds_completed st + ds_failed st + 1 /\
  ds_completed st <= ds_completed st' /\ ds_failed st <= ds_failed st'.
Proof.
  intros He Hf H1 H2 H3 H4. unfold dispatch_qubit, qubit_execute_wrapper.
  rewrite He. cbn [negb].
  destruct (is_null ctx); cbn.
  - rewrite u32_small by lia. lia.
  - destruct (qb_function q); [|contradiction]. cbn. rewrite u32_small by lia. lia.
Qed.

Lemma count_enabled_bounds qs : 0 <= count_enabled qs <= Z.of_nat (length qs).
Proof.
  induction qs as [|q qs IH]; cbn [count_enabled length]; [lia|].
  destruct (qb_enabled q); lia.
Qed.

Lemma dispatch_loop_counters ctx_alloc qs : forall i st,
  Forall (fun q => qb_enabled q = true -> qb_function q <> None) qs ->
  0 <= ds_completed st -> 0 <= ds_failed st ->
  ds_completed st + ds_failed st + Z.of_nat (length qs) < 2 ^ 32 ->
  let '(qs', st') := dispatch_loop ctx_alloc i qs st in
  ds_completed st' + ds_failed st' = ds_completed st + ds_failed st + count_enabled qs /\
  ds_completed st <= ds_completed st' /\ ds_failed st <= ds_failed st' /\
  count_enabled qs' = count_enabled qs.
Proof.
  induction qs as [|q rest IH]; intros i st Hall Hc Hf Hlt; cbn [dispatch_loop].
  - cbn. lia.
  - inversion Hall as [|? ? Hq Hrest]; subst. cbn [length] in Hlt.
    pose proof (dispatch_qubit_fields (ctx_alloc i) i q st) as (Hen & _).
    destruct (qb_enabled q) eqn:E.
    + pose proof (dispatch_qubit_counters (ctx_alloc i) i q st E (Hq eq_refl)
                    Hc Hf ltac:(lia) ltac:(lia)) as (Hs & Hc1 & Hf1).
      destruct (dispatch_qubit (ctx_alloc i) i q st) as [q' st']. cbn [fst snd] in *.
      specialize (IH (S i) st' Hrest ltac:(lia) ltac:(lia) ltac:(lia)).
      destruct (dispatch_loop ctx_alloc (S i) rest st') as [rest' st''].
      cbn [count_enabled]. rewrite Hen, E. lia.
    + assert (Hst : snd (dispatch_qubit (ctx_alloc i) i q st)
                    = mkDispatch (ds_mem st) (ds_completed st) (ds_failed st)
                                 (ds_dispatched st)
                                 (ds_writes st ++ [(i, QUBIT_STATUS_SKIPPED)])).
      { unfold dispatch_qubit. rewrite E. reflexivity. }
      destruct (dispatch_qubit (ctx_alloc i) i q st) as [q' st']. cbn [fst snd] in *.
      subst st'. cbn [ds_completed ds_failed] in *.
      match goal with |- context [dispatch_loop ctx_alloc (S i) rest ?s] =>
        specialize (IH (S i) s Hrest) end.
      cbn [ds_completed ds_failed] in IH. specialize (IH Hc Hf ltac:(lia)).
      match goal with |- context [dispatch_loop ctx_alloc (S i) rest ?s] =>
        destruct (dispatch_loop ctx_alloc (S i) rest s) as [rest' st''] end.
      cbn [count_enabled]. rewrite Hen, E. lia.
Qed.

Lemma dispatch_loop_lookup ctx_alloc qs : forall i st k q,
  qs !! k = Some q ->
  exists q', fst (dispatch_loop ctx_alloc i qs st) !! k = Some q' /\
    qb_enabled q' = qb_enabled q /\ qb_function q' = qb_function q /\
    qb_data q' = qb_data q /\ qb_result q' = qb_result q /\ qb_id q' = qb_id q /\
    qb_status q' = List.last (qubit_writes (ctx_alloc (i + k)%nat) q) (qb_status q).
Proof.
  induction qs as [|q0 rest IH]; intros i st k q Hk; [discriminate|].
  cbn [dispatch_loop].
  pose proof (dispatch_qubit_fields (ctx_alloc i) i q0 st) as (H1 & H2 & H3 & H4 & _ & H6).
  pose proof (dispatch_qubit_spec (ctx_alloc i) i q0 st) as [_ Hs].
  destruct (dispatch_qubit (ctx_alloc i) i q0 st) as [q' st']. cbn [fst snd] in *.
  specialize (IH (S i) st').
  destruct (dispatch_loop ctx_alloc (S i) rest st') as [rest' st'']. cbn [fst] in *.
  destruct k as [|k].
  - inversion Hk; subst. exists q'. rewrite Nat.add_0_r. repeat split; assumption.
  - destruct (IH k q Hk) as (q1 & Hq1 & Hrest). exists q1.
    rewrite Nat.add_succ_r. split; [exact Hq1 | exact Hrest].
Qed.

(** X3. After [qarma_quantum_execute] on a register that was not executing and
    in which every enabled qubit has a function, the two counters add up to the
    number of enabled qubits, so the register is complete; it is no longer
    executing and not collapsed. Each qubit keeps its enabled flag, function
    and data, and ends Skipped if it is disabled, Failed if its context could
    not be allocated, Completed otherwise. *)
Theorem execute_leaves_register_complete :
  forall (ctx_alloc : nat -> ptr) (r : QARMA_QUANTUM_REGISTER) (m : mem),
    reg_wf r ->
    reg_executing r = false ->
    Forall (fun q => qb_enabled q = true -> qb_function q <> None) (reg_qubits r) ->
    let e := qarma_quantum_execute ctx_alloc r m in
    reg_completed_count (ex_reg e) + reg_failed_count (ex_reg e)
    = count_enabled (reg_qubits r) /\
    qarma_quantum_is_complete (ex_reg e) = true /\
    reg_executing (ex_reg e) = false /\ reg_collapsed (ex_reg e) = false /\
    forall i q, reg_qubits r !! i = Some q ->
      exists q', reg_qubits (ex_reg e) !! i = Some q' /\
        qb_enabled q' = qb_enabled q /\ qb_function q' = qb_function q /\
        qb_data q' = qb_data q /\
        qb_status q' = (if negb (qb_enabled q) then QUBIT_STATUS_SKIPPED
                        else if is_null (ctx_alloc i) then QUBIT_STATUS_FAILED
                        else QUBIT_STATUS_COMPLETED).
Proof.
  intros ctx_alloc r m [Hlen Hcount] Hex Hfun e. subst e.
  unfold qarma_quantum_execute. rewrite Hex.
  cbn [reg_qubits set_reg_failed_count set_reg_completed_count set_reg_collapsed
       set_reg_executing].
  pose proof (dispatch_loop_counters ctx_alloc (reg_qubits r) 0 (mkDispatch m 0 0 0 [])
                Hfun) as Hc.
  pose proof (dispatch_loop_lookup ctx_alloc (reg_qubits r) 0 (mkDispatch m 0 0 0 []))
    as Hl.
  destruct (dispatch_loop ctx_alloc 0 (reg_qubits r) (mkDispatch m 0 0 0 [])) as [qs st].
  cbn [ds_completed ds_failed fst] in *.
  destruct Hc as (Hsum & Hc0 & Hf0 & Hen); [lia | lia | lia |].
  cbn [ex_reg reg_completed_count reg_failed_count reg_executing reg_collapsed reg_qubits
       set_reg_executing set_reg_failed_count set_reg_completed_count set_reg_qubits].
  split; [lia|]. split.
  { unfold qarma_quantum_is_complete.
    cbn [reg_completed_count reg_failed_count reg_qubits
         set_reg_executing set_reg_failed_count set_reg_completed_count set_reg_qubits].
    rewrite Hen. replace (ds_completed st + ds_failed st) with (count_enabled (reg_qubits r))
      by lia.
    apply Z.geb_le. lia. }
  split; [reflexivity|]. split; [reflexivity|].
  intros i q Hq. destruct (Hl i q Hq) as (q' & Hq' & H1 & H2 & H3 & _ & _ & Hs).
  exists q'. split; [exact Hq'|]. split; [exact H1|]. split; [exact H2|]. split; [exact H3|].
  rewrite Hs. cbn [Nat.add]. unfold qubit_writes.
  destruct (qb_enabled q) eqn:E; cbn [negb]; [|reflexivity].
  destruct (is_null (ctx_alloc i)); [reflexivity|].
  rewrite List.Forall_forall in Hfun.
  assert (Hin : In q (reg_qubits r))
    by (apply list_elem_of_In; eapply list_elem_of_lookup_2; exact Hq).
  specialize (Hfun q Hin E). destruct (qb_function q); [reflexivity | contradiction].
Qed.

Lemma execute_leaves_register_complete_witness :
  reg_completed_count (ex_reg (qarma_quantum_execute (always 4096) one_of_two mem0)) = 1 /\
  qarma_quantum_is_complete (ex_reg (qarma_quantum_execute (always 4096) one_of_two mem0))
  = true.
Proof.
  destruct (execute_leaves_register_complete (always 4096) one_of_two mem0)
    as (_ & Hc & _).
  - split; [reflexivity | split; reflexivity].
  - reflexivity.
  - repeat constructor; discriminate.
  - split; [reflexivity | exact Hc].
Defined.

Lemma gather_after_dispatch ctx_alloc qs : forall i st,
  (forall j, is_null (ctx_alloc j) = false) ->
  Forall (fun q => qb_enabled q = true -> qb_function q <> None) qs ->
  gather_results (fst (dispatch_loop ctx_alloc i qs st))
  = List.map qb_data
      (List.filter (fun q => qb_enabled q && negb (is_null (qb_data q))) qs).
Proof.
  induction qs as [|q rest IH]; intros i st Hctx Hall; [reflexivity|].
  inversion Hall as [|? ? Hq Hrest]; subst. cbn [dispatch_loop].
  pose proof (dispatch_qubit_fields (ctx_alloc i) i q st) as (_ & _ & Hd & _).
  pose proof (dispatch_qubit_spec (ctx_alloc i) i q st) as [_ Hs].
  destruct (dispatch_qubit (ctx_alloc i) i q st) as [q' st']. cbn [fst snd] in *.
  specialize (IH (S i) st' Hctx Hrest).
  destruct (dispatch_loop ctx_alloc (S i) rest st') as [rest' st'']. cbn [fst] in *.
  cbn [gather_results List.filter]. rewrite Hs, Hd, IH.
  unfold qubit_writes. rewrite Hctx.
  destruct (qb_enabled q) eqn:E; cbn [negb andb].
  - destruct (qb_function q) eqn:F; [|exfalso; apply (Hq eq_refl); reflexivity].
    cbn [List.last status_eqb andb].
    destruct (negb (is_null (qb_data q))); reflexivity.
  - reflexivity.
Qed.

(** X4. When every context allocation succeeds and every enabled qubit has a
    function, the results a collapse gathers after [qarma_quantum_execute] are
    exactly the data pointers of the enabled qubits whose data is not NULL, in
    array order: a disabled qubit never contributes, whatever status it had
    before. *)
Theorem collapse_gathers_enabled_qubits_only :
  forall (ctx_alloc : nat -> ptr) (r : QARMA_QUANTUM_REGISTER) (m : mem),
    reg_executing r = false ->
    (forall j, ctx_alloc j <> NULL) ->
    Forall (fun q => qb_enabled q = true -> qb_function q <> None) (reg_qubits r) ->
    gather_results (reg_qubits (ex_reg (qarma_quantum_execute ctx_alloc r m)))
    = List.map qb_data
        (List.filter (fun q => qb_enabled q && negb (is_null (qb_data q))) (reg_qubits r)).
Proof.
  intros ctx_alloc r m Hex Hctx Hfun. unfold qarma_quantum_execute. rewrite Hex.
  cbn [reg_qubits set_reg_failed_count set_reg_completed_count set_reg_collapsed
       set_reg_executing].
  pose proof (gather_after_dispatch ctx_alloc (reg_qubits r) 0 (mkDispatch m 0 0 0 [])) as H.
  destruct (dispatch_loop ctx_alloc 0 (reg_qubits r) (mkDispatch m 0 0 0 [])) as [qs st].
  cbn [fst ex_reg reg_qubits set_reg_executing set_reg_failed_count
       set_reg_completed_count set_reg_qubits] in *.
  apply H; [|exact Hfun]. intros j. apply Z.eqb_neq. apply Hctx.
Qed.

Lemma collapse_gathers_enabled_qubits_only_witness :
  gather_results (reg_qubits (ex_reg (qarma_quantum_execute (always 4096) one_of_two mem0)))
  = [256].
Proof.
  rewrite (collapse_gathers_enabled_qubits_only (always 4096) one_of_two mem0).
  - reflexivity.
  - reflexivity.
  - intros j. discriminate.
  - repeat constructor; discriminate.
Defined.

(** X5. [qarma_quantum_wait] returns true exactly when one of the polls it
    gets to make finds the register complete, and it is still polling exactly
    when none of them does; the timeout plays no part in either. *)
Theorem wait_returns_at_first_complete_poll :
  forall (fuel : nat) (observe : nat -> QARMA_QUANTUM_REGISTER) (timeout : Z) (k : nat),
    (qarma_quantum_wait fuel observe timeout k = Some true <->
     exists j, (k <= j < k + fuel)%nat /\ qarma_quantum_is_complete (observe j) = true) /\
    (qarma_quantum_wait fuel observe timeout k = None <->
     forall j, (k <= j < k + fuel)%nat -> qarma_quantum_is_complete (observe j) = false).
Proof.
  induction fuel as [|fuel IH]; intros observe timeout k; cbn [qarma_quantum_wait].
  - split; split; try discriminate; try reflexivity.
    + intros (j & Hj & _). lia.
    + intros _ j Hj. lia.
  - destruct (qarma_quantum_is_complete (observe k)) eqn:E.
    + split; split; try discriminate.
      * intros _. exists k. split; [lia | exact E].
      * reflexivity.
      * intros H. specialize (H k ltac:(lia)). congruence.
    + destruct (IH observe timeout (S k)) as [IH1 IH2]. split.
      * rewrite IH1. split; intros (j & Hj & Hc).
        -- exists j. split; [lia | exact Hc].
        -- exists j. split; [|exact Hc].
           destruct (Nat.eq_dec j k) as [->|]; [congruence | lia].
      * rewrite IH2. split; intros H j Hj.
        -- destruct (Nat.eq_dec j k) as [->|]; [exact E | apply H; lia].
        -- apply H. lia.
Qed.

End ExecutionOutcome.

Section Selection.
Import Mach Reg Samples Select.

Lemma first_max_unique scores a b : first_max scores a -> first_max scores b -> a = b.
Proof.
  intros (va & Ha & Hmax_a & Hfirst_a) (vb & Hb & Hmax_b & Hfirst_b).
  destruct (Nat.lt_trichotomy a b) as [H | [H | H]]; [|exact H|].
  - pose proof (Hfirst_b a va H Ha). pose proof (Hmax_a b vb Hb). lia.
  - pose proof (Hfirst_a b vb H Hb). pose proof (Hmax_b a va Ha). lia.
Qed.

(** The scan, seen on the whole list: [pre] is the part already scanned and
    [(bi, b)] its first maximum. *)
Lemma argmax_from_first_max scores : forall pre bi b,
  pre !! bi = Some b ->
  (forall j x, pre !! j = Some x -> x <= b) ->
  (forall j x, (j < bi)%nat -> pre !! j = Some x -> x < b) ->
  first_max (pre ++ scores) (argmax_from scores (length pre) bi b).
Proof.
  induction scores as [|s rest IH]; intros pre bi b Hb Hmax Hfirst; cbn [argmax_from].
  - rewrite app_nil_r. exists b. auto.
  - replace (pre ++ s :: rest) with ((pre ++ [s]) ++ rest) by (rewrite <- app_assoc; reflexivity).
    replace (S (length pre)) with (length (pre ++ [s])) by (rewrite length_app; cbn; lia).
    destruct (s >? b) eqn:E.
    + apply Z.gtb_lt in E. apply IH.
      * rewrite lookup_app_r by lia. rewrite Nat.sub_diag. reflexivity.
      * intros j x Hj. apply lookup_app_Some in Hj as [Hj | [_ Hj]].
        -- pose proof (Hmax j x Hj). lia.
        -- apply list_lookup_singleton_Some in Hj as [_ <-]. lia.
      * intros j x Hlt Hj. rewrite lookup_app_l in Hj by exact Hlt.
        pose proof (Hmax j x Hj). lia.
    + assert (s <= b) by (destruct (Z.gtb_spec s b); [discriminate | lia]).
      apply IH.
      * rewrite lookup_app_l by (eapply lookup_lt_Some; exact Hb). exact Hb.
      * intros j x Hj. apply lookup_app_Some in Hj as [Hj | [_ Hj]].
        -- apply (Hmax j x Hj).
        -- apply list_lookup_singleton_Some in Hj as [_ <-]. lia.
      * intros j x Hlt Hj.
        assert (j < length pre)%nat by (apply lookup_lt_Some in Hb; lia).
        rewrite lookup_app_l in Hj by assumption. apply (Hfirst j x Hlt Hj).
Qed.

Lemma argmax_first_first_max scores : scores <> [] -> first_max scores (argmax_first scores).
Proof.
  destruct scores as [|s0 rest]; [contradiction|]. intros _. cbn [argmax_first].
  apply (argmax_from_first_max rest [s0] 0%nat s0).
  - reflexivity.
  - intros [|j] x Hj; [inversion Hj; lia | discriminate].
  - intros j x Hlt. lia.
Qed.

Lemma first_max_lt scores b : first_max scores b -> (b < length scores)%nat.
Proof. intros (v & Hv & _). eapply lookup_lt_Some. exact Hv. Qed.

Lemma argmax_from_in_range scores : forall i bi b,
  (bi < i)%nat -> (argmax_from scores i bi b < i + length scores)%nat.
Proof.
  induction scores as [|s rest IH]; intros i bi b Hlt; cbn [argmax_from length]; [lia|].
  destruct (s >? b).
  - specialize (IH (S i) i s ltac:(lia)). lia.
  - specialize (IH (S i) bi b ltac:(lia)). lia.
Qed.

Lemma argmax_from_zero_in_range scores b :
  scores <> [] -> (argmax_from scores 0 0 b < length scores)%nat.
Proof.
  destruct scores as [|s rest]; [contradiction|]. intros _. cbn [argmax_from length].
  destruct (s >? b).
  - pose proof (argmax_from_in_range rest 1 0 s ltac:(lia)). lia.
  - pose proof (argmax_from_in_range rest 1 0 b ltac:(lia)). lia.
Qed.

Lemma scores_of_length ev results m : length (scores_of ev results m) = length results.
Proof. apply length_map. Qed.

(** X6. With the Best strategy, an evaluator, an output buffer and
    [result_size > 0], the collapse copies into the output buffer the result
    whose score is highest, and among equal highest scores the first in array
    order. *)
Theorem best_copies_first_highest_score :
  forall (h : collapse_heap) (results : list ptr) (r : QARMA_QUANTUM_REGISTER) (m : mem)
         (ev : qarma_evaluate_func_t),
    results <> [] ->
    reg_strategy r = COLLAPSE_BEST ->
    reg_evaluate r = Some ev ->
    reg_collapse_output r <> NULL ->
    0 < reg_result_size r ->
    exists b,
      first_max (scores_of ev results m) b /\
      apply_strategy h results r m
      = (r, memcpy m (reg_collapse_output r) (result_at results b) (reg_result_size r)) /\
      load_bytes (snd (apply_strategy h results r m)) (reg_collapse_output r)
                 (Z.to_nat (reg_result_size r))
      = load_bytes m (result_at results b) (Z.to_nat (reg_result_size r)).
Proof.
  intros h results r m ev Hne Hs He Hout Hsize.
  exists (argmax_first (scores_of ev results m)).
  split.
  { apply argmax_first_first_max. destruct results; [contradiction | discriminate]. }
  assert (E : apply_strategy h results r m
              = (r, memcpy m (reg_collapse_output r)
                           (result_at results (argmax_first (scores_of ev results m)))
                           (reg_result_size r))).
  { unfold apply_strategy.
    replace (Z.of_nat (length results) >? 0) with true
      by (symmetry; apply Z.gtb_lt; destruct results; [contradiction | cbn; lia]).
    cbn [negb]. rewrite Hs, He.
    replace (is_null (reg_collapse_output r)) with false
      by (symmetry; apply Z.eqb_neq; exact Hout).
    replace (reg_result_size r >? 0) with true by (symmetry; apply Z.gtb_lt; lia).
    reflexivity. }
  split; [exact E|]. rewrite E. cbn [snd]. apply load_memcpy.
Qed.

Lemma argmax_from_sentinel scores : forall pre bi b,
  (forall j x, pre !! j = Some x -> x <= b) ->
  Exists (fun s => b < s) scores ->
  first_max (pre ++ scores) (argmax_from scores (length pre) bi b).
Proof.
  induction scores as [|s rest IH]; intros pre bi b Hmax Hex; [inversion Hex|].
  cbn [argmax_from].
  replace (pre ++ s :: rest) with ((pre ++ [s]) ++ rest) by (rewrite <- app_assoc; reflexivity).
  replace (S (length pre)) with (length (pre ++ [s])) by (rewrite length_app; cbn; lia).
  destruct (s >? b) eqn:E.
  - apply Z.gtb_lt in E.
    replace (length pre) with (length (pre ++ [s]) - 1)%nat
      by (rewrite length_app; cbn; lia).
    apply argmax_from_first_max.
    + rewrite length_app. cbn. rewrite lookup_app_r by lia.
      replace (length pre + 1 - 1 - length pre)%nat with 0%nat by lia. reflexivity.
    + intros j x Hj. apply lookup_app_Some in Hj as [Hj | [_ Hj]].
      * pose proof (Hmax j x Hj). lia.
      * apply list_lookup_singleton_Some in Hj as [_ <-]. lia.
    + intros j x Hlt Hj. rewrite length_app in Hlt. cbn in Hlt.
      rewrite lookup_app_l in Hj by lia. pose proof (Hmax j x Hj). lia.
  - assert (s <= b) by (destruct (Z.gtb_spec s b); [discriminate | lia]).
    apply IH.
    + intros j x Hj. apply lookup_app_Some in Hj as [Hj | [_ Hj]].
      * apply (Hmax j x Hj).
      * apply list_lookup_singleton_Some in Hj as [_ <-]. lia.
    + inversion Hex; subst; [lia | assumption].
Qed.

Lemma fuzzy_pick_in_range scores : forall i c t,
  fuzzy_pick scores i c t = 0%nat \/
  (i <= fuzzy_pick scores i c t < i + length scores)%nat.
Proof.
  induction scores as [|s rest IH]; intros i c t; cbn [fuzzy_pick length]; [left; reflexivity|].
  destruct (c + s >=? t); [right; lia|].
  destruct (IH (S i) (c + s) t) as [H | H]; [left; exact H | right; lia].
Qed.

(** X7. [qarma_collapse_fuzzy], given a non-empty result list, an output buffer
    and an evaluator, always copies one of the results: the selected index is
    below the count on every path. When the draw seeded by the first score is
    below 70 and some score exceeds the initial maximum -999999, the result
    copied is the first with the highest score. *)
Theorem fuzzy_copies_one_of_the_results :
  forall (results : list ptr) (output : ptr) (size : Z) (ev : qarma_evaluate_func_t)
         (m : mem),
    results <> [] ->
    output <> NULL ->
    exists i,
      (i < length results)%nat /\
      qarma_collapse_fuzzy results output size (Some ev) m
      = memcpy m output (result_at results i) size /\
      (fuzzy_draw (nth 0 (scores_of ev results m) 0) < 70 ->
       Exists (fun s => -999999 < s) (scores_of ev results m) ->
       first_max (scores_of ev results m) i).
Proof.
  intros results output size ev m Hne Hout.
  unfold qarma_collapse_fuzzy.
  destruct results as [|r0 rest] eqn:Er; [contradiction|]. rewrite <- Er.
  replace (is_null output) with false by (symmetry; apply Z.eqb_neq; exact Hout).
  fold (scores_of ev results m). fold (fuzzy_draw (nth 0 (scores_of ev results m) 0)).
  assert (Hlen : length (scores_of ev results m) = length results) by apply scores_of_length.
  assert (Hpos : (0 < length results)%nat) by (rewrite Er; cbn; lia).
  assert (Hsne : scores_of ev results m <> []).
  { intros E. rewrite E in Hlen. cbn in Hlen. lia. }
  destruct (fuzzy_draw (nth 0 (scores_of ev results m) 0) <? 70) eqn:Ed.
  - eexists. split; [|split; [reflexivity|]].
    + rewrite <- Hlen. apply argmax_from_zero_in_range. exact Hsne.
    + intros _ Hex.
      apply (argmax_from_sentinel (scores_of ev results m) [] 0%nat (-999999)).
      * intros j x Hj. discriminate.
      * exact Hex.
  - apply Z.ltb_ge in Ed.
    destruct (sum_Z (scores_of ev results m) >? 0).
    + eexists. split; [|split; [reflexivity | intros; lia]].
      destruct (fuzzy_pick_in_range (scores_of ev results m) 0 0
                  (u32 (fuzzy_draw (nth 0 (scores_of ev results m) 0)
                        * u32 (sum_Z (scores_of ev results m))) / 100)) as [-> | H]; lia.
    + eexists. split; [|split; [reflexivity | intros; lia]].
      assert (0 <= fuzzy_draw (nth 0 (scores_of ev results m) 0)
                   mod Z.of_nat (length results) < Z.of_nat (length results))
        by (apply Z.mod_pos_bound; lia).
      lia.
Qed.

(** X8. [qarma_collapse_multidim] copies the result whose weighted aggregate
    score is highest, the first of them in array order; without criteria, or
    when its score array cannot be allocated, it copies [results[0]]. *)
Theorem multidim_copies_first_highest_aggregate :
  forall (results : list ptr) (output : ptr) (size : Z)
         (criteria : option QARMA_MULTIDIM_CRITERIA) (scratch : ptr) (m : mem),
    results <> [] ->
    output <> NULL ->
    match criteria with
    | Some c =>
        if is_null scratch then
          qarma_collapse_multidim results output size criteria scratch m
          = memcpy m output (result_at results 0) size
        else
          exists b,
            first_max (List.map (fun p => multidim_aggregate c p m) results) b /\
            qarma_collapse_multidim results output size criteria scratch m
            = memcpy m output (result_at results b) size
    | None =>
        qarma_collapse_multidim results output size criteria scratch m
        = memcpy m output (result_at results 0) size
    end.
Proof.
  intros results output size criteria scratch m Hne Hout.
  unfold qarma_collapse_multidim.
  destruct results as [|r0 rest] eqn:Er; [contradiction|]. rewrite <- Er.
  replace (is_null output) with false by (symmetry; apply Z.eqb_neq; exact Hout).
  destruct criteria as [c|]; [|rewrite Er; reflexivity].
  destruct (is_null scratch); [rewrite Er; reflexivity|].
  eexists. split; [|reflexivity].
  apply argmax_first_first_max. rewrite Er. discriminate.
Qed.

End Selection.

Section History.
Import Mach Reg Samples Select.



(** X9. [qarma_collapse_temporal], with a history whose score array has room
    for every result, an evaluator, an output buffer and its score arrays
    allocated, copies the first result with the highest blended score, and
    leaves a history whose size is at least the result count and whose first
    slots hold this round's scores; the slots beyond the result count are
    untouched.
    Where the history has no stored score to compare with, the blended scores
    are the current scores. *)
Theorem temporal_selects_and_records :
  forall (results : list ptr) (output : ptr) (size : Z) (ev : qarma_evaluate_func_t)
         (h : QARMA_TEMPORAL_HISTORY) (scratch : ptr) (m : mem),
    results <> [] -> output <> NULL -> scratch <> NULL ->
    (forall qh, th_quality_history h = Some qh -> (length results <= length qh)%nat) ->
    let scores := scores_of ev results m in
    exists b h',
      first_max (temporal_scores_of h scores) b /\
      qarma_collapse_temporal results output size (Some ev) (Some h) scratch m
      = (Some h', memcpy m output (result_at results b) size) /\
      th_history_size h' = Z.max (th_history_size h) (Z.of_nat (length results)) /\
      th_window_size h' = th_window_size h /\ th_trend_weight h' = th_trend_weight h /\
      match th_quality_history h with
      | None => th_quality_history h' = None /\ temporal_scores_of h scores = scores
      | Some qh =>
          (th_history_size h <= 0 -> temporal_scores_of h scores = scores) /\
          exists qh', th_quality_history h' = Some qh' /\ length qh' = length qh /\
            forall i old, qh !! i = Some old ->
              qh' !! i = Some (match scores !! i with Some s => s | None => old end)
      end.
Proof.
  intros results output size ev h scratch m Hne Hout Hscr Hroom scores.
  unfold qarma_collapse_temporal.
  replace (is_null output) with false by (symmetry; apply Z.eqb_neq; exact Hout).
  replace (is_null scratch) with false by (symmetry; apply Z.eqb_neq; exact Hscr).
  fold (scores_of ev results m). fold scores.
  assert (Hlen : length scores = length results) by apply scores_of_length.
  assert (Hpos : (0 < length results)%nat)
    by (destruct results; [contradiction | cbn; lia]).
  assert (Er : match results with
               | [] => (Some h, m)
               | _ :: _ =>
                   (Some (temporal_update h scores),
                    memcpy m output
                      (result_at results (argmax_first (temporal_scores_of h scores))) size)
               end
               = (Some (temporal_update h scores),
                  memcpy m output
                    (result_at results (argmax_first (temporal_scores_of h scores))) size))
    by (destruct results; [contradiction | reflexivity]).
  exists (argmax_first (temporal_scores_of h scores)), (temporal_update h scores).
  split.
  { apply argmax_first_first_max. intros E.
    assert (length (temporal_scores_of h scores) = length scores).
    { unfold temporal_scores_of. destruct (th_quality_history h); [|reflexivity].
      destruct (th_history_size h >? 0); [apply length_imap | reflexivity]. }
    rewrite E, Hlen in H. cbn in H. lia. }
  split; [exact Er|].
  unfold temporal_update. cbn [th_history_size th_window_size th_trend_weight
                               th_quality_history].
  split.
  { rewrite Hlen. destruct (th_history_size h <? Z.of_nat (length results)) eqn:E;
      [apply Z.ltb_lt in E | apply Z.ltb_ge in E]; lia. }
  split; [reflexivity|]. split; [reflexivity|].
  destruct (th_quality_history h) as [qh|] eqn:Eq.
  - split.
    + intros Hz. unfold temporal_scores_of. rewrite Eq.
      replace (th_history_size h >? 0) with false; [reflexivity|].
      symmetry. destruct (Z.gtb_spec (th_history_size h) 0); [lia | reflexivity].
    + eexists. split; [reflexivity|]. split; [apply length_imap|].
      intros i old Hi. rewrite list_lookup_imap, Hi. cbn. f_equal.
      destruct (scores !! i) as [s|] eqn:Es.
      * apply nth_lookup_Some with (d := old) in Es. exact Es.
      * apply lookup_ge_None in Es. apply nth_overflow. exact Es.
  - split; [reflexivity|]. unfold temporal_scores_of. rewrite Eq. reflexivity.
Qed.


End History.

Section Ensemble.
Import Mach Reg RegConfig Samples Select.

Lemma ensemble_select_in_range r strategy results m :
  results <> [] -> (ensemble_select r strategy results m < length results)%nat.
Proof.
  intros Hne.
  assert (Hpos : (0 < length results)%nat)
    by (destruct results; [contradiction | cbn; lia]).
  assert (Hbest : forall ev,
             (argmax_first (List.map (fun p => ev p m) results) < length results)%nat).
  { intros ev. rewrite <- (length_map (fun p => ev p m) results).
    apply first_max_lt, argmax_first_first_max.
    destruct results; [contradiction | discriminate]. }
  unfold ensemble_select. destruct strategy; try exact Hpos.
  - lia.
  - destruct (reg_evaluate r); [apply Hbest | exact Hpos].
  - destruct (reg_evaluate r) as [ev|]; [|exact Hpos].
    match goal with |- context [if ?c then _ else _] => destruct c eqn:E end;
      [|apply Hbest].
    match goal with |- (Z.to_nat (?x mod _) < _)%nat =>
      pose proof (Z.mod_pos_bound x (Z.of_nat (length results)) ltac:(lia)) end.
    lia.
  - destruct (reg_multidim r) as [c|]; [|exact Hpos].
    rewrite <- (length_map (fun p => multidim_aggregate c p m) results).
    apply argmax_from_zero_in_range. destruct results; [contradiction | discriminate].
  - destruct (reg_temporal r) as [h|]; [|exact Hpos].
    destruct (reg_evaluate r) as [ev|]; [|exact Hpos].
    match goal with |- (argmax_from ?l _ _ _ < _)%nat =>
      replace (length results) with (length l)
        by (rewrite length_imap; apply length_map);
      apply argmax_from_zero_in_range end.
    intros E. apply (f_equal length) in E. rewrite length_imap, length_map in E.
    cbn in E. lia.
Qed.

Lemma ensemble_votes_length r cfg results m n : forall s votes,
  length (ensemble_votes r cfg results m n s votes) = length votes.
Proof.
  induction n as [|n IH]; intros s votes; cbn [ensemble_votes]; [reflexivity|].
  rewrite IH. apply length_alter.
Qed.

Lemma lookup_repeat_Some (n : nat) (x y : Z) (i : nat) :
  repeat x n !! i = Some y -> y = x /\ (i < n)%nat.
Proof.
  revert i. induction n as [|n IH]; intros [|i] H; cbn in H; try discriminate.
  - inversion H. split; [reflexivity | lia].
  - apply IH in H as [-> Hi]. split; [reflexivity | lia].
Qed.

Lemma lookup_repeat_lt (n : nat) (x : Z) (i : nat) :
  (i < n)%nat -> repeat x n !! i = Some x.
Proof.
  revert i. induction n as [|n IH]; intros [|i] H; cbn; try lia; [reflexivity|].
  apply IH. lia.
Qed.

Lemma argmax_first_single_vote n k w :
  (k < n)%nat -> 0 < w ->
  argmax_first (alter (fun v => v + w) k (repeat 0 n)) = k.
Proof.
  intros Hk Hw.
  assert (Hne : alter (fun v => v + w) k (repeat 0 n) <> []).
  { intros E. apply (f_equal length) in E. rewrite length_alter, repeat_length in E.
    cbn in E. lia. }
  apply (first_max_unique _ _ _ (argmax_first_first_max _ Hne)).
  exists w. split.
  { rewrite list_lookup_alter_eq, (lookup_repeat_lt n 0 k Hk). reflexivity. }
  split.
  - intros j x Hj. destruct (Nat.eq_dec k j) as [<-|Hneq].
    + rewrite list_lookup_alter_eq, (lookup_repeat_lt n 0 k Hk) in Hj.
      inversion Hj. lia.
    + rewrite list_lookup_alter_ne in Hj by exact Hneq.
      apply lookup_repeat_Some in Hj as [-> _]. lia.
  - intros j x Hlt Hj. rewrite list_lookup_alter_ne in Hj by lia.
    apply lookup_repeat_Some in Hj as [-> _]. lia.
Qed.

Lemma argmax_first_no_vote n : argmax_first (repeat 0 n) = 0%nat.
Proof.
  destruct n as [|n]; [reflexivity|].
  assert (Hne : repeat 0 (S n) <> []) by (cbn; discriminate).
  apply (first_max_unique _ _ _ (argmax_first_first_max _ Hne)).
  exists 0. split; [reflexivity|]. split.
  - intros j x Hj. apply lookup_repeat_Some in Hj as [-> _]. lia.
  - intros j x Hlt. lia.
Qed.

(** X11. [qarma_collapse_ensemble], given a non-empty result list, an output
    buffer, a configuration of at most three sub-strategies and its vote array
    allocated, always copies one of the results. With a single sub-strategy of positive weight it copies the
    result that sub-strategy selects; with none it copies [results[0]]. *)
Theorem ensemble_copies_one_of_the_results :
  forall (results : list ptr) (output : ptr) (size : Z) (r : QARMA_QUANTUM_REGISTER)
         (cfg : QARMA_ENSEMBLE_CONFIG) (scratch : ptr) (m : mem),
    results <> [] -> output <> NULL -> scratch <> NULL ->
    reg_ensemble r = Some cfg ->
    length (ens_strategies cfg) = 3%nat -> length (ens_weights cfg) = 3%nat ->
    0 <= ens_num_strategies cfg <= 3 ->
    exists i,
      (i < length results)%nat /\
      qarma_collapse_ensemble results output size r scratch m
      = memcpy m output (result_at results i) size /\
      (ens_num_strategies cfg = 0 -> i = 0%nat) /\
      (forall s w ss ws,
         ens_num_strategies cfg = 1 -> ens_strategies cfg = s :: ss ->
         ens_weights cfg = w :: ws -> 0 < w ->
         i = ensemble_select r s results m).
Proof.
  intros results output size r cfg scratch m Hne Hout Hscr Hcfg Hls Hlw Hnum.
  assert (Hpos : (0 < length results)%nat)
    by (destruct results; [contradiction | cbn; lia]).
  set (votes := ensemble_votes r cfg results m (Z.to_nat (ens_num_strategies cfg)) 0
                               (repeat 0 (length results))).
  exists (argmax_first votes).
  assert (Hvl : length votes = length results).
  { unfold votes. rewrite ensemble_votes_length. apply repeat_length. }
  split.
  { rewrite <- Hvl. apply first_max_lt, argmax_first_first_max.
    intros E. rewrite E in Hvl. cbn in Hvl. lia. }
  split.
  { unfold qarma_collapse_ensemble. rewrite Hcfg.
    replace (is_null output) with false by (symmetry; apply Z.eqb_neq; exact Hout).
    replace (is_null scratch) with false by (symmetry; apply Z.eqb_neq; exact Hscr).
    destruct results; [contradiction | reflexivity]. }
  split.
  - intros Hz. unfold votes. rewrite Hz. cbn [Z.to_nat ensemble_votes].
    apply argmax_first_no_vote.
  - intros s w ss ws H1 Hs Hw Hwpos. unfold votes. rewrite H1.
    change (Z.to_nat 1) with 1%nat. cbn [ensemble_votes]. rewrite Hs, Hw. cbn [nth].
    apply argmax_first_single_vote; [|exact Hwpos].
    apply ensemble_select_in_range. exact Hne.
Qed.

(** X12. [qarma_quantum_set_ensemble] records, in order and from slot 0, the
    pairs whose strategy is a real strategy (below [COLLAPSE_STRATEGY_COUNT])
    and whose weight is positive, and counts them: a slot given the count
    enumerator or a non-positive weight is skipped, not stored. *)
Theorem set_ensemble_records_valid_pairs :
  forall (r : QARMA_QUANTUM_REGISTER) (s1 s2 s3 : QARMA_COLLAPSE_STRATEGY) (w1 w2 w3 : Z)
         (heap : ptr),
    match reg_ensemble r with
    | Some cfg => length (ens_strategies cfg) = 3%nat /\ length (ens_weights cfg) = 3%nat
    | None => heap <> NULL
    end ->
    let kept := valid_pairs [(s1, w1); (s2, w2); (s3, w3)] in
    exists cfg',
      reg_ensemble (qarma_quantum_set_ensemble r s1 w1 s2 w2 s3 w3 heap) = Some cfg' /\
      ens_num_strategies cfg' = Z.of_nat (length kept) /\
      firstn (length kept) (ens_strategies cfg') = List.map fst kept /\
      firstn (length kept) (ens_weights cfg') = List.map snd kept /\
      Forall (fun w => 0 < w) (firstn (length kept) (ens_weights cfg')).
Proof.
  intros r s1 s2 s3 w1 w2 w3 heap Hcfg kept.
  assert (Hex : exists cfg,
             length (ens_strategies cfg) = 3%nat /\ length (ens_weights cfg) = 3%nat /\
             qarma_quantum_set_ensemble r s1 w1 s2 w2 s3 w3 heap
             = RegConfig.set_reg_ensemble
                 (Some (ensemble_slot s3 w3
                          (ensemble_slot s2 w2
                             (ensemble_slot s1 w1
                                (mkEnsemble (ens_strategies cfg) (ens_weights cfg) 0))))) r).
  { unfold qarma_quantum_set_ensemble. destruct (reg_ensemble r) as [cfg|].
    - exists cfg. destruct Hcfg. auto.
    - replace (is_null heap) with false by (symmetry; apply Z.eqb_neq; exact Hcfg).
      eexists. split; [|split; [|reflexivity]]; reflexivity. }
  destruct Hex as (cfg & Hls & Hlw & ->).
  destruct (ens_strategies cfg) as [|a1 [|a2 [|a3 [|]]]]; try discriminate.
  destruct (ens_weights cfg) as [|b1 [|b2 [|b3 [|]]]]; try discriminate.
  eexists. split; [reflexivity|]. subst kept.
  unfold valid_pairs, ensemble_slot. cbn [List.filter fst snd ens_num_strategies
                                          ens_strategies ens_weights].
  assert (Hw : forall w, (w >? 0) = true -> 0 < w) by (intros w H; apply Z.gtb_lt in H; lia).
  destruct ((strategy_to_Z s1 <? strategy_to_Z COLLAPSE_STRATEGY_COUNT) && (w1 >? 0)) eqn:E1;
    destruct ((strategy_to_Z s2 <? strategy_to_Z COLLAPSE_STRATEGY_COUNT) && (w2 >? 0)) eqn:E2;
    destruct ((strategy_to_Z s3 <? strategy_to_Z COLLAPSE_STRATEGY_COUNT) && (w3 >? 0)) eqn:E3;
    cbn;
    repeat match goal with
           | H : _ && _ = true |- _ => apply andb_true_iff in H as [_ H]; apply Hw in H
           end;
    repeat split; repeat constructor; assumption.
Qed.

Lemma set_ensemble_records_valid_pairs_witness :
  exists cfg',
    reg_ensemble (qarma_quantum_set_ensemble (fresh 2) COLLAPSE_BEST 50
                    COLLAPSE_STRATEGY_COUNT 30 COLLAPSE_LAST_WINS 20 16384) = Some cfg' /\
    ens_num_strategies cfg' = 2 /\
    firstn 2 (ens_strategies cfg') = [COLLAPSE_BEST; COLLAPSE_LAST_WINS].
Proof.
  destruct (set_ensemble_records_valid_pairs (fresh 2) COLLAPSE_BEST COLLAPSE_STRATEGY_COUNT
              COLLAPSE_LAST_WINS 50 30 20 16384) as (cfg' & H1 & H2 & H3 & _).
  - cbn. discriminate.
  - exists cfg'. split; [exact H1|]. split; [exact H2 | exact H3].
Defined.

End Ensemble.

Section Ordering.
Import Mach Reg Sched SchedOrder Samples.

Variable swap : Z -> Z -> bool.
Hypothesis swap_asym : forall a b, swap a b = true -> swap b a = false.
Hypothesis swap_trans : forall a b c, swap a b = false -> swap b c = false -> swap a c = false.
Variable preds : list qubit_prediction_t.

Lemma swap_refl a : swap a a = false.
Proof. destruct (swap a a) eqn:E; [apply swap_asym in E as E'; congruence | reflexivity]. Qed.

Lemma time_of_valid idx :
  (Z.to_nat idx < length preds)%nat -> exists t, time_of preds idx = Some t.
Proof.
  intros H. unfold time_of.
  destruct (lookup_lt_is_Some_2 preds _ H) as [p ->]. eauto.
Qed.

Lemma compare_swap_spec order j a b :
  valid_order preds order -> order !! j = Some a -> order !! S j = Some b ->
  compare_swap swap preds order j
  = Some (if swap (time_at preds order j) (time_at preds order (S j))
          then <[S j := a]> (<[j := b]> order) else order).
Proof.
  intros Hv Ha Hb. unfold compare_swap, time_at. rewrite Ha, Hb.
  pose proof (proj1 (List.Forall_forall _ _) Hv) as Hin.
  destruct (time_of_valid a) as [ta Hta].
  { apply Hin. apply list_elem_of_In. eapply list_elem_of_lookup_2. exact Ha. }
  destruct (time_of_valid b) as [tb Htb].
  { apply Hin. apply list_elem_of_In. eapply list_elem_of_lookup_2. exact Hb. }
  rewrite Hta, Htb. reflexivity.
Qed.

(** One inner-loop step at [j]: what it keeps and what it establishes. *)
Lemma compare_swap_step order j :
  valid_order preds order -> (S j < length order)%nat ->
  exists order',
    compare_swap swap preds order j = Some order' /\
    order' ≡ₚ order /\
    length order' = length order /\
    swap (time_at preds order' j) (time_at preds order' (S j)) = false /\
    (forall p, p <> j -> p <> S j -> order' !! p = order !! p) /\
    (order' !! j = order !! j /\ order' !! S j = order !! S j \/
     order' !! j = order !! S j /\ order' !! S j = order !! j).
Proof.
  intros Hv Hlen.
  destruct (lookup_lt_is_Some_2 order j ltac:(lia)) as [a Ha].
  destruct (lookup_lt_is_Some_2 order (S j) Hlen) as [b Hb].
  rewrite (compare_swap_spec order j a b Hv Ha Hb).
  destruct (swap (time_at preds order j) (time_at preds order (S j))) eqn:Es.
  - eexists. split; [reflexivity|].
    assert (Hj : <[S j:=a]> (<[j:=b]> order) !! j = Some b).
    { rewrite list_lookup_insert_ne by lia. apply list_lookup_insert_eq. lia. }
    assert (HSj : <[S j:=a]> (<[j:=b]> order) !! S j = Some a).
    { apply list_lookup_insert_eq. rewrite length_insert. lia. }
    split; [apply Permutation_insert_swap; assumption|].
    split; [rewrite !length_insert; reflexivity|].
    split.
    { unfold time_at in *. rewrite Hj, HSj. rewrite Ha, Hb in Es.
      apply swap_asym. exact Es. }
    split.
    { intros p Hp1 Hp2. rewrite !list_lookup_insert_ne by lia. reflexivity. }
    right. rewrite Hj, HSj, Ha, Hb. split; reflexivity.
  - eexists. split; [reflexivity|]. split; [reflexivity|]. split; [reflexivity|].
    split; [exact Es|]. split; [reflexivity|]. left. split; reflexivity.
Qed.

Lemma valid_perm order order' : order' ≡ₚ order -> valid_order preds order -> valid_order preds order'.
Proof. intros Hp Hv. unfold valid_order. rewrite Hp. exact Hv. Qed.

(** The inner loop over positions [j .. j + n]: the entry that ends up at
    [j + n] is one that every entry from [lo] to [j + n] may stay before, the
    entries outside [j .. j + n] do not move, and those inside stay inside. *)
Lemma sort_inner_spec : forall n j order,
  valid_order preds order -> (j + n < length order)%nat ->
  (forall p, (p <= j)%nat -> swap (time_at preds order p) (time_at preds order j) = false) ->
  exists order',
    sort_inner swap preds n j order = Some order' /\
    order' ≡ₚ order /\
    length order' = length order /\
    (forall p, (p <= j + n)%nat ->
       swap (time_at preds order' p) (time_at preds order' (j + n)) = false) /\
    (forall p, (j + n < p)%nat -> order' !! p = order !! p) /\
    (forall p, (p <= j + n)%nat -> exists p', (p' <= j + n)%nat /\ order' !! p = order !! p').
Proof.
  induction n as [|n IH]; intros j order Hv Hlen Hlow; cbn [sort_inner].
  - exists order. rewrite Nat.add_0_r.
    split; [reflexivity|]. split; [reflexivity|]. split; [reflexivity|].
    split; [exact Hlow|]. split; [reflexivity|].
    intros p Hp. exists p. split; [exact Hp | reflexivity].
  - destruct (compare_swap_step order j Hv ltac:(lia))
      as (o1 & -> & Hperm1 & Hlen1 & Hkeep1 & Hout1 & Hcase1).
    assert (Htime : forall p, p <> j -> p <> S j -> time_at preds o1 p = time_at preds order p).
    { intros p H1 H2. unfold time_at. rewrite (Hout1 p H1 H2). reflexivity. }
    destruct (IH (S j) o1) as (o2 & Hrun & Hperm2 & Hlen2 & Hkeep2 & Hout2 & Hin2).
    + apply (valid_perm _ _ Hperm1 Hv).
    + lia.
    + intros p Hp. destruct (Nat.eq_dec p (S j)) as [->|Hne1]; [apply swap_refl|].
      destruct (Nat.eq_dec p j) as [->|Hne2]; [exact Hkeep1|].
      (* p < j: compare through the entry now at j or at S j *)
      destruct Hcase1 as [[Hj HSj] | [Hj HSj]].
      * apply (swap_trans _ (time_at preds o1 j)); [|exact Hkeep1].
        rewrite (Htime p Hne2 Hne1). unfold time_at at 2. rewrite Hj.
        apply (Hlow p). lia.
      * rewrite (Htime p Hne2 Hne1). unfold time_at at 2. rewrite HSj.
        apply (Hlow p). lia.
    + exists o2. split; [exact Hrun|].
      split; [rewrite Hperm2; exact Hperm1|].
      split; [lia|].
      replace (j + S n)%nat with (S j + n)%nat by lia.
      split; [exact Hkeep2|].
      split.
      { intros p Hp. rewrite (Hout2 p Hp). apply Hout1; lia. }
      intros p Hp. destruct (Hin2 p Hp) as (p1 & Hp1 & E1). rewrite E1.
      destruct (Nat.eq_dec p1 j) as [->|Hne2].
      { destruct Hcase1 as [[Hj _] | [Hj _]]; rewrite Hj.
        - exists j. split; [lia | reflexivity].
        - exists (S j). split; [lia | reflexivity]. }
      destruct (Nat.eq_dec p1 (S j)) as [->|Hne1].
      { destruct Hcase1 as [[_ HSj] | [_ HSj]]; rewrite HSj.
        - exists (S j). split; [lia | reflexivity].
        - exists j. split; [lia | reflexivity]. }
      exists p1. split; [exact Hp1 | apply Hout1; assumption].
Qed.

Lemma sort_outer_spec : forall n i order,
  valid_order preds order -> Z.of_nat (length order) < 2 ^ 32 ->
  (i + n < length order)%nat -> SchedOrder.settled swap preds order i ->
  exists order',
    sort_outer swap preds (Z.of_nat (length order)) n i order = Some order' /\
    order' ≡ₚ order /\ SchedOrder.settled swap preds order' (i + n).
Proof.
  induction n as [|n IH]; intros i order Hv Hsmall Hlen Hset; cbn [sort_outer].
  - exists order. rewrite Nat.add_0_r. split; [reflexivity|]. split; [reflexivity | exact Hset].
  - replace (Z.to_nat (u32 (Z.of_nat (length order) - Z.of_nat i - 1)))
      with (length order - i - 1)%nat.
    2:{ unfold u32. rewrite Z.mod_small by lia. lia. }
    destruct (sort_inner_spec (length order - i - 1)%nat 0%nat order Hv ltac:(lia))
      as (o1 & -> & Hperm1 & Hlen1 & Hkeep1 & Hout1 & Hin1).
    { intros p Hp. replace p with 0%nat by lia. apply swap_refl. }
    cbn [Nat.add] in Hkeep1, Hout1, Hin1.
    assert (Hset1 : SchedOrder.settled swap preds o1 (S i)).
    { intros p q Hpq Hq Hsuf. rewrite Hlen1 in Hq, Hsuf.
      destruct (Nat.eq_dec q (length order - i - 1)%nat) as [->|Hne].
      - apply Hkeep1. lia.
      - assert (Hq' : (length order - i - 1 < q)%nat) by lia.
        destruct (le_lt_dec p (length order - i - 1)%nat) as [Hp|Hp].
        + destruct (Hin1 p Hp) as (p' & Hp' & E).
          unfold time_at. rewrite E, (Hout1 q Hq').
          apply (Hset p' q); lia.
        + unfold time_at. rewrite (Hout1 p Hp), (Hout1 q Hq').
          apply (Hset p q); lia. }
    rewrite <- Hlen1.
    destruct (IH (S i) o1) as (o2 & Hrun & Hperm2 & Hset2).
    + apply (valid_perm _ _ Hperm1 Hv).
    + lia.
    + lia.
    + exact Hset1.
    + exists o2. split; [exact Hrun|]. split; [rewrite Hperm2; exact Hperm1|].
      replace (i + S n)%nat with (S i + n)%nat by lia. exact Hset2.
Qed.

Lemma bubble_sort_spec order :
  valid_order preds order -> order <> [] -> Z.of_nat (length order) < 2 ^ 32 ->
  exists order',
    bubble_sort swap preds (Z.of_nat (length order)) order = Some order' /\
    order' ≡ₚ order /\
    forall p q, (p < q)%nat -> (q < length order')%nat ->
      swap (time_at preds order' p) (time_at preds order' q) = false.
Proof.
  intros Hv Hne Hsmall. unfold bubble_sort.
  assert (Hpos : (0 < length order)%nat) by (destruct order; [contradiction | cbn; lia]).
  replace (Z.to_nat (u32 (Z.of_nat (length order) - 1))) with (length order - 1)%nat.
  2:{ unfold u32. rewrite Z.mod_small by lia. lia. }
  destruct (sort_outer_spec (length order - 1)%nat 0%nat order Hv Hsmall ltac:(lia))
    as (o & Hrun & Hperm & Hset).
  { intros p q Hpq Hq Hsuf. lia. }
  exists o. split; [exact Hrun|]. split; [exact Hperm|].
  intros p q Hpq Hq. apply Hset; [exact Hpq | exact Hq|].
  rewrite (Permutation_length Hperm). lia.
Qed.

End Ordering.

Section ExecutionOrder.
Import Mach Reg Sched SchedOrder Samples.

Lemma identity_order_length count : length (identity_order count) = Z.to_nat count.
Proof. unfold identity_order. rewrite length_map, length_seq. reflexivity. Qed.

Lemma identity_order_valid preds count :
  (Z.to_nat count <= length preds)%nat -> valid_order preds (identity_order count).
Proof.
  intros H. unfold valid_order, identity_order. apply List.Forall_forall.
  intros idx Hin. apply List.in_map_iff in Hin as (k & <- & Hk).
  apply List.in_seq in Hk. rewrite Nat2Z.id. lia.
Qed.

(** X13. [quantum_scheduler_get_order], for a register of at least one qubit
    whose qubits all have a prediction, returns every qubit index exactly once
    (a permutation of [0 .. count - 1]) with [*order_size = count]; under the
    longest-first and AI-predicted strategies the predicted times never
    increase along the order, under shortest-first they never decrease, and
    under the other strategies the indices are in their original order. *)
Theorem get_order_sorts_by_predicted_time :
  forall (g : quantum_scheduler_t) (r : QARMA_QUANTUM_REGISTER) (heap : ptr)
         (preds : list qubit_prediction_t),
    predictions g = Some preds ->
    heap <> NULL ->
    0 < reg_count r < 2 ^ 32 ->
    (Z.to_nat (reg_count r) <= length preds)%nat ->
    exists order,
      quantum_scheduler_get_order g r heap = Order (reg_count r) order /\
      order ≡ₚ identity_order (reg_count r) /\
      match strategy g with
      | SCHEDULE_LONGEST_FIRST | SCHEDULE_AI_PREDICTED =>
          forall p q, (p < q)%nat -> (q < length order)%nat ->
            time_at preds order q <= time_at preds order p
      | SCHEDULE_SHORTEST_FIRST =>
          forall p q, (p < q)%nat -> (q < length order)%nat ->
            time_at preds order p <= time_at preds order q
      | _ => order = identity_order (reg_count r)
      end.
Proof.
  intros g r heap preds Hp Hheap Hcount Hlen.
  unfold quantum_scheduler_get_order. rewrite Hp.
  replace (is_null heap) with false by (symmetry; apply Z.eqb_neq; exact Hheap).
  assert (Hl : Z.of_nat (length (identity_order (reg_count r))) = reg_count r).
  { rewrite identity_order_length. lia. }
  assert (Hne : identity_order (reg_count r) <> []).
  { intros E. rewrite E in Hl. cbn in Hl. lia. }
  pose proof (identity_order_valid preds (reg_count r) Hlen) as Hv.
  assert (Hlt : exists order,
             bubble_sort Z.ltb preds (reg_count r) (identity_order (reg_count r)) = Some order /\
             order ≡ₚ identity_order (reg_count r) /\
             forall p q, (p < q)%nat -> (q < length order)%nat ->
               time_at preds order q <= time_at preds order p).
  { destruct (bubble_sort_spec Z.ltb) with (preds := preds)
        (order := identity_order (reg_count r)) as (o & Hrun & Hperm & Hs).
    - intros a b H. apply Z.ltb_lt in H. apply Z.ltb_ge. lia.
    - intros a b c H1 H2. apply Z.ltb_ge in H1, H2. apply Z.ltb_ge. lia.
    - exact Hv.
    - exact Hne.
    - lia.
    - rewrite Hl in Hrun. exists o. split; [exact Hrun|]. split; [exact Hperm|].
      intros p q Hpq Hq. apply Z.ltb_ge. apply Hs; assumption. }
  assert (Hgt : exists order,
             bubble_sort Z.gtb preds (reg_count r) (identity_order (reg_count r)) = Some order /\
             order ≡ₚ identity_order (reg_count r) /\
             forall p q, (p < q)%nat -> (q < length order)%nat ->
               time_at preds order p <= time_at preds order q).
  { assert (Hgtb : forall a b, (a >? b) = false <-> a <= b).
    { intros a b. rewrite Z.gtb_ltb. apply Z.ltb_ge. }
    destruct (bubble_sort_spec Z.gtb) with (preds := preds)
        (order := identity_order (reg_count r)) as (o & Hrun & Hperm & Hs).
    - intros a b H. apply Hgtb. rewrite Z.gtb_ltb in H. apply Z.ltb_lt in H. lia.
    - intros a b c H1 H2. apply Hgtb in H1, H2. apply Hgtb. lia.
    - exact Hv.
    - exact Hne.
    - lia.
    - rewrite Hl in Hrun. exists o. split; [exact Hrun|]. split; [exact Hperm|].
      intros p q Hpq Hq. apply Hgtb. apply Hs; assumption. }
  destruct (strategy g).
  - eexists. split; [reflexivity|]. split; reflexivity.
  - eexists. split; [reflexivity|]. split; reflexivity.
  - destruct Hlt as (o & -> & Hperm & Hs). exists o. cbn [sorted_result]. auto.
  - destruct Hgt as (o & -> & Hperm & Hs). exists o. cbn [sorted_result]. auto.
  - eexists. split; [reflexivity|]. split; reflexivity.
  - destruct Hlt as (o & -> & Hperm & Hs). exists o. cbn [sorted_result]. auto.
Qed.

End ExecutionOrder.

Section PatternTable.
Import Mach Reg Sched Samples.

Lemma find_pattern_spec : forall patterns size j k,
  find_pattern patterns size j = Some k ->
  (j <= k)%nat /\ exists p, patterns !! (k - j)%nat = Some p /\ data_size p = size.
Proof.
  induction patterns as [|p rest IH]; intros size j k H; cbn [find_pattern] in H;
    [discriminate|].
  destruct (data_size p =? size) eqn:E.
  - inversion H; subst k. split; [lia|]. exists p. rewrite Nat.sub_diag.
    split; [reflexivity | apply Z.eqb_eq; exact E].
  - apply IH in H as (Hle & q & Hq & Hs). split; [lia|]. exists q. split; [|exact Hs].
    replace (k - j)%nat with (S (k - S j)) by lia. exact Hq.
Qed.

Lemma find_pattern_in_use patterns count size k :
  find_pattern (firstn count patterns) size 0 = Some k ->
  (k < count)%nat /\ exists p, patterns !! k = Some p /\ data_size p = size.
Proof.
  intros H. apply find_pattern_spec in H as (_ & p & Hp & Hs).
  rewrite Nat.sub_0_r in Hp. apply lookup_take_Some in Hp as [Hp Hk].
  split; [exact Hk|]. exists p. split; [exact Hp | exact Hs].
Qed.

(** The learning step on one completed qubit: the size it touches, and what
    happens to each slot of the table. *)
Lemma learn_qubit_table qubit pred st :
  0 <= ls_pattern_count st <= 32 ->
  let st' := learn_qubit qubit pred st in
  length (ls_patterns st') = length (ls_patterns st) /\
  ls_pattern_count st <= ls_pattern_count st' <= 32 /\
  forall j p, (j < Z.to_nat (ls_pattern_count st))%nat -> ls_patterns st !! j = Some p ->
    exists p', ls_patterns st' !! j = Some p' /\ data_size p' = data_size p.
Proof.
  intros Hc st'. subst st'. unfold learn_qubit.
  destruct (find_pattern _ _ 0) as [k|] eqn:Ef.
  - cbn [ls_patterns ls_pattern_count]. split; [apply length_alter|]. split; [lia|].
    intros j p Hj Hp. destruct (Nat.eq_dec k j) as [->|Hne].
    + rewrite list_lookup_alter_eq, Hp. eexists. split; reflexivity.
    + rewrite list_lookup_alter_ne by exact Hne. exists p. split; [exact Hp | reflexivity].
  - destruct (ls_pattern_count st <? 32) eqn:Eroom.
    + apply Z.ltb_lt in Eroom. cbn [ls_patterns ls_pattern_count].
      split; [apply length_insert|].
      split; [unfold u32; rewrite Z.mod_small by lia; lia|].
      intros j p Hj Hp. rewrite list_lookup_insert_ne by lia.
      exists p. split; [exact Hp | reflexivity].
    + cbn [ls_patterns ls_pattern_count]. split; [reflexivity|]. split; [lia|].
      intros j p Hj Hp. exists p. split; [exact Hp | reflexivity].
Qed.

Lemma learn_loop_table : forall qs preds i st,
  0 <= ls_pattern_count st <= 32 ->
  let st' := learn_loop qs preds i st in
  length (ls_patterns st') = length (ls_patterns st) /\
  ls_pattern_count st <= ls_pattern_count st' <= 32 /\
  forall j p, (j < Z.to_nat (ls_pattern_count st))%nat -> ls_patterns st !! j = Some p ->
    exists p', ls_patterns st' !! j = Some p' /\ data_size p' = data_size p.
Proof.
  induction qs as [|qubit rest IH]; intros preds i st Hc; cbn [learn_loop].
  - split; [reflexivity|]. split; [lia|]. intros j p _ Hp. exists p. auto.
  - assert (Hskip : let st' := learn_loop rest preds (S i) st in
              length (ls_patterns st') = length (ls_patterns st) /\
              ls_pattern_count st <= ls_pattern_count st' <= 32 /\
              forall j p, (j < Z.to_nat (ls_pattern_count st))%nat ->
                ls_patterns st !! j = Some p ->
                exists p', ls_patterns st' !! j = Some p' /\ data_size p' = data_size p)
      by (apply IH; exact Hc).
    destruct (status_eqb (qb_status qubit) QUBIT_STATUS_COMPLETED); [|exact Hskip].
    destruct (preds !! i) as [pred|]; [|exact Hskip].
    destruct (learn_qubit_table qubit pred st Hc) as (Hl1 & Hc1 & Hs1).
    destruct (IH preds (S i) (learn_qubit qubit pred st) ltac:(lia)) as (Hl2 & Hc2 & Hs2).
    split; [congruence|]. split; [lia|].
    intros j p Hj Hp. destruct (Hs1 j p Hj Hp) as (p1 & Hp1 & E1).
    destruct (Hs2 j p1 ltac:(lia) Hp1) as (p2 & Hp2 & E2).
    exists p2. split; [exact Hp2 | congruence].
Qed.

(** X14. [quantum_scheduler_learn] keeps the pattern table in shape: the table
    keeps its length, the number of patterns in use never decreases and never
    exceeds 32, every pattern in use keeps the data size it was recorded for,
    and the predictions and the strategy are not touched. *)
Theorem learn_keeps_pattern_table :
  forall (g : quantum_scheduler_t) (r : QARMA_QUANTUM_REGISTER),
    0 <= pattern_count g <= 32 ->
    let g' := quantum_scheduler_learn g r in
    length (learned_patterns g') = length (learned_patterns g) /\
    pattern_count g <= pattern_count g' <= 32 /\
    (forall j p, (j < Z.to_nat (pattern_count g))%nat -> learned_patterns g !! j = Some p ->
       exists p', learned_patterns g' !! j = Some p' /\ data_size p' = data_size p) /\
    predictions g' = predictions g /\ prediction_count g' = prediction_count g /\
    strategy g' = strategy g.
Proof.
  intros g r Hc g'. subst g'. unfold quantum_scheduler_learn.
  destruct (predictions g) as [preds|] eqn:Ep.
  - destruct (learn_loop_table (reg_qubits r) preds 0
                (mkLearn (learned_patterns g) (pattern_count g) 0 F32.zero) Hc)
      as (Hl & Hcount & Hs).
    cbn [ls_patterns ls_pattern_count] in Hl, Hcount, Hs.
    destruct (reg_count r >? 0);
      cbn [learned_patterns pattern_count predictions prediction_count strategy];
      (split; [exact Hl|]; split; [exact Hcount|]; split; [exact Hs|]; auto).
  - split; [reflexivity|]. split; [lia|]. split; [|auto].
    intros j p _ Hp. exists p. auto.
Qed.

Lemma learn_keeps_pattern_table_witness :
  length (learned_patterns scheduler_after_learning) = 32%nat /\
  0 <= pattern_count scheduler_after_learning <= 32.
Proof.
  destruct (learn_keeps_pattern_table
              (quantum_scheduler_predict g_scheduler one_with_buffer 16384)
              one_with_buffer_run) as (Hl & Hc & _).
  - cbn. lia.
  - split; [exact Hl|]. split; [|apply Hc].
    apply Z.le_trans with (2 := proj1 Hc). cbn. lia.
Defined.

(** X15. When [quantum_scheduler_learn]'s step meets a completed qubit whose
    result size already has a pattern, the pattern's sample count grows by one
    and its average time moves to the integer mean of the old samples and the
    new time, which lies between the old average and the new time (as long as
    the products stay within [uint32_t]); the other slots and the pattern
    count are unchanged. *)
Theorem learn_moves_average_towards_actual_time :
  forall (qubit : QARMA_QUBIT) (pred : qubit_prediction_t) (st : learn_state)
         (k : nat) (p : learned_pattern_t),
    find_pattern (firstn (Z.to_nat (ls_pattern_count st)) (ls_patterns st))
                 (qb_result_size qubit) 0 = Some k ->
    ls_patterns st !! k = Some p ->
    0 <= avg_time_ms p -> 0 <= sample_count p ->
    avg_time_ms p * sample_count p + u32 (qb_end_time qubit - qb_start_time qubit) < 2 ^ 32 ->
    sample_count p + 1 < 2 ^ 32 ->
    let actual := u32 (qb_end_time qubit - qb_start_time qubit) in
    let st' := learn_qubit qubit pred st in
    exists p',
      ls_patterns st' !! k = Some p' /\
      data_size p' = qb_result_size qubit /\
      sample_count p' = sample_count p + 1 /\
      avg_time_ms p' = (avg_time_ms p * sample_count p + actual) / (sample_count p + 1) /\
      Z.min (avg_time_ms p) actual <= avg_time_ms p' <= Z.max (avg_time_ms p) actual /\
      ls_pattern_count st' = ls_pattern_count st /\
      forall j, j <> k -> ls_patterns st' !! j = ls_patterns st !! j.
Proof.
  intros qubit pred st k p Hf Hp Havg Hn Hprod Hsamples actual st'.
  subst st'. unfold learn_qubit. rewrite Hf. cbn [ls_patterns ls_pattern_count].
  fold actual.
  assert (Hact : 0 <= actual) by (apply Z.mod_pos_bound; lia).
  destruct (find_pattern_in_use _ _ _ _ Hf) as (_ & p0 & Hp0 & Hsize).
  rewrite Hp in Hp0. inversion Hp0; subst p0. clear Hp0.
  eexists. split; [rewrite list_lookup_alter_eq, Hp; reflexivity|].
  cbn [data_size sample_count avg_time_ms].
  assert (E1 : u32 (sample_count p + 1) = sample_count p + 1)
    by (apply Z.mod_small; lia).
  assert (E2 : u32 (u32 (avg_time_ms p * sample_count p) + actual)
               = avg_time_ms p * sample_count p + actual).
  { unfold u32 at 2. rewrite (Z.mod_small (avg_time_ms p * sample_count p)) by nia.
    apply Z.mod_small. fold actual in Hprod. nia. }
  rewrite E1, E2.
  split; [exact Hsize|]. split; [reflexivity|]. split; [reflexivity|].
  split.
  - split.
    + apply Z.div_le_lower_bound; [lia|]. nia.
    + apply Z.div_le_upper_bound; [lia|]. nia.
  - split; [reflexivity|]. intros j Hj. apply list_lookup_alter_ne. congruence.
Qed.

End PatternTable.

Section Recommendation.
Import Mach Reg Samples Observer Adaptive AdaptiveRun.

Lemma strategy_of_Z_real i :
  0 <= i < 13 -> strategy_to_Z (strategy_of_Z i) = i.
Proof.
  intros H.
  assert (C : i = 0 \/ i = 1 \/ i = 2 \/ i = 3 \/ i = 4 \/ i = 5 \/ i = 6 \/ i = 7 \/
              i = 8 \/ i = 9 \/ i = 10 \/ i = 11 \/ i = 12) by lia.
  repeat (destruct C as [-> | C]; [reflexivity|]). subst i. reflexivity.
Qed.

Lemma best_strategy_from_real : forall ms i best score,
  0 <= i -> i + Z.of_nat (length ms) <= 13 ->
  strategy_to_Z best < 13 ->
  strategy_to_Z (best_strategy_from ms i best score) < 13.
Proof.
  induction ms as [|mt rest IH]; intros i best score Hi Hlen Hbest;
    cbn [best_strategy_from]; [exact Hbest|].
  cbn [length] in Hlen.
  destruct (total_uses mt =? 0); [apply IH; [lia | lia | exact Hbest]|].
  destruct (F32.gtb (strategy_score mt) score).
  - apply IH; [lia | lia|]. rewrite strategy_of_Z_real; lia.
  - apply IH; [lia | lia | exact Hbest].
Qed.

Lemma heuristic_strategy_real p : strategy_to_Z (heuristic_strategy p) < 13.
Proof.
  unfold heuristic_strategy.
  destruct (has_evaluation p); [cbn; lia|].
  destruct (requires_all p); [cbn; lia|].
  destruct (variance p <? 100); cbn; lia.
Qed.

Lemma recommend_real g p : strategy_to_Z (quantum_ai_recommend_strategy g p) < 13.
Proof.
  unfold quantum_ai_recommend_strategy.
  destruct (enabled g); cbn [negb]; [|cbn; lia].
  destruct (best_match_from p (learning_db g) 0 None F32.zero) as [[i|] bs];
    [|apply heuristic_strategy_real].
  destruct (learning_db g !! i) as [e|]; [|apply heuristic_strategy_real].
  destruct (F32.ltb bs PROFILE_MATCH_THRESHOLD || F32.ltb (confidence e) (F32.lit 5 10));
    [apply heuristic_strategy_real|].
  apply best_strategy_from_real; [lia | | cbn; lia].
  rewrite length_take. lia.
Qed.

(** X16. [quantum_ai_recommend_strategy] always answers with one of the
    thirteen collapse strategies, never with the enumerator
    [COLLAPSE_STRATEGY_COUNT]; a disabled observer answers First-wins, and an
    observer whose database is empty (at start, or after
    [quantum_ai_reset_learning]) answers by the heuristic: Best for a workload
    with an evaluator, else Combine when all results are required, else
    First-wins for a variance below 100 and Validate otherwise. *)
Theorem recommend_strategy_is_a_real_strategy :
  forall (g : quantum_ai_observer_t) (p : quantum_workload_profile_t),
    strategy_to_Z (quantum_ai_recommend_strategy g p)
    < strategy_to_Z COLLAPSE_STRATEGY_COUNT /\
    (enabled g = false -> quantum_ai_recommend_strategy g p = COLLAPSE_FIRST_WINS) /\
    (enabled g = true ->
     quantum_ai_recommend_strategy (quantum_ai_reset_learning g) p
     = (if has_evaluation p then COLLAPSE_BEST
        else if requires_all p then COLLAPSE_COMBINE
        else if variance p <? 100 then COLLAPSE_FIRST_WINS
        else COLLAPSE_VALIDATE)).
Proof.
  intros g p. split; [apply recommend_real|]. split.
  - intros H. unfold quantum_ai_recommend_strategy. rewrite H. reflexivity.
  - intros H. unfold quantum_ai_recommend_strategy, quantum_ai_reset_learning.
    cbn [enabled learning_db best_match_from]. rewrite H. reflexivity.
Qed.

Lemma next_strategy_differs s :
  strategy_of_Z ((strategy_to_Z s + 1) mod (strategy_to_Z COLLAPSE_STRATEGY_COUNT - 1)) <> s /\
  strategy_to_Z
    (strategy_of_Z ((strategy_to_Z s + 1) mod (strategy_to_Z COLLAPSE_STRATEGY_COUNT - 1))) < 13.
Proof.
  destruct s; (split; [vm_compute; discriminate | vm_compute; reflexivity]).
Qed.

Lemma choose_alternative_differs g r st :
  choose_alternative_strategy g r st <> current_strategy st /\
  strategy_to_Z (choose_alternative_strategy g r st) < 13.
Proof.
  unfold choose_alternative_strategy.
  destruct (strategy_eqb _ (current_strategy st)) eqn:E.
  - apply next_strategy_differs.
  - split; [|apply recommend_real].
    intros H. rewrite H in E. unfold strategy_eqb in E. rewrite Z.eqb_refl in E.
    discriminate.
Qed.

(** X17. A [quantum_adaptive_check] that returns true has changed the
    strategy: the register's new strategy differs from the one the adaptive
    state held as current, it is one of the thirteen collapse strategies, the
    state records it as current and marks the switch, and the original
    strategy is kept for [quantum_adaptive_reset]. A check that returns false
    leaves the register's strategy alone. *)
Theorem adaptive_switch_changes_the_strategy :
  forall (g : quantum_ai_observer_t) (r : QARMA_QUANTUM_REGISTER)
         (st : quantum_adaptive_state_t),
    reg_adaptive_state r = Some st ->
    let '(switched, r') := quantum_adaptive_check g r in
    if switched then
      reg_strategy r' <> current_strategy st /\
      strategy_to_Z (reg_strategy r') < strategy_to_Z COLLAPSE_STRATEGY_COUNT /\
      exists st', reg_adaptive_state r' = Some st' /\
                  current_strategy st' = reg_strategy r' /\
                  has_switched st' = true /\
                  original_strategy st' = original_strategy st
    else
      reg_strategy r' = reg_strategy r /\
      exists st', reg_adaptive_state r' = Some st' /\
                  current_strategy st' = current_strategy st /\
                  original_strategy st' = original_strategy st.
Proof.
  intros g r st Hst. unfold quantum_adaptive_check. rewrite Hst.
  assert (Hskip : reg_strategy r = reg_strategy r /\
                  exists st', reg_adaptive_state r = Some st' /\
                              current_strategy st' = current_strategy st /\
                              original_strategy st' = original_strategy st).
  { split; [reflexivity|]. exists st. auto. }
  destruct (reg_executing r); cbn [negb]; [|exact Hskip].
  destruct (policy_is_none (policy st)); [exact Hskip|].
  destruct (check_due st); cbn [negb]; [|exact Hskip].
  unfold check_policy. cbv zeta.
  match goal with |- context [if ?c then _ else _] => destruct c end.
  - match goal with |- context [choose_alternative_strategy g r ?s] =>
      destruct (choose_alternative_differs g r s) as [Hd Hr] end.
    cbn [current_strategy] in Hd.
    split; [exact Hd|]. split; [exact Hr|].
    eexists. split; [reflexivity|]. cbn. auto.
  - split; [reflexivity|]. eexists. split; [reflexivity|]. cbn. auto.
Qed.

Lemma check_keeps_original g r st :
  reg_adaptive_state r = Some st ->
  exists st', reg_adaptive_state (snd (quantum_adaptive_check g r)) = Some st' /\
              original_strategy st' = original_strategy st /\
              thresholds st' = thresholds st /\
              execution_start_time st' = execution_start_time st /\
              (check_decides r = true -> last_check_time st' = current_time_of st) /\
              (check_decides r = false -> last_check_time st' = last_check_time st).
Proof.
  intros Hst. unfold quantum_adaptive_check, check_decides. rewrite Hst.
  assert (Hskip : forall b : bool, b = false ->
            exists st', reg_adaptive_state (snd (false, r)) = Some st' /\
              original_strategy st' = original_strategy st /\
              thresholds st' = thresholds st /\
              execution_start_time st' = execution_start_time st /\
              (b = true -> last_check_time st' = current_time_of st) /\
              (b = false -> last_check_time st' = last_check_time st)).
  { intros b ->. exists st. cbn [snd]. repeat split; try assumption. discriminate. }
  destruct (reg_executing r); cbn [negb andb]; [|apply Hskip; reflexivity].
  destruct (policy_is_none (policy st)); cbn [negb andb]; [apply Hskip; reflexivity|].
  destruct (check_due st); cbn [negb]; [|apply Hskip; reflexivity].
  unfold check_policy. cbv zeta.
  match goal with |- context [if ?c then _ else _] => destruct c end;
    (eexists; split; [reflexivity|]; cbn; repeat split; discriminate).
Qed.

Lemma run_checks_keeps_original g points : forall r st,
  reg_adaptive_state r = Some st ->
  exists st', reg_adaptive_state (fst (run_checks g points r)) = Some st' /\
              original_strategy st' = original_strategy st.
Proof.
  induction points as [|pg rest IH]; intros r st Hst.
  - exists st. auto.
  - cbn [run_checks].
    destruct (check_keeps_original g (at_progress pg r) st Hst) as (st1 & H1 & Ho1 & _).
    destruct (quantum_adaptive_check g (at_progress pg r)) as [b r1]. cbn [snd] in H1.
    destruct (IH r1 st1 H1) as (st' & H2 & Ho2).
    destruct (run_checks g rest r1) as [r2 bs]. cbn [fst] in *.
    exists st'. split; [exact H2 | congruence].
Qed.

(** X18. Init, any run of checks, reset: after [quantum_adaptive_init] on a
    register, whatever the checks of an execution did to the strategy,
    [quantum_adaptive_reset] gives the register back the strategy it had when
    the controller was initialised, with no switch recorded. *)
Theorem adaptive_reset_restores_initial_strategy :
  forall (g : quantum_ai_observer_t) (points : list progress) (r : QARMA_QUANTUM_REGISTER)
         (pol : quantum_adaptive_policy_t) (heap : ptr),
    heap <> NULL ->
    let r0 := set_reg_executing true (quantum_adaptive_init r pol heap) in
    let r1 := fst (run_checks g points r0) in
    reg_strategy (quantum_adaptive_reset r1) = reg_strategy r /\
    no_switch_yet (quantum_adaptive_reset r1) /\
    exists st, reg_adaptive_state (quantum_adaptive_reset r1) = Some st /\
               current_strategy st = reg_strategy r.
Proof.
  intros g points r pol heap Hh r0 r1.
  assert (H0 : exists st0, reg_adaptive_state r0 = Some st0 /\
                           original_strategy st0 = reg_strategy r).
  { subst r0. unfold quantum_adaptive_init.
    replace (is_null heap) with false by (symmetry; apply Z.eqb_neq; exact Hh).
    rewrite andb_false_r. eexists. split; reflexivity. }
  destruct H0 as (st0 & Hst0 & Ho0).
  destruct (run_checks_keeps_original g points r0 st0 Hst0) as (st1 & Hst1 & Ho1).
  fold r1 in Hst1.
  split; [|split].
  - unfold quantum_adaptive_reset. rewrite Hst1. cbn. congruence.
  - apply (reset_no_switch_yet r1 st1 Hst1).
  - unfold quantum_adaptive_reset. rewrite Hst1. eexists. split; [reflexivity|].
    cbn. congruence.
Qed.

Lemma at_progress_decides pg r st :
  reg_adaptive_state r = Some st ->
  check_due st = false -> check_decides (at_progress pg r) = false.
Proof.
  intros Hst Hd. unfold check_decides. rewrite at_progress_state, Hst, Hd.
  apply andb_false_r.
Qed.

Lemma count_deciding_not_due g points : forall r st,
  reg_adaptive_state r = Some st -> check_due st = false ->
  count_deciding g points r = 0%nat.
Proof.
  induction points as [|pg rest IH]; intros r st Hst Hd; cbn [count_deciding];
    [reflexivity|].
  rewrite (at_progress_decides pg r st Hst Hd).
  destruct (check_keeps_original g (at_progress pg r) st Hst)
    as (st1 & H1 & _ & Hth & Hstart & _ & Hlast).
  rewrite (IH _ st1 H1); [reflexivity|].
  specialize (Hlast (at_progress_decides pg r st Hst Hd)).
  unfold check_due, current_time_of in *. rewrite Hth, Hstart, Hlast. exact Hd.
Qed.

(** X19. The clock of [quantum_adaptive_check] is the execution start time
    plus 100 and so does not advance between checks. With a check interval
    above zero, at most one check of an execution gets as far as the policy
    conditions: once a check has recorded its time, every later check returns
    false at the interval test, whatever progress the register has made. *)
Theorem adaptive_policy_is_evaluated_at_most_once :
  forall (g : quantum_ai_observer_t) (points : list progress) (r : QARMA_QUANTUM_REGISTER)
         (st : quantum_adaptive_state_t),
    reg_adaptive_state r = Some st ->
    0 < check_interval_ms (thresholds st) ->
    (count_deciding g points r <= 1)%nat.
Proof.
  intros g points. induction points as [|pg rest IH]; intros r st Hst Hint;
    cbn [count_deciding]; [lia|].
  destruct (check_keeps_original g (at_progress pg r) st Hst)
    as (st1 & H1 & _ & Hth & Hstart & Hdec & _).
  destruct (check_decides (at_progress pg r)) eqn:Ed.
  - rewrite (count_deciding_not_due g rest _ st1 H1); [lia|].
    specialize (Hdec eq_refl).
    unfold check_due, current_time_of in *. rewrite Hth, Hstart, Hdec.
    rewrite Z.sub_diag. change (u32 0) with 0.
    replace (0 <? check_interval_ms (thresholds st)) with true
      by (symmetry; apply Z.ltb_lt; exact Hint).
    reflexivity.
  - specialize (IH _ st1 H1). rewrite Hth in IH. specialize (IH Hint). lia.
Qed.

End Recommendation.

Section Database.
Import Mach Reg Samples Observer Adaptive AdaptiveRun.

Lemma best_match_in_db p db j s :
  best_match_from p db 0 None F32.zero = (Some j, s) -> (j < length db)%nat.
Proof.
  intros H. apply best_match_from_bound in H as [H | H]; [discriminate | lia].
Qed.

Lemma create_entry_shape g p heap :
  db_wf g -> db_size g + 1 < 2 ^ 32 ->
  match create_entry g p heap with
  | (None, g1) => g1 = g
  | (Some i, g1) =>
      i = length (learning_db g) /\
      learning_db g1 = learning_db g ++ [new_entry p] /\
      db_size g1 = db_size g + 1 /\ db_wf g1 /\
      enabled g1 = enabled g /\ total_observations g1 = total_observations g /\
      (db_size g <= db_capacity g -> db_capacity g < 2 ^ 31 ->
       db_size g1 <= db_capacity g1 /\ db_capacity g <= db_capacity g1)
  end.
Proof.
  unfold db_wf, create_entry. intros Hwf Hsmall.
  assert (Hu : u32 (db_size g + 1) = db_size g + 1) by (apply Z.mod_small; lia).
  destruct (db_size g >=? db_capacity g) eqn:Efull.
  - destruct (is_null heap); [reflexivity|].
    cbn [learning_db db_size db_capacity enabled total_observations].
    rewrite Hu, length_app. cbn [length].
    split; [lia|]. split; [reflexivity|]. split; [reflexivity|]. split; [lia|].
    split; [reflexivity|]. split; [reflexivity|].
    intros Hle Hcap. apply Z.geb_le in Efull.
    destruct (db_capacity g =? 0) eqn:Ez.
    + apply Z.eqb_eq in Ez. unfold INITIAL_DB_CAPACITY. lia.
    + apply Z.eqb_neq in Ez. unfold u32. rewrite Z.mod_small by lia. lia.
  - cbn [learning_db db_size db_capacity enabled total_observations].
    rewrite Hu, length_app. cbn [length].
    split; [lia|]. split; [reflexivity|]. split; [reflexivity|]. split; [lia|].
    split; [reflexivity|]. split; [reflexivity|].
    intros _ _. rewrite Z.geb_leb in Efull. apply Z.leb_gt in Efull. lia.
Qed.

(** X20. [quantum_ai_observe_complete] changes at most one entry of the
    learning database. It keeps the database as long as [db_size] says and
    within its capacity; it either updates an existing entry in place, or
    appends one new entry at index [db_size] and updates that; every other
    entry is left as it was; and [total_observations] grows by one exactly
    when an entry was updated. A disabled observer, or one whose database is
    full when the allocator refuses, is left unchanged. *)
Theorem observe_complete_changes_one_entry :
  forall (g : quantum_ai_observer_t) (r : QARMA_QUANTUM_REGISTER) (elapsed_ms : Z)
         (quality : F32.t) (heap : ptr),
    db_wf g ->
    db_size g <= db_capacity g -> db_capacity g < 2 ^ 31 ->
    let '(g', updated) := quantum_ai_observe_complete g r elapsed_ms quality heap in
    match updated with
    | None => g' = g
    | Some i =>
        db_wf g' /\ db_size g' <= db_capacity g' /\
        (i < length (learning_db g'))%nat /\
        (db_size g' = db_size g \/
         db_size g' = db_size g + 1 /\ i = length (learning_db g)) /\
        (forall j, j <> i -> (j < length (learning_db g))%nat ->
           learning_db g' !! j = learning_db g !! j) /\
        total_observations g' = u32 (total_observations g + 1) /\
        enabled g' = true
    end.
Proof.
  intros g r elapsed_ms quality heap Hwf Hcap Hsmall.
  unfold quantum_ai_observe_complete.
  destruct (enabled g) eqn:Een; cbn [negb]; [|reflexivity].
  unfold find_or_create_entry.
  assert (Hcreate :
    match create_entry g (quantum_ai_profile_register r) heap with
    | (None, g1) => g1 = g
    | (Some i, g1) =>
        db_wf
          (mkObserver (alter (observe_entry r elapsed_ms quality (total_observations g1)) i
                             (learning_db g1))
                      (db_size g1) (db_capacity g1) (enabled g1)
                      (u32 (total_observations g1 + 1))) /\
        db_size g1 <= db_capacity g1 /\
        (i < length (alter (observe_entry r elapsed_ms quality (total_observations g1)) i
                           (learning_db g1)))%nat /\
        (db_size g1 = db_size g \/ db_size g1 = db_size g + 1 /\ i = length (learning_db g)) /\
        (forall j, j <> i -> (j < length (learning_db g))%nat ->
           alter (observe_entry r elapsed_ms quality (total_observations g1)) i
                 (learning_db g1) !! j = learning_db g !! j) /\
        u32 (total_observations g1 + 1) = u32 (total_observations g + 1) /\
        enabled g1 = true
    end).
  { pose proof (create_entry_shape g (quantum_ai_profile_register r) heap Hwf
                  ltac:(unfold db_wf in Hwf; lia)) as Hs.
    destruct (create_entry g (quantum_ai_profile_register r) heap) as [[i|] g1];
      [|exact Hs].
    destruct Hs as (Hi & Hdb & Hsize & Hwf1 & Hen & Htot & Hcap1).
    destruct (Hcap1 Hcap Hsmall) as [Hc1 _].
    split; [unfold db_wf in *; cbn [learning_db db_size]; rewrite length_alter; exact Hwf1|].
    split; [exact Hc1|].
    split; [rewrite length_alter, Hdb, length_app; cbn [length]; lia|].
    split; [right; split; [exact Hsize | exact Hi]|].
    split.
    { intros j Hne Hj. rewrite list_lookup_alter_ne by congruence.
      rewrite Hdb. apply lookup_app_l. exact Hj. }
    split; [rewrite Htot; reflexivity | congruence]. }
  destruct (best_match_from (quantum_ai_profile_register r) (learning_db g) 0 None F32.zero)
    as [[j|] bs] eqn:Eb.
  - destruct (F32.geb bs PROFILE_MATCH_THRESHOLD).
    + pose proof (best_match_in_db _ _ _ _ Eb) as Hj.
      split; [unfold db_wf in *; cbn [learning_db db_size]; rewrite length_alter; exact Hwf|].
      cbn [learning_db db_size db_capacity enabled total_observations].
      split; [exact Hcap|].
      split; [rewrite length_alter; exact Hj|].
      split; [left; reflexivity|].
      split; [intros k Hne _; apply list_lookup_alter_ne; congruence|].
      split; [reflexivity | exact Een].
    + destruct (create_entry g (quantum_ai_profile_register r) heap) as [[i|] g1];
        exact Hcreate.
  - destruct (create_entry g (quantum_ai_profile_register r) heap) as [[i|] g1];
      exact Hcreate.
Qed.

End Database.

Section Reporting.
Import Mach Reg RegConfig Api Samples RunSamples.

Lemma count_finished_bounds ctx_alloc qs : forall i,
  0 <= count_finished ctx_alloc i qs <= count_enabled qs.
Proof.
  induction qs as [|q qs IH]; intros i; cbn [count_finished count_enabled]; [lia|].
  specialize (IH (S i)).
  destruct (qb_enabled q); cbn [andb]; [|lia].
  destruct (is_null (ctx_alloc i) || negb (fn_absent (qb_function q))); lia.
Qed.

Lemma count_finished_all ctx_alloc qs : forall i,
  count_finished ctx_alloc i qs = count_enabled qs <->
  forall k q, qs !! k = Some q -> qb_enabled q = true ->
    is_null (ctx_alloc (i + k)%nat) = false -> qb_function q <> None.
Proof.
  induction qs as [|q0 qs IH]; intros i; cbn [count_finished count_enabled].
  - split; [intros _ k q Hk; discriminate | reflexivity].
  - pose proof (count_finished_bounds ctx_alloc qs (S i)) as Hb.
    specialize (IH (S i)). split.
    + intros Heq k q Hk He Hctx.
      assert (Hhead : (if qb_enabled q0
                           && (is_null (ctx_alloc i) || negb (fn_absent (qb_function q0)))
                       then 1 else 0) = (if qb_enabled q0 then 1 else 0) /\
                      count_finished ctx_alloc (S i) qs = count_enabled qs).
      { destruct (qb_enabled q0); cbn [andb] in *; [|lia].
        destruct (is_null (ctx_alloc i) || negb (fn_absent (qb_function q0))); lia. }
      destruct Hhead as [Hh Ht]. destruct k as [|k].
      * inversion Hk; subst q0. rewrite Nat.add_0_r in Hctx.
        rewrite He, Hctx in Hh. cbn [andb orb] in Hh.
        destruct (qb_function q); [discriminate | cbn in Hh; lia].
      * apply (proj1 IH Ht k q Hk He). rewrite Nat.add_succ_comm. exact Hctx.
    + intros Hall.
      assert (Ht : count_finished ctx_alloc (S i) qs = count_enabled qs).
      { apply IH. intros k q Hk He Hctx. apply (Hall (S k) q Hk He).
        rewrite <- Nat.add_succ_comm. exact Hctx. }
      rewrite Ht. f_equal.
      destruct (qb_enabled q0) eqn:He; cbn [andb]; [|reflexivity].
      destruct (is_null (ctx_alloc i)) eqn:Hctx; cbn [orb]; [reflexivity|].
      specialize (Hall 0%nat q0 eq_refl He). rewrite Nat.add_0_r in Hall.
      specialize (Hall Hctx). destruct (qb_function q0); [reflexivity | contradiction].
Qed.

Lemma dispatch_qubit_finished ctx i q st :
  0 <= ds_completed st -> 0 <= ds_failed st ->
  ds_completed st + 1 < 2 ^ 32 -> ds_failed st + 1 < 2 ^ 32 ->
  let st' := snd (dispatch_qubit ctx i q st) in
  ds_completed st' + ds_failed st'
  = ds_completed st + ds_failed st
    + (if qb_enabled q && (is_null ctx || negb (fn_absent (qb_function q))) then 1 else 0) /\
  ds_completed st <= ds_completed st' /\ ds_failed st <= ds_failed st'.
Proof.
  intros H1 H2 H3 H4. unfold dispatch_qubit, qubit_execute_wrapper.
  destruct (qb_enabled q); cbn [negb andb]; [|cbn; lia].
  destruct (is_null ctx); cbn [orb].
  - cbn. rewrite u32_small by lia. lia.
  - destruct (qb_function q); cbn; [rewrite u32_small by lia|]; lia.
Qed.

Lemma dispatch_loop_finished ctx_alloc qs : forall i st,
  0 <= ds_completed st -> 0 <= ds_failed st ->
  ds_completed st + ds_failed st + Z.of_nat (length qs) < 2 ^ 32 ->
  let '(qs', st') := dispatch_loop ctx_alloc i qs st in
  ds_completed st' + ds_failed st'
  = ds_completed st + ds_failed st + count_finished ctx_alloc i qs /\
  ds_completed st <= ds_completed st' /\ ds_failed st <= ds_failed st' /\
  count_enabled qs' = count_enabled qs.
Proof.
  induction qs as [|q rest IH]; intros i st Hc Hf Hlt; cbn [dispatch_loop].
  - cbn. lia.
  - cbn [length] in Hlt.
    pose proof (dispatch_qubit_fields (ctx_alloc i) i q st) as (Hen & _).
    pose proof (dispatch_qubit_finished (ctx_alloc i) i q st Hc Hf ltac:(lia) ltac:(lia))
      as (Hs & Hc1 & Hf1).
    destruct (dispatch_qubit (ctx_alloc i) i q st) as [q' st']. cbn [fst snd] in *.
    assert (Hstep : ds_completed st' + ds_failed st' <= ds_completed st + ds_failed st + 1).
    { rewrite Hs. destruct (qb_enabled q && _); lia. }
    specialize (IH (S i) st' ltac:(lia) ltac:(lia) ltac:(lia)).
    destruct (dispatch_loop ctx_alloc (S i) rest st') as [rest' st''].
    cbn [count_enabled count_finished]. rewrite Hen. lia.
Qed.

(** X21. The statistics [qarma_quantum_get_stats] reports after
    [qarma_quantum_execute]: the enabled count is the number of qubits that
    were enabled before the call and is at most the total, which is [count];
    completed plus failed counts the enabled qubits whose context allocation
    was refused or that have a function, so it never exceeds the enabled count
    and equals it exactly when every enabled qubit whose context was allocated
    has a function (the wrapper returns at once on a qubit without function
    and counts nothing). [qarma_quantum_get_qubit_result] then answers NULL
    for every index out of range and for every qubit that is disabled or
    whose context allocation was refused, the result buffer for an enabled
    qubit with a function, and for an enabled qubit without function the
    result buffer only if the qubit was Completed before the call. *)
Theorem stats_after_execute_account_for_enabled_qubits :
  forall (ctx_alloc : nat -> ptr) (r : QARMA_QUANTUM_REGISTER) (m : mem),
    reg_wf r ->
    reg_executing r = false ->
    let r' := ex_reg (qarma_quantum_execute ctx_alloc r m) in
    let s := qarma_quantum_get_stats r' in
    completed_qubits s + failed_qubits s = count_finished ctx_alloc 0 (reg_qubits r) /\
    enabled_qubits s = count_enabled (reg_qubits r) /\
    completed_qubits s + failed_qubits s <= enabled_qubits s /\
    (completed_qubits s + failed_qubits s = enabled_qubits s <->
     forall i q, reg_qubits r !! i = Some q -> qb_enabled q = true ->
       is_null (ctx_alloc i) = false -> qb_function q <> None) /\
    enabled_qubits s <= total_qubits s /\ total_qubits s = reg_count r /\
    (forall index, reg_count r <= index -> qarma_quantum_get_qubit_result r' index = NULL) /\
    (forall i q, reg_qubits r !! i = Some q ->
       qarma_quantum_get_qubit_result r' (Z.of_nat i)
       = if negb (qb_enabled q) || is_null (ctx_alloc i) then NULL
         else match qb_function q with
              | Some _ => qb_result q
              | None =>
                  if status_eqb (qb_status q) QUBIT_STATUS_COMPLETED then qb_result q
                  else NULL
              end).
Proof.
  intros ctx_alloc r m [Hlen Hcount] Hex r' s. subst s r'.
  unfold qarma_quantum_execute. rewrite Hex.
  cbn [reg_qubits set_reg_failed_count set_reg_completed_count set_reg_collapsed
       set_reg_executing].
  pose proof (dispatch_loop_finished ctx_alloc (reg_qubits r) 0 (mkDispatch m 0 0 0 []))
    as Hc.
  pose proof (dispatch_loop_lookup ctx_alloc (reg_qubits r) 0 (mkDispatch m 0 0 0 []))
    as Hl.
  destruct (dispatch_loop ctx_alloc 0 (reg_qubits r) (mkDispatch m 0 0 0 [])) as [qs st].
  cbn [ds_completed ds_failed fst] in *.
  destruct Hc as (Hsum & Hc0 & Hf0 & Hen); [lia | lia | lia |].
  pose proof (count_enabled_bounds (reg_qubits r)) as Hb.
  pose proof (count_finished_bounds ctx_alloc (reg_qubits r) 0) as Hfb.
  unfold qarma_quantum_get_stats, qarma_quantum_get_qubit_result.
  cbn [ex_reg reg_completed_count reg_failed_count reg_qubits reg_count
       set_reg_executing set_reg_failed_count set_reg_completed_count set_reg_qubits
       set_reg_collapsed completed_qubits failed_qubits enabled_qubits total_qubits].
  rewrite Hen, (u32_small (count_enabled (reg_qubits r))) by lia.
  split; [lia|]. split; [reflexivity|]. split; [lia|].
  split.
  { rewrite Hsum. replace (0 + 0 + count_finished ctx_alloc 0 (reg_qubits r))
      with (count_finished ctx_alloc 0 (reg_qubits r)) by lia.
    apply (count_finished_all ctx_alloc (reg_qubits r) 0). }
  split; [lia|]. split; [reflexivity|].
  split.
  - intros index Hi. replace (index >=? reg_count r) with true
      by (symmetry; apply Z.geb_le; lia). reflexivity.
  - intros i q Hq.
    assert (Hi : (i < length (reg_qubits r))%nat) by (eapply lookup_lt_Some; exact Hq).
    replace (Z.of_nat i >=? reg_count r) with false
      by (symmetry; rewrite Z.geb_leb; apply Z.leb_gt; lia).
    rewrite Nat2Z.id.
    destruct (Hl i q Hq) as (q' & Hq' & _ & _ & _ & Hres & _ & Hs).
    rewrite Hq', Hs, Hres. cbn [Nat.add]. unfold qubit_writes.
    destruct (qb_enabled q) eqn:E; cbn [negb orb]; [|reflexivity].
    destruct (is_null (ctx_alloc i)); [reflexivity|].
    destruct (qb_function q); cbn [List.last]; [reflexivity|].
    destruct (status_eqb (qb_status q) QUBIT_STATUS_COMPLETED); reflexivity.
Qed.

Lemma stats_after_execute_account_for_enabled_qubits_witness :
  enabled_qubits (qarma_quantum_get_stats
                    (ex_reg (qarma_quantum_execute (always 4096) enabled_without_init mem0)))
  = 2 /\
  completed_qubits (qarma_quantum_get_stats
                      (ex_reg (qarma_quantum_execute (always 4096) enabled_without_init mem0)))
  + failed_qubits (qarma_quantum_get_stats
                     (ex_reg (qarma_quantum_execute (always 4096) enabled_without_init mem0)))
  = 1.
Proof.
  destruct (stats_after_execute_account_for_enabled_qubits (always 4096) enabled_without_init
              mem0) as (Hsum & He & _).
  - split; [reflexivity | split; reflexivity].
  - reflexivity.
  - split; [exact He | exact Hsum].
Defined.

(** X22. [qarma_quantum_set_temporal] allocates the score array once. The
    first configuration with a positive window, when its allocations succeed,
    leaves an empty history and a zeroed array with the slots the byte count
    [window_size * sizeof(int)] holds: [window_size] of them as long as the
    window is below 2^30, fewer when the product wraps around in [size_t]. A
    later call changes the recorded window size and trend weight but keeps
    the array it finds, with its length and contents, so a larger window is
    not backed by a larger array. *)
Theorem set_temporal_allocates_the_score_array_once :
  forall (r : QARMA_QUANTUM_REGISTER) (window_size trend_weight : Z)
         (heap_struct heap_scores heap_stamps : ptr),
    reg_temporal r = None ->
    heap_struct <> NULL -> heap_scores <> NULL -> 0 < window_size < 2 ^ 32 ->
    let r1 := qarma_quantum_set_temporal r window_size trend_weight
                                         heap_struct heap_scores heap_stamps in
    exists (h : QARMA_TEMPORAL_HISTORY) (slots : nat),
      reg_temporal r1 = Some h /\
      th_quality_history h = Some (repeat 0 slots) /\
      Z.of_nat slots = alloc_slots 4 window_size /\
      (window_size < 2 ^ 30 -> Z.of_nat slots = window_size) /\
      (2 ^ 30 <= window_size -> Z.of_nat slots < window_size) /\
      th_history_size h = 0 /\
      th_window_size h = window_size /\ th_trend_weight h = trend_weight /\
      forall (window_size2 trend_weight2 : Z) (heap_struct2 heap_scores2 heap_stamps2 : ptr),
        exists h2,
          reg_temporal (qarma_quantum_set_temporal r1 window_size2 trend_weight2
                          heap_struct2 heap_scores2 heap_stamps2) = Some h2 /\
          th_quality_history h2 = Some (repeat 0 slots) /\
          th_window_size h2 = window_size2 /\ th_trend_weight h2 = trend_weight2.
Proof.
  intros r window_size trend_weight heap_struct heap_scores heap_stamps Hnone Hs Hq Hw r1.
  set (slots := Z.to_nat (alloc_slots 4 window_size)).
  assert (E1 : r1 = set_reg_temporal
                      (Some (mkTemporal heap_stamps (Some (repeat 0 slots))
                                        0 window_size trend_weight)) r).
  { subst r1. unfold qarma_quantum_set_temporal. rewrite Hnone.
    replace (is_null heap_struct) with false by (symmetry; apply Z.eqb_neq; exact Hs).
    cbn [th_quality_history th_timestamps th_history_size].
    replace (window_size >? 0) with true by (symmetry; apply Z.gtb_lt; lia).
    replace (is_null heap_scores) with false by (symmetry; apply Z.eqb_neq; exact Hq).
    reflexivity. }
  rewrite E1. clear E1 r1.
  assert (Hpos : 0 <= alloc_slots 4 window_size).
  { unfold alloc_slots, u32. apply Z.div_pos; [|lia]. apply Z.mod_pos_bound. lia. }
  assert (Hslots : Z.of_nat slots = alloc_slots 4 window_size) by (unfold slots; lia).
  exists (mkTemporal heap_stamps (Some (repeat 0 slots)) 0 window_size trend_weight), slots.
  split; [reflexivity|].
  cbn [th_quality_history th_history_size th_window_size th_trend_weight].
  split; [reflexivity|]. split; [exact Hslots|].
  split; [intros Hfit; rewrite Hslots; apply alloc_slots_fits; lia|].
  split; [intros Hwrap; rewrite Hslots; apply alloc_slots_wraps; lia|].
  repeat (split; [reflexivity|]).
  intros w2 t2 hs2 hq2 ht2. unfold qarma_quantum_set_temporal.
  cbn [reg_temporal set_reg_temporal th_quality_history]. eexists.
  split; [reflexivity|]. cbn. repeat split.
Qed.

Lemma set_temporal_allocates_the_score_array_once_witness :
  exists h,
    reg_temporal (qarma_quantum_set_temporal (fresh 3) 4 50 20480 24576 28672) = Some h /\
    th_quality_history h = Some [0; 0; 0; 0] /\
    exists h2,
      reg_temporal (qarma_quantum_set_temporal
                      (qarma_quantum_set_temporal (fresh 3) 4 50 20480 24576 28672)
                      8 25 NULL NULL NULL) = Some h2 /\
      th_quality_history h2 = Some [0; 0; 0; 0] /\ th_window_size h2 = 8.
Proof.
  destruct (set_temporal_allocates_the_score_array_once (fresh 3) 4 50 20480 24576 28672)
    as (h & slots & Hh & Hq & Hslots & _ & _ & _ & _ & _ & Hnext).
  - reflexivity.
  - discriminate.
  - discriminate.
  - split; reflexivity.
  - assert (Es : slots = 4%nat).
    { apply Nat2Z.inj. rewrite Hslots. reflexivity. }
    subst slots.
    exists h. split; [exact Hh|]. split; [exact Hq|].
    destruct (Hnext 8 25 NULL NULL NULL) as (h2 & Hh2 & Hq2 & Hw2 & _).
    exists h2. split; [exact Hh2|]. split; [exact Hq2 | exact Hw2].
Defined.

(** A window of 2^30 + 1 asks for 4 bytes: one slot. *)
Example set_temporal_window_wraps :
  alloc_slots 4 (2 ^ 30 + 1) = 1 /\
  match reg_temporal (qarma_quantum_set_temporal (fresh 3) (2 ^ 30 + 1) 50
                                                 20480 24576 28672) with
  | Some h => th_quality_history h = Some [0] /\ th_window_size h = 2 ^ 30 + 1
  | None => False
  end.
Proof. split; [reflexivity|]. vm_compute. split; reflexivity. Qed.

End Reporting.

Section MessageBus.
Import Mach CrossLearning.

Lemma nth_as_lookup (l : list cross_message_t) (i : nat) :
  (i < length l)%nat -> l !! i = Some (nth i l zero_message).
Proof.
  intros H. destruct (lookup_lt_is_Some_2 l i H) as [x Hx].
  rewrite Hx. f_equal. symmetry. apply nth_lookup_Some with (d := zero_message) in Hx.
  exact Hx.
Qed.

Lemma slot_small z : 0 <= z < 64 -> u32 z mod MAX_CROSS_MESSAGES = z.
Proof.
  intros H. unfold u32, MAX_CROSS_MESSAGES.
  rewrite (Z.mod_small z (2 ^ 32)) by lia. apply Z.mod_small. exact H.
Qed.

Lemma shift_down_length n : forall queue head j,
  length (shift_down queue head j n) = length queue.
Proof.
  induction n as [|n IH]; intros queue head j; cbn [shift_down]; [reflexivity|].
  rewrite IH. apply length_insert.
Qed.

Lemma shift_down_lookup n : forall queue j p,
  length queue = 64%nat -> (j + n < 64)%nat ->
  shift_down queue 0 (Z.of_nat j) n !! p
  = if (j <=? p)%nat && (p <? j + n)%nat then queue !! S p else queue !! p.
Proof.
  induction n as [|n IH]; intros queue j p Hlen Hj; cbn [shift_down].
  - destruct (Nat.leb_spec j p); destruct (Nat.ltb_spec p (j + 0)); cbn [andb];
      try reflexivity; lia.
  - rewrite !slot_small by lia.
    replace (0 + Z.of_nat j + 1) with (Z.of_nat (S j)) by lia.
    replace (0 + Z.of_nat j) with (Z.of_nat j) by lia.
    replace (Z.of_nat j + 1) with (Z.of_nat (S j)) by lia.
    rewrite !Nat2Z.id.
    rewrite IH by (rewrite ?length_insert; lia).
    destruct (Nat.leb_spec (S j) p); destruct (Nat.ltb_spec p (S j + n));
      destruct (Nat.leb_spec j p); destruct (Nat.ltb_spec p (j + S n));
      cbn [andb]; try lia.
    + apply list_lookup_insert_ne. lia.
    + apply list_lookup_insert_ne. lia.
    + assert (p = j) by lia. subst p.
      rewrite list_lookup_insert_eq by lia. symmetry. apply nth_as_lookup. lia.
    + apply list_lookup_insert_ne. lia.
Qed.

Lemma pending_untouched b :
  untouched b -> pending b = firstn (Z.to_nat (g_queue_count b)) (g_message_queue b).
Proof.
  intros (Hlen & Hhead & Hcount & _). unfold pending. rewrite Hhead.
  apply list_eq. intros p.
  destruct (le_lt_dec (Z.to_nat (g_queue_count b)) p) as [Hp|Hp].
  - rewrite lookup_ge_None_2 by (rewrite length_map, length_seq; lia).
    symmetry. apply lookup_ge_None_2. rewrite length_take. lia.
  - rewrite list_lookup_fmap, lookup_seq_lt by exact Hp. cbn [fmap option_fmap option_map].
    rewrite lookup_take_lt by exact Hp.
    replace (Z.to_nat ((0 + Z.of_nat (0 + p)) mod MAX_CROSS_MESSAGES)) with p.
    2:{ unfold MAX_CROSS_MESSAGES. rewrite Z.mod_small by lia. lia. }
    symmetry. apply nth_as_lookup. lia.
Qed.

(** X23. Until a message is taken, the bus queues messages in order and
    bounds them at 64. On an enabled bus from which nothing has been received,
    [cross_learning_send_message] with its payload allocated and fewer than 64
    messages pending returns TRUE, appends the message (sender, type, size,
    the copy of the payload, relevance 75) after the pending ones, counts it
    as sent and leaves the payload copy equal to the sender's data; with 64
    messages pending it returns FALSE and the queue is unchanged: the message
    is dropped. *)
Theorem send_appends_until_the_queue_is_full :
  forall (b : bus) (sender : Z) (type : cross_message_type_t) (data : ptr) (data_size : Z)
         (target_id : Z) (heap : ptr) (m : mem),
    untouched b -> config_enabled b = true -> heap <> NULL ->
    let '(sent, b', m') :=
      cross_learning_send_message b sender type data data_size target_id heap m in
    if g_queue_count b <? 64 then
      sent = true /\
      pending b' = pending b ++ [mkMessage type sender 0 data_size heap 75] /\
      untouched b' /\
      messages_sent b' = u32 (messages_sent b + 1) /\
      (0 < data_size ->
       load_bytes m' heap (Z.to_nat data_size) = load_bytes m data (Z.to_nat data_size))
    else
      sent = false /\ b' = b.
Proof.
  intros b sender type data data_size target_id heap m Hu Hen Hheap.
  pose proof (pending_untouched b Hu) as Hpend.
  destruct Hu as (Hlen & Hhead & Hcount & Htail).
  unfold cross_learning_send_message, enqueue_message. rewrite Hen. cbn [negb].
  replace (is_null heap) with false by (symmetry; apply Z.eqb_neq; exact Hheap).
  cbn [andb]. unfold MAX_CROSS_MESSAGES.
  destruct (g_queue_count b <? 64) eqn:Elt.
  - apply Z.ltb_lt in Elt.
    replace (g_queue_count b >=? 64) with false
      by (symmetry; rewrite Z.geb_leb; apply Z.leb_gt; lia).
    assert (Ht : g_queue_tail b = g_queue_count b) by (rewrite Htail; apply Z.mod_small; lia).
    cbv beta iota zeta.
    cbn [g_message_queue g_queue_head g_queue_tail g_queue_count config_enabled
         messages_sent messages_received g_best_solution].
    match goal with |- _ /\ pending ?x = _ /\ _ => set (b' := x) end.
    assert (Hu' : untouched b').
    { unfold untouched, b'. cbn [g_message_queue g_queue_head g_queue_count g_queue_tail].
      rewrite length_insert, Ht. unfold u32. rewrite !(Z.mod_small (_ + 1) (2 ^ 32)) by lia.
      repeat split; try assumption; lia. }
    split; [reflexivity|]. split; [|split; [exact Hu'|split; [reflexivity|]]].
    + rewrite (pending_untouched _ Hu'), Hpend.
      unfold b'. cbn [g_message_queue g_queue_count]. rewrite Ht.
      unfold u32. rewrite (Z.mod_small (_ + 1) (2 ^ 32)) by lia.
      replace (Z.to_nat (g_queue_count b + 1)) with (S (Z.to_nat (g_queue_count b))) by lia.
      apply list_eq. intros p.
      destruct (lt_eq_lt_dec p (Z.to_nat (g_queue_count b))) as [[Hp|Hp]|Hp].
      * rewrite lookup_take_lt by lia. rewrite list_lookup_insert_ne by lia.
        rewrite lookup_app_l by (rewrite length_take; lia).
        rewrite lookup_take_lt by lia. reflexivity.
      * subst p. rewrite lookup_take_lt by lia. rewrite list_lookup_insert_eq by lia.
        rewrite lookup_app_r by (rewrite length_take; lia).
        rewrite length_take. replace (_ - _)%nat with 0%nat by lia. reflexivity.
      * rewrite lookup_ge_None_2 by (rewrite length_take, length_insert; lia).
        symmetry. apply lookup_ge_None_2. rewrite length_app, length_take. cbn [length]. lia.
    + intros Hsize. replace (data_size >? 0) with true by (symmetry; apply Z.gtb_lt; lia).
      apply load_memcpy.
  - apply Z.ltb_ge in Elt.
    replace (g_queue_count b >=? 64) with true by (symmetry; apply Z.geb_le; lia).
    split; reflexivity.
Qed.

Lemma first_for_bound q : forall msgs i k msg,
  first_for q msgs i = Some (k, msg) ->
  (i <= k < i + length msgs)%nat /\ msgs !! (k - i)%nat = Some msg /\ sender_id msg <> q.
Proof.
  induction msgs as [|x rest IH]; intros i k msg H; cbn [first_for] in H; [discriminate|].
  destruct (sender_id x =? q) eqn:E; cbn [negb] in H.
  - apply IH in H as (Hk & Hl & Hs). cbn [length]. split; [lia|]. split; [|exact Hs].
    replace (k - i)%nat with (S (k - S i)) by lia. exact Hl.
  - inversion H; subst. cbn [length]. split; [lia|]. rewrite Nat.sub_diag.
    split; [reflexivity | apply Z.eqb_neq; exact E].
Qed.

Lemma dequeue_from_spec b q : forall n i idx,
  length (g_message_queue b) = 64%nat -> g_queue_head b = 0 ->
  Z.of_nat (i + n) = g_queue_count b -> g_queue_count b <= 64 ->
  ((0 < n)%nat -> idx = Z.of_nat i) ->
  dequeue_from b q (Z.of_nat i) idx n
  = match first_for q (firstn n (skipn i (g_message_queue b))) i with
    | Some (k, msg) =>
        (Some msg,
         mkBus (shift_down (g_message_queue b) 0 (Z.of_nat k)
                           (Z.to_nat (g_queue_count b) - 1 - k))
               0 (g_queue_tail b) (g_queue_count b - 1)
               (config_enabled b) (messages_sent b) (messages_received b)
               (g_best_solution b))
    | None => (None, b)
    end.
Proof.
  induction n as [|n IH]; intros i idx Hlen Hhead Hcount Hmax Hidx; cbn [dequeue_from].
  - reflexivity.
  - rewrite (Hidx ltac:(lia)), Nat2Z.id.
    assert (Hi : (i < length (g_message_queue b))%nat) by lia.
    rewrite (drop_S _ _ _ (nth_as_lookup _ _ Hi)). cbn [firstn first_for].
    destruct (negb (sender_id (nth i (g_message_queue b) zero_message) =? q)).
    + rewrite Hhead. f_equal. f_equal.
      * f_equal. unfold u32. rewrite Z.mod_small by lia. lia.
      * unfold u32. apply Z.mod_small. lia.
    + replace (Z.of_nat i + 1) with (Z.of_nat (S i)) by lia.
      apply IH; try assumption; [lia|].
      intros Hn. rewrite slot_small by lia. lia.
Qed.

(** X24. On an enabled bus from which nothing has been received yet,
    [cross_learning_receive_message] hands a qubit the oldest pending message
    that it did not send itself and removes exactly that message, keeping the
    others in order; when every pending message is its own (or none is
    pending) it returns FALSE and changes nothing. The removal leaves the tail
    index where it was, one slot past the end of the pending messages. *)
Theorem receive_takes_the_oldest_message_of_another_qubit :
  forall (b : bus) (qubit_id : Z),
    untouched b -> config_enabled b = true ->
    let '(received, b') := cross_learning_receive_message b qubit_id in
    match first_for qubit_id (pending b) 0 with
    | Some (k, msg) =>
        received = Some msg /\ sender_id msg <> qubit_id /\
        pending b' = delete k (pending b) /\
        g_queue_count b' = g_queue_count b - 1 /\
        messages_received b' = u32 (messages_received b + 1) /\
        g_queue_head b' = 0 /\ g_queue_tail b' = g_queue_tail b /\
        g_queue_tail b' = (g_queue_count b' + 1) mod 64
    | None => received = None /\ b' = b
    end.
Proof.
  intros b q Hu Hen.
  pose proof (pending_untouched b Hu) as Hpend.
  destruct Hu as (Hlen & Hhead & Hcount & Htail).
  unfold cross_learning_receive_message, dequeue_message. rewrite Hen. cbn [negb].
  rewrite Hpend.
  destruct (g_queue_count b =? 0) eqn:Ez.
  - apply Z.eqb_eq in Ez. rewrite Ez. cbn. split; reflexivity.
  - apply Z.eqb_neq in Ez. rewrite Hhead.
    pose proof (dequeue_from_spec b q (Z.to_nat (g_queue_count b)) 0%nat 0 Hlen Hhead
                  ltac:(lia) ltac:(lia) ltac:(reflexivity)) as Hd.
    change (Z.of_nat 0) with 0 in Hd. rewrite Hd. clear Hd.
    rewrite drop_0.
    destruct (first_for q (firstn (Z.to_nat (g_queue_count b)) (g_message_queue b)) 0)
      as [[k msg]|] eqn:Ef; [|split; reflexivity].
    destruct (first_for_bound q _ _ _ _ Ef) as (Hk & Hmsg & Hs).
    rewrite length_take in Hk.
    split; [reflexivity|]. split; [exact Hs|].
    cbn [g_queue_count g_queue_head g_queue_tail messages_received].
    split; [|split; [reflexivity|split; [reflexivity|split; [reflexivity|split;
            [reflexivity|]]]]].
    + unfold pending. cbn [g_queue_head g_queue_count g_message_queue].
      apply list_eq. intros p.
      destruct (le_lt_dec (Z.to_nat (g_queue_count b - 1)) p) as [Hp|Hp].
      * rewrite lookup_ge_None_2 by (rewrite length_map, length_seq; lia).
        symmetry. apply lookup_ge_None_2. rewrite length_delete.
        2:{ apply lookup_lt_is_Some_2. rewrite length_take. lia. }
        rewrite length_take. lia.
      * rewrite list_lookup_fmap, lookup_seq_lt by exact Hp.
        cbn [fmap option_fmap option_map].
        replace (Z.to_nat ((0 + Z.of_nat (0 + p)) mod MAX_CROSS_MESSAGES)) with p.
        2:{ unfold MAX_CROSS_MESSAGES. rewrite Z.mod_small by lia. lia. }
        assert (Hl : shift_down (g_message_queue b) 0 (Z.of_nat k)
                       (Z.to_nat (g_queue_count b) - 1 - k) !! p
                     = if (k <=? p)%nat && (p <? k + (Z.to_nat (g_queue_count b) - 1 - k))%nat
                       then g_message_queue b !! S p else g_message_queue b !! p)
          by (apply shift_down_lookup; lia).
        rewrite <- (nth_as_lookup _ p) by (rewrite shift_down_length; lia).
        rewrite Hl.
        destruct (Nat.leb_spec k p); destruct (Nat.ltb_spec p
                    (k + (Z.to_nat (g_queue_count b) - 1 - k))); cbn [andb]; try lia.
        -- rewrite list_lookup_delete_ge by lia. rewrite lookup_take_lt by lia. reflexivity.
        -- rewrite list_lookup_delete_lt by lia. rewrite lookup_take_lt by lia. reflexivity.
    + rewrite Htail. rewrite Z.sub_add. reflexivity.
Qed.

(** X25. The removal in [dequeue_message] does not move the tail index back,
    so once a message has been received the next message sent is stored one
    slot past the pending ones. Starting from an empty, enabled bus: qubit
    [q] receives message A; a second message B is then sent successfully; the
    next receive by [q] hands out A again, and B is left in the array outside
    the pending range, with the queue counted empty. *)
Theorem message_sent_after_a_receive_is_not_delivered :
  forall (b : bus) (sa sb q : Z) (ta tb : cross_message_type_t) (da db : ptr) (na nb : Z)
         (ha hb : ptr) (m : mem),
    untouched b -> g_queue_count b = 0 -> config_enabled b = true ->
    sa <> q -> ha <> NULL -> hb <> NULL ->
    let A := mkMessage ta sa 0 na ha 75 in
    let B := mkMessage tb sb 0 nb hb 75 in
    let '(_, b1, m1) := cross_learning_send_message b sa ta da na (-1) ha m in
    let '(r1, b2) := cross_learning_receive_message b1 q in
    let '(sent, b3, _) := cross_learning_send_message b2 sb tb db nb (-1) hb m1 in
    let '(r2, b4) := cross_learning_receive_message b3 q in
    r1 = Some A /\ sent = true /\ r2 = Some A /\
    g_queue_count b4 = 0 /\ pending b4 = [] /\
    nth 1 (g_message_queue b4) zero_message = B /\
    messages_sent b4 = u32 (u32 (messages_sent b + 1) + 1) /\
    messages_received b4 = u32 (u32 (messages_received b + 1) + 1).
Proof.
  intros b sa sb q ta tb da db na nb ha hb m (Hlen & Hhead & _ & Htail) Hcount Hen
         Hq Hha Hhb A B.
  destruct b as [queue head tail count en sent0 received0 best].
  cbn [g_message_queue g_queue_head g_queue_tail g_queue_count config_enabled] in *.
  subst head count en. change (0 mod 64) with 0 in Htail. subst tail.
  destruct queue as [|x0 [|x1 rest]]; [discriminate | discriminate |].
  assert (Hsa : (sa =? q) = false) by (apply Z.eqb_neq; exact Hq).
  assert (Ea : is_null ha = false) by (apply Z.eqb_neq; exact Hha).
  assert (Eb : is_null hb = false) by (apply Z.eqb_neq; exact Hhb).
  set (m1 := if na >? 0 then memcpy m ha da na else m).
  set (m2 := if nb >? 0 then memcpy m1 hb db nb else m1).
  assert (E1 : cross_learning_send_message
                 (mkBus (x0 :: x1 :: rest) 0 0 0 true sent0 received0 best)
                 sa ta da na (-1) ha m
               = (true, mkBus (A :: x1 :: rest) 0 1 1 true (u32 (sent0 + 1)) received0 best,
                  m1)).
  { unfold cross_learning_send_message. cbn [config_enabled negb]. rewrite Ea. reflexivity. }
  assert (E2 : cross_learning_receive_message
                 (mkBus (A :: x1 :: rest) 0 1 1 true (u32 (sent0 + 1)) received0 best) q
               = (Some A, mkBus (A :: x1 :: rest) 0 1 0 true (u32 (sent0 + 1))
                                (u32 (received0 + 1)) best)).
  { unfold cross_learning_receive_message, dequeue_message.
    cbn [config_enabled negb g_queue_count g_queue_head].
    change (1 =? 0) with false. change (Z.to_nat 1) with 1%nat. cbv iota.
    cbn [dequeue_from]. change (Z.to_nat 0) with 0%nat.
    cbn [g_message_queue nth]. unfold A at 1. cbn [sender_id]. rewrite Hsa. reflexivity. }
  assert (E3 : cross_learning_send_message
                 (mkBus (A :: x1 :: rest) 0 1 0 true (u32 (sent0 + 1))
                        (u32 (received0 + 1)) best)
                 sb tb db nb (-1) hb m1
               = (true, mkBus (A :: B :: rest) 0 2 1 true (u32 (u32 (sent0 + 1) + 1))
                              (u32 (received0 + 1)) best,
                  m2)).
  { unfold cross_learning_send_message. cbn [config_enabled negb]. rewrite Eb. reflexivity. }
  assert (E4 : cross_learning_receive_message
                 (mkBus (A :: B :: rest) 0 2 1 true (u32 (u32 (sent0 + 1) + 1))
                        (u32 (received0 + 1)) best) q
               = (Some A, mkBus (A :: B :: rest) 0 2 0 true (u32 (u32 (sent0 + 1) + 1))
                                (u32 (u32 (received0 + 1) + 1)) best)).
  { unfold cross_learning_receive_message, dequeue_message.
    cbn [config_enabled negb g_queue_count g_queue_head].
    change (1 =? 0) with false. change (Z.to_nat 1) with 1%nat. cbv iota.
    cbn [dequeue_from]. change (Z.to_nat 0) with 0%nat.
    cbn [g_message_queue nth]. unfold A at 1. cbn [sender_id]. rewrite Hsa. reflexivity. }
  rewrite E1, E2, E3, E4. repeat split.
Qed.

End MessageBus.

Section Convergence.
Import Mach Select CrossLearning.

Lemma send_keeps_best b sender type data size target heap m :
  g_best_solution (snd (fst (cross_learning_send_message b sender type data size target
                                                          heap m)))
  = g_best_solution b.
Proof.
  unfold cross_learning_send_message, enqueue_message.
  destruct (config_enabled b); cbn [negb]; [|reflexivity].
  destruct (is_null heap && (size >? 0)); [reflexivity|].
  destruct (g_queue_count b >=? MAX_CROSS_MESSAGES); reflexivity.
Qed.

Lemma broadcast_step_best st bc :
  bc_heap_best bc <> NULL ->
  g_best_solution (fst (broadcast_step st bc))
  = if negb (has_solution (g_best_solution (fst st)))
       || (bc_quality bc >? quality_score (g_best_solution (fst st)))
    then mkBest true (bc_sender bc) (bc_quality bc) (bc_heap_best bc) (bc_size bc)
    else g_best_solution (fst st).
Proof.
  intros Hh. unfold broadcast_step, cross_learning_broadcast_best.
  replace (is_null (bc_heap_best bc)) with false by (symmetry; apply Z.eqb_neq; exact Hh).
  destruct (negb (has_solution (g_best_solution (fst st)))
            || (bc_quality bc >? quality_score (g_best_solution (fst st)))).
  - match goal with |- context [cross_learning_send_message ?b ?s ?t ?d ?n ?g ?h ?m] =>
      pose proof (send_keeps_best b s t d n g h m) as Hk;
      destruct (cross_learning_send_message b s t d n g h m) as [[ok b2] m2] end.
    cbn [fst snd] in *. exact Hk.
  - match goal with |- context [cross_learning_send_message ?b ?s ?t ?d ?n ?g ?h ?m] =>
      pose proof (send_keeps_best b s t d n g h m) as Hk;
      destruct (cross_learning_send_message b s t d n g h m) as [[ok b2] m2] end.
    cbn [fst snd] in *. exact Hk.
Qed.

Lemma first_max_snoc_new scores x :
  (forall j y, scores !! j = Some y -> y < x) ->
  first_max (scores ++ [x]) (length scores).
Proof.
  intros H. exists x. split.
  { rewrite lookup_app_r by lia. rewrite Nat.sub_diag. reflexivity. }
  split.
  - intros j y Hj. apply lookup_app_Some in Hj as [Hj | [_ Hj]].
    + specialize (H j y Hj). lia.
    + apply list_lookup_singleton_Some in Hj as [_ <-]. lia.
  - intros j y Hlt Hj. rewrite lookup_app_l in Hj by exact Hlt. apply (H j y Hj).
Qed.

Lemma first_max_snoc_old scores k v x :
  first_max scores k -> scores !! k = Some v -> x <= v ->
  first_max (scores ++ [x]) k.
Proof.
  intros (v' & Hk & Hmax & Hfirst) Hv Hx. rewrite Hv in Hk. inversion Hk; subst v'.
  exists v. split.
  { rewrite lookup_app_l by (eapply lookup_lt_Some; exact Hv). exact Hv. }
  split.
  - intros j y Hj. apply lookup_app_Some in Hj as [Hj | [_ Hj]].
    + apply (Hmax j y Hj).
    + apply list_lookup_singleton_Some in Hj as [_ <-]. exact Hx.
  - intros j y Hlt Hj.
    rewrite lookup_app_l in Hj by (apply lookup_lt_Some in Hv; lia).
    apply (Hfirst j y Hlt Hj).
Qed.

(** X26. After a series of [cross_learning_broadcast_best] calls whose copies
    could all be allocated, on a bus that held no solution before,
    [cross_learning_check_convergence] reports the sender of the broadcast
    with the highest quality score, the earliest one among equals, and the
    bus keeps that broadcast's score and its copy of the solution. *)
Theorem convergence_reports_the_best_broadcast :
  forall (bcs : list broadcast) (b : bus) (m : mem),
    has_solution (g_best_solution b) = false ->
    bcs <> [] ->
    Forall (fun bc => bc_heap_best bc <> NULL) bcs ->
    exists k bc,
      first_max (List.map bc_quality bcs) k /\ bcs !! k = Some bc /\
      cross_learning_check_convergence (fst (run_broadcasts bcs b m)) = Some (bc_sender bc) /\
      g_best_solution (fst (run_broadcasts bcs b m))
      = mkBest true (bc_sender bc) (bc_quality bc) (bc_heap_best bc) (bc_size bc).
Proof.
  intros bcs b m Hnone. induction bcs as [|bc bcs IH] using rev_ind; [contradiction|].
  intros _ Hall. apply Forall_app in Hall as [Hall Hbc].
  apply Forall_cons_1 in Hbc as [Hbc _].
  unfold run_broadcasts. rewrite fold_left_app. cbn [fold_left].
  fold (run_broadcasts bcs b m).
  assert (Hconv : forall (st : bus * mem) s,
            g_best_solution (fst st) = s -> has_solution s = true ->
            cross_learning_check_convergence (fst st) = Some (best_qubit_id s)).
  { intros st s <- Hs. unfold cross_learning_check_convergence. rewrite Hs. reflexivity. }
  rewrite List.map_app. cbn [List.map].
  assert (Hcase : bcs = [] \/ bcs <> [])
    by (destruct bcs; [left; reflexivity | right; discriminate]).
  destruct Hcase as [-> | Hne].
  - cbn [run_broadcasts fold_left List.map app].
    exists 0%nat, bc. split.
    { exists (bc_quality bc). split; [reflexivity|]. split.
      - intros [|j] y Hj; [inversion Hj; lia | discriminate].
      - intros j y Hlt. lia. }
    split; [reflexivity|].
    assert (E : g_best_solution (fst (broadcast_step (b, m) bc))
                = mkBest true (bc_sender bc) (bc_quality bc) (bc_heap_best bc) (bc_size bc)).
    { rewrite (broadcast_step_best (b, m) bc Hbc). cbn [fst]. rewrite Hnone. reflexivity. }
    split; [|exact E]. apply (Hconv _ _ E). reflexivity.
  - destruct (IH Hne Hall) as (k & bck & Hmax & Hk & _ & Hbest).
    pose proof (broadcast_step_best (run_broadcasts bcs b m) bc Hbc) as Hstep.
    rewrite Hbest in Hstep. cbn [has_solution negb orb quality_score] in Hstep.
    assert (Hkq : List.map bc_quality bcs !! k = Some (bc_quality bck))
      by (rewrite list_lookup_fmap, Hk; reflexivity).
    destruct (bc_quality bc >? bc_quality bck) eqn:Egt.
    + apply Z.gtb_lt in Egt.
      exists (length bcs), bc. split.
      { rewrite <- (length_map bc_quality bcs). apply first_max_snoc_new.
        intros j y Hj. destruct Hmax as (v & Hv & Hle & _).
        rewrite Hkq in Hv. inversion Hv; subst v. specialize (Hle j y Hj). lia. }
      split; [rewrite lookup_app_r by lia; rewrite Nat.sub_diag; reflexivity|].
      split; [|exact Hstep]. apply (Hconv _ _ Hstep). reflexivity.
    + rewrite Z.gtb_ltb in Egt. apply Z.ltb_ge in Egt.
      exists k, bck. split; [apply (first_max_snoc_old _ _ _ _ Hmax Hkq Egt)|].
      split; [rewrite lookup_app_l by (eapply lookup_lt_Some; exact Hk); exact Hk|].
      split; [|exact Hstep]. apply (Hconv _ _ Hstep). reflexivity.
Qed.

End Convergence.

(** The selection rules on the sample results. *)
Section SelectionOnSamples.
Import Mach Reg RegConfig Samples Select SelectSamples.

Lemma best_copies_first_highest_score_witness :
  exists b,
    first_max (scores_of first_byte three_results mem_scores) b /\
    apply_strategy heap_ok three_results best_reg mem_scores
    = (best_reg, memcpy mem_scores 512 (result_at three_results b) 4) /\
    load_bytes (snd (apply_strategy heap_ok three_results best_reg mem_scores)) 512 4
    = load_bytes mem_scores (result_at three_results b) 4.
Proof.
  apply (best_copies_first_highest_score heap_ok three_results best_reg mem_scores first_byte).
  - discriminate.
  - reflexivity.
  - reflexivity.
  - discriminate.
  - reflexivity.
Defined.

Lemma fuzzy_copies_one_of_the_results_witness :
  exists i,
    (i < 3)%nat /\
    qarma_collapse_fuzzy three_results 512 4 (Some first_byte) mem_scores
    = memcpy mem_scores 512 (result_at three_results i) 4 /\
    (fuzzy_draw (nth 0 (scores_of first_byte three_results mem_scores) 0) < 70 ->
     Exists (fun s => -999999 < s) (scores_of first_byte three_results mem_scores) ->
     first_max (scores_of first_byte three_results mem_scores) i).
Proof.
  apply (fuzzy_copies_one_of_the_results three_results 512 4 first_byte mem_scores).
  - discriminate.
  - discriminate.
Defined.

Lemma multidim_copies_first_highest_aggregate_witness :
  exists b,
    first_max (List.map (fun p => multidim_aggregate quality_only p mem_scores) three_results) b /\
    qarma_collapse_multidim three_results 512 4 (Some quality_only) 12288 mem_scores
    = memcpy mem_scores 512 (result_at three_results b) 4.
Proof.
  apply (multidim_copies_first_highest_aggregate three_results 512 4 (Some quality_only)
           12288 mem_scores).
  - discriminate.
  - discriminate.
Defined.

Lemma temporal_selects_and_records_witness :
  exists b h',
    first_max (temporal_scores_of empty_history
                 (scores_of first_byte three_results mem_scores)) b /\
    qarma_collapse_temporal three_results 512 4 (Some first_byte) (Some empty_history)
                            12288 mem_scores
    = (Some h', memcpy mem_scores 512 (result_at three_results b) 4) /\
    th_history_size h' = 3.
Proof.
  destruct (temporal_selects_and_records three_results 512 4 first_byte empty_history
              12288 mem_scores) as (b & h' & Hb & Hrun & Hsize & _).
  - discriminate.
  - discriminate.
  - discriminate.
  - intros qh E. injection E as <-. cbn. lia.
  - exists b, h'. split; [exact Hb|]. split; [exact Hrun | exact Hsize].
Defined.


Lemma ensemble_copies_one_of_the_results_witness :
  exists i,
    (i < 3)%nat /\
    qarma_collapse_ensemble three_results 512 4 ensemble_reg 12288 mem_scores
    = memcpy mem_scores 512 (result_at three_results i) 4 /\
    i = ensemble_select ensemble_reg COLLAPSE_BEST three_results mem_scores.
Proof.
  destruct (ensemble_copies_one_of_the_results three_results 512 4 ensemble_reg
              ensemble_of_best 12288 mem_scores) as (i & Hi & Hrun & _ & Hone).
  - discriminate.
  - discriminate.
  - discriminate.
  - reflexivity.
  - reflexivity.
  - reflexivity.
  - cbn. lia.
  - exists i. split; [exact Hi|]. split; [exact Hrun|].
    apply (Hone COLLAPSE_BEST 5 [COLLAPSE_FIRST_WINS; COLLAPSE_FIRST_WINS] [0; 0]);
      [reflexivity | reflexivity | reflexivity | lia].
Defined.

End SelectionOnSamples.

(** The scheduler on the sample registers. *)
Section SchedulerOnSamples.
Import Mach Reg Sched SchedOrder Samples SchedSamples.

Lemma get_order_sorts_by_predicted_time_witness :
  exists order,
    quantum_scheduler_get_order scheduler_predicted three_sized 28672 = Order 3 order /\
    order ≡ₚ [0; 1; 2] /\
    forall p q, (p < q)%nat -> (q < length order)%nat ->
      time_at (imap (predict_qubit g_scheduler) (reg_qubits three_sized)) order q
      <= time_at (imap (predict_qubit g_scheduler) (reg_qubits three_sized)) order p.
Proof.
  apply (get_order_sorts_by_predicted_time scheduler_predicted three_sized 28672
           (imap (predict_qubit g_scheduler) (reg_qubits three_sized))).
  - reflexivity.
  - discriminate.
  - split; reflexivity.
  - vm_compute. lia.
Defined.

Example three_sized_longest_first :
  quantum_scheduler_get_order scheduler_predicted three_sized 28672 = Order 3 [1; 2; 0].
Proof. vm_compute. reflexivity. Qed.

Lemma learn_moves_average_towards_actual_time_witness :
  exists p',
    ls_patterns (learn_qubit ran_9_ms predicted_7_ms knows_4_state) !! 0%nat = Some p' /\
    sample_count p' = 2 /\
    avg_time_ms p' = (7 * 1 + 9) / 2 /\
    Z.min 7 9 <= avg_time_ms p' <= Z.max 7 9.
Proof.
  destruct (learn_moves_average_towards_actual_time ran_9_ms predicted_7_ms knows_4_state
              0%nat (mkPattern 4 7 1)) as (p' & Hp & _ & Hn & Havg & Hbetween & _).
  - reflexivity.
  - reflexivity.
  - cbn. lia.
  - cbn. lia.
  - reflexivity.
  - reflexivity.
  - exists p'. split; [exact Hp|]. split; [exact Hn|]. split; [exact Havg | exact Hbetween].
Defined.

End SchedulerOnSamples.

(** The controller, the observer and the bus on the sample runs. *)
Section RunsOnSamples.
Import Mach Reg Observer Adaptive AdaptiveRun CrossLearning Select Samples RunSamples.

Lemma adaptive_switch_changes_the_strategy_witness :
  let '(switched, r') := quantum_adaptive_check quantum_ai_init first_failing_check in
  if switched then
    reg_strategy r' <> current_strategy eager_state /\
    strategy_to_Z (reg_strategy r') < strategy_to_Z COLLAPSE_STRATEGY_COUNT /\
    exists st', reg_adaptive_state r' = Some st' /\
                current_strategy st' = reg_strategy r' /\
                has_switched st' = true /\
                original_strategy st' = original_strategy eager_state
  else
    reg_strategy r' = reg_strategy first_failing_check /\
    exists st', reg_adaptive_state r' = Some st' /\
                current_strategy st' = current_strategy eager_state /\
                original_strategy st' = original_strategy eager_state.
Proof.
  apply (adaptive_switch_changes_the_strategy quantum_ai_init first_failing_check eager_state).
  reflexivity.
Defined.

Example first_failing_check_switches :
  fst (quantum_adaptive_check quantum_ai_init first_failing_check) = true.
Proof. vm_compute. reflexivity. Qed.

Lemma adaptive_reset_restores_initial_strategy_witness :
  reg_strategy
    (quantum_adaptive_reset (fst (run_checks quantum_ai_init failing_run adaptive_reg)))
  = COLLAPSE_FIRST_WINS.
Proof.
  pose proof (adaptive_reset_restores_initial_strategy quantum_ai_init failing_run (fresh 8)
                ADAPTIVE_POLICY_FAILURE_RATE 24576) as H.
  cbv zeta in H. destruct H as (H & _).
  - discriminate.
  - exact H.
Defined.

Lemma adaptive_policy_is_evaluated_at_most_once_witness :
  (count_deciding quantum_ai_init failing_run adaptive_reg <= 1)%nat.
Proof.
  apply (adaptive_policy_is_evaluated_at_most_once quantum_ai_init failing_run adaptive_reg
           default_state).
  - reflexivity.
  - reflexivity.
Defined.

Lemma observe_complete_changes_one_entry_witness :
  let '(g', updated) :=
    quantum_ai_observe_complete (observed 9) one_with_buffer_run 1 F32.one 20480 in
  match updated with
  | None => g' = observed 9
  | Some i =>
      db_wf g' /\ db_size g' <= db_capacity g' /\
      (i < length (learning_db g'))%nat /\
      (db_size g' = db_size (observed 9) \/
       db_size g' = db_size (observed 9) + 1 /\ i = length (learning_db (observed 9))) /\
      (forall j, j <> i -> (j < length (learning_db (observed 9)))%nat ->
         learning_db g' !! j = learning_db (observed 9) !! j) /\
      total_observations g' = u32 (total_observations (observed 9) + 1) /\
      enabled g' = true
  end.
Proof.
  apply (observe_complete_changes_one_entry (observed 9) one_with_buffer_run 1 F32.one 20480).
  - reflexivity.
  - vm_compute. discriminate.
  - reflexivity.
Defined.

Lemma send_appends_until_the_queue_is_full_witness :
  let '(sent, b', m') :=
    cross_learning_send_message bus_at_start 1 MSG_HINT 256 4 (-1) 12288 mem_agree in
  if g_queue_count bus_at_start <? 64 then
    sent = true /\
    pending b' = pending bus_at_start ++ [mkMessage MSG_HINT 1 0 4 12288 75] /\
    untouched b' /\
    messages_sent b' = u32 (messages_sent bus_at_start + 1) /\
    (0 < 4 -> load_bytes m' 12288 (Z.to_nat 4) = load_bytes mem_agree 256 (Z.to_nat 4))
  else
    sent = false /\ b' = bus_at_start.
Proof.
  apply (send_appends_until_the_queue_is_full bus_at_start 1 MSG_HINT 256 4 (-1) 12288
           mem_agree).
  - unfold untouched. cbn. repeat split; discriminate.
  - reflexivity.
  - discriminate.
Defined.

Lemma two_pending_untouched : untouched two_pending.
Proof. unfold untouched. cbn. repeat split; discriminate. Defined.

Lemma receive_takes_the_oldest_message_of_another_qubit_witness :
  let '(received, b') := cross_learning_receive_message two_pending 1 in
  match first_for 1 (pending two_pending) 0 with
  | Some (k, msg) =>
      received = Some msg /\ sender_id msg <> 1 /\
      pending b' = delete k (pending two_pending) /\
      g_queue_count b' = g_queue_count two_pending - 1 /\
      messages_received b' = u32 (messages_received two_pending + 1) /\
      g_queue_head b' = 0 /\ g_queue_tail b' = g_queue_tail two_pending /\
      g_queue_tail b' = (g_queue_count b' + 1) mod 64
  | None => received = None /\ b' = two_pending
  end.
Proof.
  apply (receive_takes_the_oldest_message_of_another_qubit two_pending 1).
  - exact two_pending_untouched.
  - reflexivity.
Defined.

Example qubit_1_receives_the_message_of_qubit_2 :
  fst (cross_learning_receive_message two_pending 1)
  = Some (mkMessage MSG_PARTIAL_RESULT 2 0 4 16384 75).
Proof. vm_compute. reflexivity. Qed.

Lemma message_sent_after_a_receive_is_not_delivered_witness :
  let '(_, b1, m1) :=
    cross_learning_send_message bus_at_start 1 MSG_HINT 256 4 (-1) 12288 mem_agree in
  let '(r1, b2) := cross_learning_receive_message b1 2 in
  let '(sent, b3, _) :=
    cross_learning_send_message b2 3 MSG_PARTIAL_RESULT 272 4 (-1) 16384 m1 in
  let '(r2, b4) := cross_learning_receive_message b3 2 in
  r1 = Some (mkMessage MSG_HINT 1 0 4 12288 75) /\ sent = true /\
  r2 = Some (mkMessage MSG_HINT 1 0 4 12288 75) /\
  g_queue_count b4 = 0 /\ pending b4 = [] /\
  nth 1 (g_message_queue b4) zero_message = mkMessage MSG_PARTIAL_RESULT 3 0 4 16384 75 /\
  messages_sent b4 = u32 (u32 (messages_sent bus_at_start + 1) + 1) /\
  messages_received b4 = u32 (u32 (messages_received bus_at_start + 1) + 1).
Proof.
  apply (message_sent_after_a_receive_is_not_delivered bus_at_start 1 3 2 MSG_HINT
           MSG_PARTIAL_RESULT 256 272 4 4 12288 16384 mem_agree).
  - unfold untouched. cbn. repeat split; discriminate.
  - reflexivity.
  - reflexivity.
  - discriminate.
  - discriminate.
  - discriminate.
Defined.

Lemma convergence_reports_the_best_broadcast_witness :
  exists k bc,
    first_max [40; 90; 90] k /\ three_broadcasts !! k = Some bc /\
    cross_learning_check_convergence (fst (run_broadcasts three_broadcasts bus_at_start mem_agree))
    = Some (bc_sender bc).
Proof.
  destruct (convergence_reports_the_best_broadcast three_broadcasts bus_at_start mem_agree)
    as (k & bc & Hmax & Hk & Hconv & _).
  - reflexivity.
  - discriminate.
  - repeat constructor; discriminate.
  - exists k, bc. split; [exact Hmax|]. split; [exact Hk | exact Hconv].
Defined.

Example three_broadcasts_converge_on_qubit_5 :
  cross_learning_check_convergence (fst (run_broadcasts three_broadcasts bus_at_start mem_agree))
  = Some 5.
Proof. vm_compute. reflexivity. Qed.

End RunsOnSamples.
